(** * Flow scheduler of the car-card pipeline (src/app/flow_scheduler.py)

    A shallow embedding of [FlowState], [FlowScheduler._run_chain] and
    [FlowScheduler.run_once], with the properties of the orchestrator
    stated over it.

    Modelling conventions.
    - Python objects are mutated in place; here every function takes the
      objects it may mutate and returns them.  A [CarCard] is shared between
      the local variable [card] and the entry of [state.cards]; the entry is
      written back where the source relies on that sharing.
    - The injected callables and the clock may depend on, and change, the
      outside world.  The world is an abstract type [W] threaded through
      every call.  The callables cannot reach the [FlowState].
    - A callable either returns or raises an [Exception]; [str(exc)] is the
      text carried by [Raise].  Batch ids, photo paths and error texts are
      strings.  A stage result is a dict read only through [.get] on a fixed
      set of keys; each of these keys is absent, holds [None], or holds a
      value of the type that [CarCard] annotates for the field it goes
      to. *)

From Stdlib Require Import ZArith Ascii String List.
From stdpp Require Import gmap strings list fin_maps pretty.
From stdpp Require Import sorting.

Local Open Scope Z_scope.

(** ** Values *)

#[local] Set Warnings "-register-all".

(** JSON-like payloads ([Dict] in the annotations).  The scheduler never
    looks inside them. *)
Inductive pyval :=
| VNone
| VBool (b : bool)
| VInt (z : Z)
| VStr (s : string)
| VList (l : list pyval)
| VDict (d : list (string * pyval)).

Definition Dict := list (string * pyval).

(** [x or {}] for [x : Optional[Dict]]: [None] and the empty dict are falsy. *)
Definition or_empty (x : option Dict) : Dict :=
  match x with
  | Some d => d
  | None => []
  end.

(** Outcome of calling an injected callable. *)
Inductive Res (A : Type) :=
| Return (a : A)
| Raise (msg : string).
Arguments Return {A} a.
Arguments Raise {A} msg.

(** A key read through [.get(key, [])]: with that default an absent key
    and a key that holds [None] are not the same. *)
Inductive ListField :=
| Absent
| Null
| Holds (l : list string).

(** The dict returned by a stage function, as the scheduler reads it.  The
    keys read through [.get(key)] are given by the result of that call:
    [None] when the key is absent or holds [None]. *)
Record Response := {
  get_status : option string;
  get_errors : ListField;
  get_ai_result : option Dict;
  get_mapped_avito : option Dict;
  get_post_url : option string;
  get_photo_files : ListField;
  get_photo_urls : ListField
}.

(** [d.get(key, [])]: a list, or [None] when the key holds [None]. *)
Definition get_list (x : ListField) : option (list string) :=
  match x with
  | Absent => Some []
  | Null => None
  | Holds l => Some l
  end.

(** [str(exc)] for the [TypeError] that [card.errors.extend(None)] raises
    (the text is the one of CPython). *)
Definition not_iterable : string := "'NoneType' object is not iterable".

(** [status == "NEED_ACTION"] and the like, on the result of [.get("status")]. *)
Definition status_is (x : option string) (s : string) : bool :=
  match x with
  | Some t => String.eqb t s
  | None => false
  end.

(** ["; ".join(errors) or fallback] *)
Definition join_or (errs : list string) (fallback : string) : string :=
  let joined := String.concat "; " errs in
  if String.eqb joined "" then fallback else joined.

(** ** Data classes *)

(** [photo_files] and [photo_urls] hold what the importer's result gave for
    them: a list, or [None] when the key held [None]. *)
Record CarCard := {
  card_id : string;
  batch_id : string;
  status : string;
  photo_files : option (list string);
  photo_urls : option (list string);
  template_id : string;
  ai_result : option Dict;
  mapped_avito : option Dict;
  post_url : option string;
  logs : list string;
  errors : list string
}.

(** [CarCard(card_id=..., batch_id=..., status=...)] with the defaults. *)
Definition new_card (cid bid st : string) : CarCard :=
  {| card_id := cid; batch_id := bid; status := st;
     photo_files := Some []; photo_urls := Some []; template_id := "sale";
     ai_result := None; mapped_avito := None; post_url := None;
     logs := []; errors := [] |}.

Definition set_status (s : string) (c : CarCard) : CarCard :=
  {| card_id := card_id c; batch_id := batch_id c; status := s;
     photo_files := photo_files c; photo_urls := photo_urls c;
     template_id := template_id c; ai_result := ai_result c;
     mapped_avito := mapped_avito c; post_url := post_url c;
     logs := logs c; errors := errors c |}.

Definition set_photos (files urls : option (list string)) (c : CarCard) : CarCard :=
  {| card_id := card_id c; batch_id := batch_id c; status := status c;
     photo_files := files; photo_urls := urls;
     template_id := template_id c; ai_result := ai_result c;
     mapped_avito := mapped_avito c; post_url := post_url c;
     logs := logs c; errors := errors c |}.

Definition set_ai_result (r : option Dict) (c : CarCard) : CarCard :=
  {| card_id := card_id c; batch_id := batch_id c; status := status c;
     photo_files := photo_files c; photo_urls := photo_urls c;
     template_id := template_id c; ai_result := r;
     mapped_avito := mapped_avito c; post_url := post_url c;
     logs := logs c; errors := errors c |}.

Definition set_mapped_avito (r : option Dict) (c : CarCard) : CarCard :=
  {| card_id := card_id c; batch_id := batch_id c; status := status c;
     photo_files := photo_files c; photo_urls := photo_urls c;
     template_id := template_id c; ai_result := ai_result c;
     mapped_avito := r; post_url := post_url c;
     logs := logs c; errors := errors c |}.

Definition set_post_url (u : option string) (c : CarCard) : CarCard :=
  {| card_id := card_id c; batch_id := batch_id c; status := status c;
     photo_files := photo_files c; photo_urls := photo_urls c;
     template_id := template_id c; ai_result := ai_result c;
     mapped_avito := mapped_avito c; post_url := u;
     logs := logs c; errors := errors c |}.

Definition set_logs (l : list string) (c : CarCard) : CarCard :=
  {| card_id := card_id c; batch_id := batch_id c; status := status c;
     photo_files := photo_files c; photo_urls := photo_urls c;
     template_id := template_id c; ai_result := ai_result c;
     mapped_avito := mapped_avito c; post_url := post_url c;
     logs := l; errors := errors c |}.

Definition set_errors (l : list string) (c : CarCard) : CarCard :=
  {| card_id := card_id c; batch_id := batch_id c; status := status c;
     photo_files := photo_files c; photo_urls := photo_urls c;
     template_id := template_id c; ai_result := ai_result c;
     mapped_avito := mapped_avito c; post_url := post_url c;
     logs := logs c; errors := l |}.

Module NeedActionItem.
Record t := {
  card_id : string;
  batch_id : string;
  reason : string;
  requires_manual_confirmation : bool
}.
End NeedActionItem.

Module PublicationRecord.
Record t := {
  card_id : string;
  batch_id : string;
  post_url : option string;
  status : string;
  published_at : string
}.
End PublicationRecord.

Record FlowState := {
  cards : gmap string CarCard;
  need_action : list NeedActionItem.t;
  history : list PublicationRecord.t;
  processed_batches : gset string
}.

Definition set_cards (m : gmap string CarCard) (st : FlowState) : FlowState :=
  {| cards := m; need_action := need_action st; history := history st;
     processed_batches := processed_batches st |}.

Definition set_need_action (q : list NeedActionItem.t) (st : FlowState) : FlowState :=
  {| cards := cards st; need_action := q; history := history st;
     processed_batches := processed_batches st |}.

Definition set_history (h : list PublicationRecord.t) (st : FlowState) : FlowState :=
  {| cards := cards st; need_action := need_action st; history := h;
     processed_batches := processed_batches st |}.

Definition set_processed_batches (p : gset string) (st : FlowState) : FlowState :=
  {| cards := cards st; need_action := need_action st; history := history st;
     processed_batches := p |}.

(** [FlowState()] *)
Definition empty_state : FlowState :=
  {| cards := ∅; need_action := []; history := []; processed_batches := ∅ |}.

(** [FlowState.add_need_action] *)
Definition add_need_action (st : FlowState) (card : CarCard) (reason : string) : FlowState :=
  set_need_action
    (need_action st ++
       [ {| NeedActionItem.card_id := card_id card;
            NeedActionItem.batch_id := batch_id card;
            NeedActionItem.reason := reason;
            NeedActionItem.requires_manual_confirmation := true |} ])
    st.

(** [FlowState.resolve_need_action]: the returned boolean and the state
    after the call. *)
Definition resolve_need_action (st : FlowState) (cid : string) : bool * FlowState :=
  let before := length (need_action st) in
  let st' :=
    set_need_action
      (filter (λ item, NeedActionItem.card_id item ≠ cid) (need_action st)) st in
  (bool_decide (length (need_action st') < before)%nat, st').

(** ** What the scheduler writes *)

(** The record written by [add_history] for a card, up to its timestamp. *)
Definition record_of (card : CarCard) (timestamp : string) : PublicationRecord.t :=
  {| PublicationRecord.card_id := card_id card;
     PublicationRecord.batch_id := batch_id card;
     PublicationRecord.post_url := post_url card;
     PublicationRecord.status := status card;
     PublicationRecord.published_at := timestamp |}.

(** The queue entry written by [add_need_action] for a card. *)
Definition item_of (card : CarCard) (reason : string) : NeedActionItem.t :=
  {| NeedActionItem.card_id := card_id card;
     NeedActionItem.batch_id := batch_id card;
     NeedActionItem.reason := reason;
     NeedActionItem.requires_manual_confirmation := true |}.

(** What a chain leaves behind, whatever the stage functions did: the card
    is settled in one of three ways, and the queue and the history grow by
    at most the one entry that goes with it. *)
Inductive settled (st : FlowState) (card' : CarCard) (st' : FlowState) : Prop :=
| settled_posted timestamp :
    status card' = "POSTED" →
    need_action st' = need_action st →
    history st' = history st ++ [record_of card' timestamp] →
    settled st card' st'
| settled_need_action reason :
    status card' = "NEED_ACTION" →
    need_action st' = need_action st ++ [item_of card' reason] →
    history st' = history st →
    settled st card' st'
| settled_failed :
    status card' = "FAILED" →
    need_action st' = need_action st →
    history st' = history st →
    settled st card' st'.

(** The chain writes neither the identity of the card nor the admission
    data of the state. *)
Record framed (card : CarCard) (st : FlowState) (card' : CarCard) (st' : FlowState) : Prop := {
  framed_card_id : card_id card' = card_id card;
  framed_batch_id : batch_id card' = batch_id card;
  framed_template_id : template_id card' = template_id card;
  framed_cards : cards st' = cards st;
  framed_processed : processed_batches st' = processed_batches st;
  framed_settled : settled st card' st'
}.

(** No character of [s] is [c]. *)
Fixpoint free_of (c : ascii) (s : string) : Prop :=
  match s with
  | EmptyString => True
  | String a s => a ≠ c ∧ free_of c s
  end.

(** ** The scheduler *)

Section Scheduler.

(** The outside world: whatever the callables and the clock depend on. *)
Variable W : Type.

(** [time.time], [datetime.now] and [time.sleep]. *)
Record Clock := {
  (** [int(time.time())] *)
  unix_time : W → Z * W;
  (** [datetime.now(timezone.utc).isoformat(timespec="seconds")] *)
  utc_now : W → string * W;
  (** [time.sleep(seconds)]: it returns, or raises: a [ValueError] for a
      negative length, an [OverflowError] or an [OSError] for a length
      beyond what the platform takes. *)
  sleep : Z → W → Res unit * W
}.

(** The fields of the [FlowScheduler] dataclass, except [state], which is
    passed to and returned by every method. *)
Record FlowScheduler := {
  interval_minutes : Z;
  fetch_batches : W → Res (list string) * W;
  import_photos : string → W → Res Response * W;
  ai_client : option (list string) → string → W → Res Response * W;
  mapper : Dict → option (list string) → W → Res Response * W;
  poster : Dict → option (list string) → W → Res Response * W
}.

Variable clk : Clock.
Variable sch : FlowScheduler.

(** [CarCard.log] *)
Definition log (card : CarCard) (message : string) (w : W) : CarCard * W :=
  let '(timestamp, w) := utc_now clk w in
  (set_logs (logs card ++ [timestamp +:+ " " +:+ message]) card, w).

(** [FlowState.add_history] *)
Definition add_history (st : FlowState) (card : CarCard) (w : W) : FlowState * W :=
  let '(timestamp, w) := utc_now clk w in
  (set_history
     (history st ++
        [ {| PublicationRecord.card_id := card_id card;
             PublicationRecord.batch_id := batch_id card;
             PublicationRecord.post_url := post_url card;
             PublicationRecord.status := status card;
             PublicationRecord.published_at := timestamp |} ])
     st,
   w).

(** [_now_id] *)
Definition _now_id (prefix : string) (index : Z) (w : W) : string * W :=
  let '(t, w) := unix_time clk w in
  (prefix +:+ "_" +:+ pretty t +:+ "_" +:+ pretty index, w).

(** [FlowScheduler._ensure_card].  The dict entry and the returned card are
    one object, so the entry carries the "Card created" log line. *)
Definition _ensure_card (st : FlowState) (bid : string) (index : Z) (w : W)
  : CarCard * FlowState * W :=
  let '(cid, w) := _now_id "card" index w in
  let card := new_card cid bid "NEW" in
  let '(card, w) := log card "Card created" w in
  (card, set_cards (<[cid := card]> (cards st)) st, w).

(** What the [try] block of [_run_chain] leaves behind: [None] when the
    block ran to its end or returned, [Some msg] when it raised, together
    with the card, the state and the world as they are at that point. *)
Definition Chain : Type := option string * CarCard * FlowState * W.

(** Lines 127-143: the posting stage.  [card.errors.extend(errors)] raises
    when the key ["errors"] holds [None]; the status is written before
    that. *)
Definition post_stage (card : CarCard) (st : FlowState) (w : W) : Chain :=
  let '(card, w) := log card "Posting to Avito" w in
  match poster sch (or_empty (mapped_avito card)) (photo_files card) w with
  | (Raise msg, w) => (Some msg, card, st, w)
  | (Return post_response, w) =>
      let status := get_status post_response in
      let card := set_post_url (get_post_url post_response) card in
      if status_is status "POSTED" then
        let card := set_status "POSTED" card in
        let '(st, w) := add_history st card w in
        (None, card, st, w)
      else if status_is status "NEED_ACTION" then
        let card := set_status "NEED_ACTION" card in
        match get_list (get_errors post_response) with
        | None => (Some not_iterable, card, st, w)
        | Some errs =>
            let card := set_errors (errors card ++ errs) card in
            let reason := join_or errs "Captcha or manual confirmation required" in
            (None, card, add_need_action st card reason, w)
        end
      else
        let card := set_status "FAILED" card in
        match get_list (get_errors post_response) with
        | None => (Some not_iterable, card, st, w)
        | Some errs => (None, set_errors (errors card ++ errs) card, st, w)
        end
  end.

(** Lines 116-125: the mapping stage, then the posting stage. *)
Definition map_stage (card : CarCard) (st : FlowState) (w : W) : Chain :=
  let '(card, w) := log card "Mapping to Avito" w in
  match mapper sch (or_empty (ai_result card)) (photo_files card) w with
  | (Raise msg, w) => (Some msg, card, st, w)
  | (Return mapped_response, w) =>
      if status_is (get_status mapped_response) "NEED_ACTION" then
        let card := set_status "NEED_ACTION" card in
        match get_list (get_errors mapped_response) with
        | None => (Some not_iterable, card, st, w)
        | Some errs =>
            let card := set_errors (errors card ++ errs) card in
            (None, card, add_need_action st card (join_or errs "Mapping failed"), w)
        end
      else
        let card := set_mapped_avito (get_mapped_avito mapped_response) card in
        let card := set_status "READY_TO_POST" card in
        post_stage card st w
  end.

(** Lines 105-114: the generation stage, then the rest of the chain. *)
Definition ai_stage (card : CarCard) (st : FlowState) (w : W) : Chain :=
  let '(card, w) := log card "Running AI" w in
  match ai_client sch (photo_files card) (template_id card) w with
  | (Raise msg, w) => (Some msg, card, st, w)
  | (Return ai_response, w) =>
      if status_is (get_status ai_response) "NEED_ACTION" then
        let card := set_status "NEED_ACTION" card in
        match get_list (get_errors ai_response) with
        | None => (Some not_iterable, card, st, w)
        | Some errs =>
            let card := set_errors (errors card ++ errs) card in
            (None, card, add_need_action st card (join_or errs "AI validation failed"), w)
        end
      else
        let card := set_ai_result (get_ai_result ai_response) card in
        let card := set_status "AI_READY" card in
        map_stage card st w
  end.

(** Lines 99-143: the whole [try] block. *)
Definition chain_body (card : CarCard) (st : FlowState) (w : W) : Chain :=
  let '(card, w) := log card "Importing photos" w in
  match import_photos sch (batch_id card) w with
  | (Raise msg, w) => (Some msg, card, st, w)
  | (Return photo_result, w) =>
      let card :=
        set_photos (get_list (get_photo_files photo_result))
                   (get_list (get_photo_urls photo_result)) card in
      let card := set_status "PHOTOS_READY" card in
      ai_stage card st w
  end.

(** Lines 144-146: the [except Exception] handler. *)
Definition on_exception (r : Chain) : CarCard * FlowState * W :=
  match r with
  | (None, card, st, w) => (card, st, w)
  | (Some exc, card, st, w) =>
      let card := set_status "FAILED" card in
      (set_errors (errors card ++ [exc]) card, st, w)
  end.

(** [FlowScheduler._run_chain] *)
Definition _run_chain (card : CarCard) (st : FlowState) (w : W)
  : CarCard * FlowState * W :=
  on_exception (chain_body card st w).

(** One iteration of the loop of [run_once].  [_run_chain] mutates the
    object that [state.cards] holds under [card.card_id], so the entry is
    the card as the chain left it.  The card is also returned, to record
    what the cycle created. *)
Definition run_batch (st : FlowState) (index : Z) (bid : string) (w : W)
  : CarCard * FlowState * W :=
  let '(card, st, w) := _ensure_card st bid index w in
  let '(card, st, w) := _run_chain card st w in
  let st := set_cards (<[card_id card := card]> (cards st)) st in
  (card, set_processed_batches ({[bid]} ∪ processed_batches st) st, w).

(** [for index, batch_id in enumerate(new_batch_ids, start=index)]; the
    cards created, in order, are returned with the state. *)
Fixpoint run_loop (index : Z) (new_batch_ids : list string) (st : FlowState) (w : W)
  : list CarCard * FlowState * W :=
  match new_batch_ids with
  | [] => ([], st, w)
  | bid :: rest =>
      let '(card, st, w) := run_batch st index bid w in
      let '(created, st, w) := run_loop (index + 1) rest st w in
      (card :: created, st, w)
  end.

(** Line 150 *)
Definition new_batches (batch_ids : list string) (st : FlowState) : list string :=
  filter (λ bid, bid ∉ processed_batches st) batch_ids.

(** [FlowScheduler.run_once].  An exception of [fetch_batches] is not
    caught.  On a normal return the result lists the cards the cycle
    created, in creation order, each as its chain left it. *)
Definition run_once (st : FlowState) (w : W) : Res (list CarCard) * FlowState * W :=
  match fetch_batches sch w with
  | (Raise msg, w) => (Raise msg, st, w)
  | (Return batch_ids, w) =>
      let '(created, st, w) := run_loop 1 (new_batches batch_ids st) st w in
      (Return created, st, w)
  end.

(** [FlowScheduler.run_cycles]: [range(cycles)] is empty for a negative
    [cycles]; an exception of [run_once] ends the loop, and so does an
    exception of [time.sleep]. *)
Fixpoint run_cycles_loop (n : nat) (st : FlowState) (w : W) : Res unit * FlowState * W :=
  match n with
  | O => (Return tt, st, w)
  | S n =>
      match run_once st w with
      | (Raise msg, st, w) => (Raise msg, st, w)
      | (Return _, st, w) =>
          match sleep clk (interval_minutes sch * 60) w with
          | (Raise msg, w) => (Raise msg, st, w)
          | (Return _, w) => run_cycles_loop n st w
          end
      end
  end.

Definition run_cycles (cycles : Z) (st : FlowState) (w : W) : Res unit * FlowState * W :=
  run_cycles_loop (Z.to_nat cycles) st w.

(** *** Lifetime of a workflow state *)

(** The cards a call of [run_once] created. *)
Definition created_of (r : Res (list CarCard)) : list CarCard :=
  match r with
  | Return created => created
  | Raise _ => []
  end.

(** [lifetime st created st']: [st'] is reached from [st] by calls of
    [run_once], each from whatever world it finds, and of
    [resolve_need_action] in between; [created] lists the cards created on
    the way, in creation order. *)
Inductive lifetime : FlowState → list CarCard → FlowState → Prop :=
| lifetime_done st :
    lifetime st [] st
| lifetime_cycle st w r st1 w1 created st2 :
    run_once st w = (r, st1, w1) →
    lifetime st1 created st2 →
    lifetime st (created_of r ++ created) st2
| lifetime_resolve st cid created st2 :
    lifetime (resolve_need_action st cid).2 created st2 →
    lifetime st created st2.

(** The stage functions are functions of their arguments only: what they
    return or raise does not depend on the world they are called in. *)
Definition pure_stages : Prop :=
  (∀ bid w w', (import_photos sch bid w).1 = (import_photos sch bid w').1) ∧
  (∀ files tid w w', (ai_client sch files tid w).1 = (ai_client sch files tid w').1) ∧
  (∀ d files w w', (mapper sch d files w).1 = (mapper sch d files w').1) ∧
  (∀ d files w w', (poster sch d files w).1 = (poster sch d files w').1).

(** Some stage function raises in the chain of a new card of batch [bid]. *)
Definition chain_raises (bid : string) : Prop :=
  ∃ cid st w msg card' st' w',
    chain_body (new_card cid bid "NEW") st w = (Some msg, card', st', w').

(** *** Predicates on the outcome of a chain *)

(** The outcome of (a part of) the chain, once the handler has run, is
    framed with respect to the card and state it started from. *)
Definition chain_post (card : CarCard) (st : FlowState) (r : Chain) : Prop :=
  framed card st (on_exception r).1.1 (on_exception r).1.2.

(** Two runs of (a part of) the chain agree on whether an exception was
    raised, with which text, and on the status the card ends with. *)
Definition same_outcome (r1 r2 : Chain) : Prop :=
  r1.1.1.1 = r2.1.1.1 ∧
  status (on_exception r1).1.1 = status (on_exception r2).1.1.

End Scheduler.

Arguments unix_time {W}.
Arguments utc_now {W}.
Arguments sleep {W}.
Arguments interval_minutes {W}.
Arguments fetch_batches {W}.
Arguments import_photos {W}.
Arguments ai_client {W}.
Arguments mapper {W}.
Arguments poster {W}.
Arguments log {W}.
Arguments add_history {W}.
Arguments _now_id {W}.
Arguments _ensure_card {W}.
Arguments post_stage {W}.
Arguments map_stage {W}.
Arguments ai_stage {W}.
Arguments chain_body {W}.
Arguments on_exception {W}.
Arguments _run_chain {W}.
Arguments run_batch {W}.
Arguments run_loop {W}.
Arguments run_once {W}.
Arguments run_cycles_loop {W}.
Arguments run_cycles {W}.
Arguments created_of : simpl never.
Arguments lifetime {W}.
Arguments pure_stages {W}.
Arguments chain_raises {W}.
Arguments chain_post {W}.
Arguments same_outcome {W}.


(** ** A scripted world for running the scheduler

    The world is a clock and the lists the batch source will return, one per
    call.  The stage functions are fixed functions of their arguments; which
    batch meets which fate is decided by its name. *)
Module Script.

Record world := {
  clock : Z;
  feed : list (list string)
}.

Definition clk : Clock world :=
  {| unix_time := λ w, (clock w, w);
     utc_now := λ w, ("T" +:+ pretty (clock w), w);
     sleep := λ secs w,
       if secs <? 0 then (Raise "sleep length must be non-negative", w)
       else if 9223372036 <? secs then
         (Raise "timestamp too large to convert to C _PyTime_t", w)
       else (Return tt, {| clock := clock w + secs; feed := feed w |}) |}.

Definition fetch (w : world) : Res (list string) * world :=
  match feed w with
  | [] => (Return [], w)
  | batch_ids :: rest => (Return batch_ids, {| clock := clock w; feed := rest |})
  end.

(** What each stage function answers, as a function of its arguments. *)

Definition import_answer (bid : string) : Res Response :=
  if String.eqb bid "offline" then Raise "photo source unreachable"
  else
    Return {| get_status := None; get_errors := Absent; get_ai_result := None;
              get_mapped_avito := None; get_post_url := None;
              get_photo_files := Holds [bid +:+ "/01.jpg"];
              get_photo_urls := Holds ["https://photo/" +:+ bid +:+ "/01.jpg"] |}.

Definition listing : Dict := [("title", VStr "Demo car")].

Definition first_file (files : option (list string)) : string :=
  match files with
  | Some (file :: _) => file
  | _ => ""
  end.

Definition ai_answer (files : option (list string)) (tid : string) : Res Response :=
  if String.eqb (first_file files) "blurry/01.jpg" then
    Return {| get_status := Some "NEED_ACTION"; get_errors := Holds ["title too short"];
              get_ai_result := Some listing; get_mapped_avito := None;
              get_post_url := None; get_photo_files := Absent;
              get_photo_urls := Absent |}
  else if String.eqb (first_file files) "silent/01.jpg" then
    Return {| get_status := Some "NEED_ACTION"; get_errors := Null;
              get_ai_result := Some listing; get_mapped_avito := None;
              get_post_url := None; get_photo_files := Absent;
              get_photo_urls := Absent |}
  else if String.eqb (first_file files) "timeout/01.jpg" then
    Raise "AI request timed out"
  else if String.eqb (first_file files) "odd/01.jpg" then
    Return {| get_status := Some "FAILED"; get_errors := Holds ["ignored"];
              get_ai_result := Some listing; get_mapped_avito := None;
              get_post_url := None; get_photo_files := Absent;
              get_photo_urls := Absent |}
  else
    Return {| get_status := Some "AI_READY"; get_errors := Absent;
              get_ai_result := Some listing; get_mapped_avito := None;
              get_post_url := None; get_photo_files := Absent;
              get_photo_urls := Absent |}.

Definition map_answer (d : Dict) (files : option (list string)) : Res Response :=
  if String.eqb (first_file files) "nocity/01.jpg" then
    Return {| get_status := Some "NEED_ACTION"; get_errors := Holds ["city missing"];
              get_ai_result := None; get_mapped_avito := None;
              get_post_url := None; get_photo_files := Absent;
              get_photo_urls := Absent |}
  else if String.eqb (first_file files) "crash/01.jpg" then
    Raise "mapper crashed"
  else if String.eqb (first_file files) "odd/01.jpg" then
    Return {| get_status := None; get_errors := Absent;
              get_ai_result := None; get_mapped_avito := Some d;
              get_post_url := None; get_photo_files := Absent;
              get_photo_urls := Absent |}
  else
    Return {| get_status := Some "READY_TO_POST"; get_errors := Absent;
              get_ai_result := None; get_mapped_avito := Some d;
              get_post_url := None; get_photo_files := Absent;
              get_photo_urls := Absent |}.

Definition post_answer (d : Dict) (files : option (list string)) : Res Response :=
  if String.eqb (first_file files) "captcha/01.jpg" then
    Return {| get_status := Some "NEED_ACTION"; get_errors := Holds ["Captcha required"];
              get_ai_result := None; get_mapped_avito := None;
              get_post_url := Some "https://avito.ru/draft/captcha";
              get_photo_files := Absent; get_photo_urls := Absent |}
  else if String.eqb (first_file files) "rejected/01.jpg" then
    Return {| get_status := Some "FAILED"; get_errors := Holds ["Posting failed"];
              get_ai_result := None; get_mapped_avito := None;
              get_post_url := None;
              get_photo_files := Absent; get_photo_urls := Absent |}
  else if String.eqb (first_file files) "down/01.jpg" then
    Raise "browser profile is not running"
  else
    Return {| get_status := Some "POSTED"; get_errors := Holds [];
              get_ai_result := None; get_mapped_avito := None;
              get_post_url := Some ("https://avito.ru/item/" +:+ first_file files);
              get_photo_files := Absent; get_photo_urls := Absent |}.

(** The stage functions leave the world alone. *)
Definition import (bid : string) (w : world) : Res Response * world :=
  (import_answer bid, w).
Definition ai (files : option (list string)) (tid : string) (w : world)
  : Res Response * world :=
  (ai_answer files tid, w).
Definition map_ (d : Dict) (files : option (list string)) (w : world)
  : Res Response * world :=
  (map_answer d files, w).
Definition post (d : Dict) (files : option (list string)) (w : world)
  : Res Response * world :=
  (post_answer d files, w).

Definition sch : FlowScheduler world :=
  {| interval_minutes := 0;
     fetch_batches := fetch;
     import_photos := import;
     ai_client := ai;
     mapper := map_;
     poster := post |}.

(** A world at second 1700000000 whose batch source returns [feed]. *)
Definition at_noon (feed : list (list string)) : world :=
  {| clock := 1700000000; feed := feed |}.

End Script.

(** ** A photo source with a quota

    A world in which a stage function is not a function of its arguments:
    the photo source takes two requests and refuses every later one,
    whatever the batch; it does not know the batch ["b2"].  The other stage
    functions always succeed. *)
Module Metered.

Record world := {
  feed : list string;
  requests : nat
}.

Definition clk : Clock world :=
  {| unix_time := λ w, (1700000000, w);
     utc_now := λ w, ("2023-11-14T22:13:20+00:00", w);
     sleep := λ secs w, (Return tt, w) |}.

Definition fetch (w : world) : Res (list string) * world := (Return (feed w), w).

Definition import (bid : string) (w : world) : Res Response * world :=
  let w' := {| feed := feed w; requests := S (requests w) |} in
  if (2 <=? requests w)%nat then (Raise "quota exceeded", w')
  else if String.eqb bid "b2" then (Raise "batch not found", w')
  else
    (Return {| get_status := Some "PHOTOS_READY"; get_errors := Absent;
               get_ai_result := None; get_mapped_avito := None;
               get_post_url := None;
               get_photo_files := Holds [bid +:+ "/01.jpg"];
               get_photo_urls := Holds ["https://photo/" +:+ bid +:+ "/01.jpg"] |},
     w').

Definition ai (files : option (list string)) (tid : string) (w : world)
  : Res Response * world :=
  (Return {| get_status := Some "AI_READY"; get_errors := Holds [];
             get_ai_result := Some Script.listing; get_mapped_avito := None;
             get_post_url := None; get_photo_files := Absent;
             get_photo_urls := Absent |}, w).

Definition map_ (d : Dict) (files : option (list string)) (w : world)
  : Res Response * world :=
  (Return {| get_status := Some "READY_TO_POST"; get_errors := Holds [];
             get_ai_result := None; get_mapped_avito := Some d;
             get_post_url := None; get_photo_files := Absent;
             get_photo_urls := Absent |}, w).

Definition post (d : Dict) (files : option (list string)) (w : world)
  : Res Response * world :=
  (Return {| get_status := Some "POSTED"; get_errors := Holds [];
             get_ai_result := None; get_mapped_avito := None;
             get_post_url := Some "https://avito.ru/item/1";
             get_photo_files := Absent; get_photo_urls := Absent |}, w).

Definition sch : FlowScheduler world :=
  {| interval_minutes := 0;
     fetch_batches := fetch;
     import_photos := import;
     ai_client := ai;
     mapper := map_;
     poster := post |}.

(** A world in which no request was made yet and the batch source returns
    [feed]. *)
Definition start (feed : list string) : world := {| feed := feed; requests := 0 |}.

End Metered.

(** ** The smoke test (src/app/flow_smoke.py)

    The stage functions of the smoke test, run on the clock and the world
    of the scripted world. *)
Module Smoke.

(** [s.split(sep)] for a one-character separator. *)
Fixpoint split (sep : ascii) (s : string) : list string :=
  match s with
  | EmptyString => [EmptyString]
  | String c rest =>
      if Ascii.eqb c sep then EmptyString :: split sep rest
      else
        match split sep rest with
        | part :: parts => String c part :: parts
        | [] => [String c EmptyString]
        end
  end.

Definition BATCHES : list string :=
  ["batch_1"; "batch_2"; "batch_3"; "batch_4"; "batch_5"].

Definition fetch_batches (w : Script.world) : Res (list string) * Script.world :=
  (Return BATCHES, w).

Definition import_photos (bid : string) (w : Script.world) : Res Response * Script.world :=
  (Return {| get_status := None; get_errors := Absent; get_ai_result := None;
             get_mapped_avito := None; get_post_url := None;
             get_photo_files :=
               Holds ["data/" +:+ bid +:+ "/01.jpg"; "data/" +:+ bid +:+ "/02.jpg"];
             get_photo_urls :=
               Holds ["https://photo/" +:+ bid +:+ "/01.jpg";
                     "https://photo/" +:+ bid +:+ "/02.jpg"] |},
   w).

Definition demo_car : Dict :=
  [("title", VStr "Demo car");
   ("description", VStr "Long enough description");
   ("avito_fields",
    VDict [("category", VStr "Автомобили");
           ("brand", VStr "Brand");
           ("model", VStr "Model");
           ("price_rub", VInt 1000000);
           ("city", VStr "Москва");
           ("body_type", VStr "Седан");
           ("drive_type", VStr "Передний");
           ("color", VStr "Белый");
           ("owners", VInt 1);
           ("payment_per_month_rub", VInt 10000)])].

Definition ai_client (files : option (list string)) (tid : string) (w : Script.world)
  : Res Response * Script.world :=
  (Return {| get_status := Some "AI_READY"; get_errors := Absent;
             get_ai_result := Some demo_car; get_mapped_avito := None;
             get_post_url := None; get_photo_files := Absent;
             get_photo_urls := Absent |},
   w).

Definition mapper (ai_result : Dict) (files : option (list string)) (w : Script.world)
  : Res Response * Script.world :=
  (Return {| get_status := Some "READY_TO_POST"; get_errors := Absent;
             get_ai_result := None; get_mapped_avito := Some ai_result;
             get_post_url := None; get_photo_files := Absent;
             get_photo_urls := Absent |},
   w).

(** [photo_files[0].split("/")[1]] raises [IndexError] when either index is
    out of range, and [TypeError] when [photo_files] is [None]. *)
Definition poster (mapped_avito : Dict) (files : option (list string)) (w : Script.world)
  : Res Response * Script.world :=
  match files with
  | None => (Raise "'NoneType' object is not subscriptable", w)
  | Some [] => (Raise "list index out of range", w)
  | Some (file :: _) =>
      match split "/" file with
      | _ :: batch_hint :: _ =>
          if String.eqb batch_hint "batch_3" then
            (Return {| get_status := Some "NEED_ACTION";
                       get_errors := Holds ["Captcha required"];
                       get_ai_result := None; get_mapped_avito := None;
                       get_post_url := None; get_photo_files := Absent;
                       get_photo_urls := Absent |}, w)
          else
            (Return {| get_status := Some "POSTED"; get_errors := Holds [];
                       get_ai_result := None; get_mapped_avito := None;
                       get_post_url := Some ("https://avito.ru/item/" +:+ batch_hint);
                       get_photo_files := Absent; get_photo_urls := Absent |}, w)
      | _ => (Raise "list index out of range", w)
      end
  end.

(** [FlowScheduler(interval_minutes=0, state=state, fetch_batches=..., ...)] *)
Definition scheduler : FlowScheduler Script.world :=
  Build_FlowScheduler Script.world 0 fetch_batches import_photos ai_client mapper poster.

End Smoke.

(** ** Further predicates on the scheduler *)

(** The log messages of the four stages, in the order of the chain. *)
Definition stage_messages : list string :=
  ["Importing photos"; "Running AI"; "Mapping to Avito"; "Posting to Avito"].

(** [lines] are log lines for [messages], in order, each behind the time
    stamp [CarCard.log] puts in front. *)
Definition logged (lines messages : list string) : Prop :=
  Forall2 (λ line message, ∃ timestamp, line = timestamp +:+ " " +:+ message)
    lines messages.

(** After (a part of) the chain whose stages log [messages], the card has
    the log lines of the first [k] of them and some errors more; a card
    that ends [POSTED] has all the lines and no error more. *)
Definition trail_post {W} (messages : list string) (card : CarCard) (r : Chain W) : Prop :=
  let card' := (on_exception r).1.1 in
  ∃ (k : nat) lines errs,
    (1 ≤ k ≤ length messages)%nat ∧
    logs card' = logs card ++ lines ∧
    logged lines (take k messages) ∧
    errors card' = errors card ++ errs ∧
    (status card' = "POSTED" → k = length messages ∧ errs = []).

(** After (a part of) the chain the queue is what it was, or has one entry
    more, for this card and with a reason that is not empty. *)
Definition queue_post {W} (st : FlowState) (r : Chain W) : Prop :=
  let card' := (on_exception r).1.1 in
  let st' := (on_exception r).1.2 in
  need_action st' = need_action st ∨
  ∃ reason, reason ≠ "" ∧ need_action st' = need_action st ++ [item_of card' reason].

(** Every card is kept under its own id and has a settled status. *)
Definition cards_ok (st : FlowState) : Prop :=
  ∀ cid card, cards st !! cid = Some card →
    card_id card = cid ∧
    (status card = "POSTED" ∨ status card = "NEED_ACTION" ∨ status card = "FAILED").

(** Every publication record says [POSTED] and names the id of a card of
    the state and a processed batch. *)
Definition history_ok (st : FlowState) : Prop :=
  ∀ rec, rec ∈ history st →
    PublicationRecord.status rec = "POSTED" ∧
    PublicationRecord.card_id rec ∈ dom (cards st) ∧
    PublicationRecord.batch_id rec ∈ processed_batches st.

(** Every queue entry asks for manual confirmation, gives a reason, and
    names the id of a card of the state and a processed batch. *)
Definition queue_ok (st : FlowState) : Prop :=
  ∀ item, item ∈ need_action st →
    NeedActionItem.reason item ≠ "" ∧
    NeedActionItem.requires_manual_confirmation item = true ∧
    NeedActionItem.card_id item ∈ dom (cards st) ∧
    NeedActionItem.batch_id item ∈ processed_batches st.

(** ** The poster (src/app/avito_poster.py)

    [post_listing] drives a form filler and, when the filler did not post,
    a screenshotter.  Both are callables of the caller; as for the
    scheduler they may depend on and change the outside world.  The dict
    the filler returns is read through [.get]; its values are strings or
    [None], as the docstring of [post_listing] says. *)
Module Poster.

Record AvitoPostResult := {
  status : string;
  post_url : option string;
  errors : list string;
  step_log : list string;
  screenshot_path : option string
}.

(** The dict returned by [form_filler]: the results of [.get("status")],
    [.get("post_url")] and [.get("error")]. *)
Record FillResult := {
  fill_status : option string;
  fill_post_url : option string;
  fill_error : option string
}.

(** Truth value of an [Optional[str]]: [None] and [""] are falsy. *)
Definition truthy (x : option string) : bool :=
  match x with
  | Some s => negb (String.eqb s "")
  | None => false
  end.

(** [x or default] for [x : Optional[str]] *)
Definition or_else (x : option string) (default : string) : string :=
  match x with
  | Some s => if String.eqb s "" then default else s
  | None => default
  end.

Section PostListing.

Variable W : Type.

(** [form_filler(mapped_avito, photo_files, log_step)]: the messages it
    passed to [log_step] before it returned or raised, what it returned or
    raised, and the world it left. *)
Variable form_filler : Dict → list string → W → list string * Res FillResult * W.

(** [screenshotter], [None] by default. *)
Variable screenshotter : option (string → W → Res string * W).

(** Lines 49-51: the screenshot, asked for when the status is
    ["need_action"] or ["failed"] and a screenshotter was given.  An
    exception of the screenshotter is not caught. *)
Definition take_screenshot (status : option string) (w : W) : Res (option string) * W :=
  match status, screenshotter with
  | Some s, Some shoot =>
      if String.eqb s "need_action" || String.eqb s "failed" then
        match shoot s w with
        | (Return path, w) => (Return (Some path), w)
        | (Raise exc, w) => (Raise exc, w)
        end
      else (Return None, w)
  | _, _ => (Return None, w)
  end.

(** [post_listing] *)
Definition post_listing (mapped_avito : Dict) (photo_files : list string) (w : W)
  : Res AvitoPostResult * W :=
  let '(steps, outcome, w) := form_filler mapped_avito photo_files w in
  let step_log := "Starting Avito form fill" :: steps in
  let '(status, post_url, error_message) :=
    match outcome with
    | Return result => (fill_status result, fill_post_url result, fill_error result)
    | Raise exc => (Some "failed", None, Some exc)
    end in
  match take_screenshot status w with
  | (Raise exc, w) => (Raise exc, w)
  | (Return screenshot_path, w) =>
      if status_is status "posted" && truthy post_url then
        (Return {| status := "POSTED"; post_url := post_url; errors := [];
                   step_log := step_log; screenshot_path := screenshot_path |}, w)
      else if status_is status "need_action" then
        (Return {| status := "NEED_ACTION"; post_url := post_url;
                   errors := [or_else error_message "Manual action required"];
                   step_log := step_log; screenshot_path := screenshot_path |}, w)
      else
        (Return {| status := "FAILED"; post_url := post_url;
                   errors := [or_else error_message "Posting failed"];
                   step_log := step_log; screenshot_path := screenshot_path |}, w)
  end.

End PostListing.

Arguments take_screenshot {W}.
Arguments post_listing {W}.

(** A filler and a screenshotter for running [post_listing]: the filler
    answers by the first photo, the screenshotter names the file after the
    reason unless the world says the disk is full. *)
Definition demo_filler (mapped_avito : Dict) (photo_files : list string) (w : bool)
  : list string * Res FillResult * bool :=
  match photo_files with
  | [] => (["Opening form"], Raise "no photos to upload", w)
  | file :: _ =>
      if String.eqb file "captcha.jpg" then
        (["Opening form"; "Uploading photos"],
         Return {| fill_status := Some "need_action"; fill_post_url := None;
                   fill_error := Some "Captcha required" |}, w)
      else if String.eqb file "lost.jpg" then
        (["Opening form"; "Uploading photos"; "Submitting"],
         Return {| fill_status := Some "posted"; fill_post_url := None;
                   fill_error := None |}, w)
      else
        (["Opening form"; "Uploading photos"; "Submitting"],
         Return {| fill_status := Some "posted";
                   fill_post_url := Some "https://avito.ru/item/1";
                   fill_error := None |}, w)
  end.

Definition demo_screenshotter (reason : string) (disk_full : bool) : Res string * bool :=
  if disk_full then (Raise "No space left on device", disk_full)
  else (Return ("shots/" +:+ reason +:+ ".png"), disk_full).

End Poster.

(** ** The mapper (src/app/avito_mapper.py)

    The mapper looks at the characters of strings, so here a Python [str]
    is the sequence of its code points.  A dict is a finite map: the mapper
    never depends on the order of the keys of a dict.  Values are those of
    JSON.  Two things come from the interpreter and are parameters: the
    floats, of which the mapper only asks whether one is zero, and the white
    space that [str.strip] removes. *)
Module Mapper.

(** A Python [str]. *)
Definition pystr : Type := list N.

(** The [str] written as an ASCII literal in the source. *)
Definition lit (s : string) : pystr := N_of_ascii <$> String.list_ascii_of_string s.

(** [a <= b] on [str]: lexicographic by code point. *)
Fixpoint str_leb (a b : pystr) : bool :=
  match a, b with
  | [], _ => true
  | _ :: _, [] => false
  | x :: a', y :: b' => if (x =? y)%N then str_leb a' b' else (x <? y)%N
  end.

Definition str_le (a b : pystr) : Prop := str_leb a b = true.

#[export] Instance str_le_dec a b : Decision (str_le a b).
Proof. unfold str_le. apply _. Defined.

(** [sorted(strs)] *)
Definition sorted (strs : list pystr) : list pystr := merge_sort str_le strs.

(** [sep.join(strs)] *)
Fixpoint join (sep : pystr) (strs : list pystr) : pystr :=
  match strs with
  | [] => []
  | [s] => s
  | s :: rest => s ++ sep ++ join sep rest
  end.

(** [text.replace("\r\n", "\n")] *)
Fixpoint replace_crlf (text : pystr) : pystr :=
  match text with
  | [] => []
  | c :: rest =>
      match rest with
      | d :: rest' =>
          if (c =? 13)%N && (d =? 10)%N then 10%N :: replace_crlf rest'
          else c :: replace_crlf rest
      | [] => [c]
      end
  end.

(** [text.replace("\r", "\n")] *)
Definition replace_cr (text : pystr) : pystr :=
  (λ c, if (c =? 13)%N then 10%N else c) <$> text.

(** What [re.sub] puts for a maximal run of characters of the class: the
    replacement when the run has at least [least] characters, the run
    itself otherwise. *)
Definition flush (least : nat) (repl run : pystr) : pystr :=
  if decide (least ≤ length run)%nat then repl else run.

(** [re.sub(pattern, repl, text)] for a pattern [[class]{least,}] with
    [least >= 1]: every maximal run of at least [least] characters of the
    class becomes [repl].  [run] is the run read so far. *)
Fixpoint sub_runs (class : N → bool) (least : nat) (repl run text : pystr) : pystr :=
  match text with
  | [] => flush least repl run
  | c :: rest =>
      if class c then sub_runs class least repl (run ++ [c]) rest
      else flush least repl run ++ c :: sub_runs class least repl [] rest
  end.

(** The class [[\t\f\v]]. *)
Definition is_tab_ff_vt (c : N) : bool := (c =? 9)%N || (c =? 12)%N || (c =? 11)%N.

(** [text[:stop]], also for a negative [stop]. *)
Definition slice_to (stop : Z) (text : pystr) : pystr :=
  if (0 <=? stop)%Z then take (Z.to_nat stop) text
  else take (length text - Z.to_nat (- stop)) text.

Section Values.

(** Python floats. *)
Variable F : Type.
(** [bool(x)] for a float. *)
Variable float_nonzero : F → bool.
(** [c.isspace()] for a code point. *)
Variable isspace : N → bool.

Inductive jval :=
| JNone
| JBool (b : bool)
| JInt (z : Z)
| JFloat (x : F)
| JStr (s : pystr)
| JList (l : list jval)
| JDict (d : gmap pystr jval).

(** [bool(v)] *)
Definition truthy (v : jval) : bool :=
  match v with
  | JNone => false
  | JBool b => b
  | JInt z => negb (z =? 0)%Z
  | JFloat x => float_nonzero x
  | JStr s => negb (bool_decide (s = []))
  | JList l => negb (bool_decide (l = []))
  | JDict d => negb (bool_decide (d = ∅))
  end.

(** [isinstance(v, str)] *)
Definition is_str (v : jval) : bool :=
  match v with
  | JStr _ => true
  | _ => false
  end.

(** [d.get(key)] *)
Definition get (d : gmap pystr jval) (key : pystr) : jval :=
  match d !! key with
  | Some v => v
  | None => JNone
  end.

Record AvitoMapResult := {
  status : string;
  mapped_avito : option (gmap pystr jval);
  errors : list pystr
}.

(** [text.lstrip()] *)
Fixpoint lstrip (text : pystr) : pystr :=
  match text with
  | [] => []
  | c :: rest => if isspace c then lstrip rest else text
  end.

(** [text.rstrip()] *)
Definition rstrip (text : pystr) : pystr := reverse (lstrip (reverse text)).

(** [text.strip()] *)
Definition strip (text : pystr) : pystr := rstrip (lstrip text).

(** [_clean_text] *)
Definition _clean_text (text : pystr) (max_length : Z) : pystr :=
  let cleaned := replace_cr (replace_crlf text) in
  let cleaned := sub_runs is_tab_ff_vt 1 [32%N] [] cleaned in
  let cleaned := sub_runs (N.eqb 10) 3 [10%N; 10%N] [] cleaned in
  let cleaned := sub_runs (N.eqb 32) 2 [32%N] [] cleaned in
  let cleaned := strip cleaned in
  if (max_length <? Z.of_nat (length cleaned))%Z then rstrip (slice_to max_length cleaned)
  else cleaned.

(** [_validate_required_fields]; [required_fields] lists the fields in the
    order in which the iterable yields them. *)
Definition _validate_required_fields (avito_fields : gmap pystr jval)
    (required_fields : list pystr) : list pystr :=
  let missing := filter (λ field, truthy (get avito_fields field) = false) required_fields in
  if bool_decide (missing = []) then []
  else [lit "Missing required avito_fields: " ++ join (lit ", ") (sorted missing)].

(** [_prepare_photos] *)
Definition _prepare_photos (photo_files : list pystr) : list pystr :=
  filter (λ path, path ≠ []) photo_files.

(** The [str] behind a value the code has checked with [isinstance]. *)
Definition str_of (v : jval) : pystr :=
  match v with
  | JStr s => s
  | _ => []
  end.

(** [map_to_avito] *)
Definition map_to_avito (ai_result : gmap pystr jval) (photo_files : list pystr)
    (required_fields : list pystr) : AvitoMapResult :=
  let title := get ai_result (lit "title") in
  let description := get ai_result (lit "description") in
  let avito_fields :=
    if truthy (get ai_result (lit "avito_fields")) then get ai_result (lit "avito_fields")
    else JDict ∅ in
  match avito_fields with
  | JDict avito_fields =>
      let errors :=
        (if negb (truthy title) || negb (is_str title)
         then [lit "title is required"] else []) ++
        (if negb (truthy description) || negb (is_str description)
         then [lit "description is required"] else []) ++
        _validate_required_fields avito_fields required_fields in
      let photos := _prepare_photos photo_files in
      let errors :=
        errors ++
        (if bool_decide (photos = []) then [lit "At least one photo is required"] else []) in
      if bool_decide (errors = []) then
        let mapped :=
          avito_fields ∪
          <[lit "title" := JStr (_clean_text (str_of title) 100)]>
            (<[lit "description" := JStr (_clean_text (str_of description) 3000)]>
               {[lit "photos" := JList (JStr <$> photos)]}) in
        {| status := "READY_TO_POST"; mapped_avito := Some mapped; errors := [] |}
      else
        {| status := "NEED_ACTION"; mapped_avito := None; errors := errors |}
  | _ =>
      {| status := "NEED_ACTION"; mapped_avito := None;
         errors := [lit "avito_fields must be an object"] |}
  end.

End Values.

Arguments JNone {F}.
Arguments JBool {F} b.
Arguments JInt {F} z.
Arguments JFloat {F} x.
Arguments JStr {F} s.
Arguments JList {F} l.
Arguments JDict {F} d.
Arguments truthy {F}.
Arguments is_str {F}.
Arguments get {F}.
Arguments str_of {F}.
Arguments status {F}.
Arguments mapped_avito {F}.
Arguments errors {F}.
Arguments _validate_required_fields {F}.
Arguments map_to_avito {F}.

(** [DEFAULT_REQUIRED_FIELDS], in the order of the source text; the set
    may yield its elements in any order. *)
Definition DEFAULT_REQUIRED_FIELDS : list pystr :=
  lit <$> ["category"; "brand"; "model"; "price_rub"; "city"; "body_type";
           "drive_type"; "color"; "owners"; "payment_per_month_rub"].

(** The white space of [str.isspace]. *)
Definition unicode_space (c : N) : bool :=
  bool_decide (c ∈ [9; 10; 11; 12; 13; 28; 29; 30; 31; 32; 133; 160; 5760;
                    8192; 8193; 8194; 8195; 8196; 8197; 8198; 8199; 8200;
                    8201; 8202; 8232; 8233; 8239; 8287; 12288]%N).

(** Floats for running the mapper: a float that is an integer. *)
Definition int_float_nonzero (x : Z) : bool := negb (x =? 0)%Z.

End Mapper.

(** ** A listing for running the mapper *)
Module MapperDemo.

(** [{"brand": "Lada", "price_rub": 500000.0, "title": "From the fields"}] *)
Definition fields : gmap Mapper.pystr (Mapper.jval Z) :=
  <[Mapper.lit "brand" := Mapper.JStr (Mapper.lit "Lada")]>
    (<[Mapper.lit "price_rub" := Mapper.JFloat 500000]>
       {[Mapper.lit "title" := Mapper.JStr (Mapper.lit "From the fields")]}).

(** [{"title": "  Lada   Vesta ", "description": "Good\r\n\r\n\r\ncar",
      "avito_fields": fields}] *)
Definition listing : gmap Mapper.pystr (Mapper.jval Z) :=
  <[Mapper.lit "title" := Mapper.JStr (Mapper.lit "  Lada   Vesta ")]>
    (<[Mapper.lit "description" :=
         Mapper.JStr (Mapper.lit "Good" ++ [13; 10; 13; 10; 13; 10]%N ++ Mapper.lit "car")]>
       {[Mapper.lit "avito_fields" := Mapper.JDict fields]}).

Definition photos : list Mapper.pystr := [[]; Mapper.lit "data/b/01.jpg"].

Definition required : list Mapper.pystr := [Mapper.lit "price_rub"; Mapper.lit "brand"].

End MapperDemo.

(** ** Predicates on cleaned text *)

(** Every maximal run of characters of [class] in [text] is shorter than
    [k], where a run of [n] such characters comes just before [text]. *)
Fixpoint runs_below (class : N → bool) (k n : nat) (text : Mapper.pystr) : Prop :=
  match text with
  | [] => (n < k)%nat
  | c :: rest =>
      if class c then runs_below class k (S n) rest
      else (n < k)%nat ∧ runs_below class k 0 rest
  end.

(** The shape [_clean_text] gives a text: no carriage return, tab, form
    feed or vertical tab, at most two line feeds in a row and no two spaces
    in a row. *)
Definition normal (text : Mapper.pystr) : Prop :=
  (13%N ∉ text) ∧
  Forall (λ c, Mapper.is_tab_ff_vt c = false) text ∧
  runs_below (N.eqb 10) 3 0 text ∧
  runs_below (N.eqb 32) 2 0 text.

(** [text] neither begins nor ends with white space. *)
Definition stripped (isspace : N → bool) (text : Mapper.pystr) : Prop :=
  Mapper.lstrip isspace text = text ∧ Mapper.rstrip isspace text = text.

(** The dict [map_to_avito] takes for [avito_fields]: the value under that
    key when it is a dict, the empty dict when the value is falsy. *)
Definition fields_read {F} (float_nonzero : F → bool)
    (ai_result avito_fields : gmap Mapper.pystr (Mapper.jval F)) : Prop :=
  Mapper.get ai_result (Mapper.lit "avito_fields") = Mapper.JDict avito_fields ∨
  (Mapper.truthy float_nonzero (Mapper.get ai_result (Mapper.lit "avito_fields")) = false ∧
   avito_fields = ∅).

(** [v] is a [str] that is not empty. *)
Definition nonempty_str {F} (v : Mapper.jval F) : Prop :=
  ∃ s, v = Mapper.JStr s ∧ s ≠ [].

(** ** The photo importer (src/app/photo_importer.py)

    The batch is what [json.loads] made of the answer of the API: any JSON
    value, and so are the elements of its ["photos"] list and the values
    under the keys of a photo.  The HTTP request, the download and the check
    of the file are callables on the outside world; [os.path.splitext] and
    [os.path.join], which depend on the platform, are parameters.  The texts
    of the exceptions that the interpreter raises are those of CPython
    3.11. *)
Module Importer.

(** The value of a float: an integer ([2.0]), an integer plus a proper
    fraction [num/den] ([2.5] is [Part 2 1 2]), an infinity, or the one
    [NaN] object that [json.loads] returns for every [NaN] it reads. *)
Inductive FloatValue :=
| Whole (z : Z)
| Part (floor : Z) (num den : positive)
| Inf (negative : bool)
| NaN.

(** A value made by [json.loads].  Of a float the importer may need the
    value and the text [str] gives for it, of a list the elements and the
    text, of a dict that is the value of a key the text only. *)
Inductive Json :=
| JNull
| JBool (b : bool)
| JInt (z : Z)
| JFloat (value : FloatValue) (text : string)
| JStr (s : string)
| JArray (items : list Json) (text : string)
| JObject (text : string).

(** [type(v).__name__] *)
Definition type_name (v : Json) : string :=
  match v with
  | JNull => "NoneType"
  | JBool _ => "bool"
  | JInt _ => "int"
  | JFloat _ _ => "float"
  | JStr _ => "str"
  | JArray _ _ => "list"
  | JObject _ => "dict"
  end.

(** [str(v)] *)
Definition py_str (v : Json) : string :=
  match v with
  | JNull => "None"
  | JBool b => if b then "True" else "False"
  | JInt z => pretty z
  | JFloat _ text => text
  | JStr s => s
  | JArray _ text => text
  | JObject text => text
  end.

(** The numbers other than [NaN], as points of the extended line: a bool
    counts as 0 or 1, and an int and a float are compared by value. *)
Inductive Number :=
| MinusInf
| Finite (floor : Z) (frac : option (positive * positive))
| PlusInf.

Definition number_of (v : Json) : option Number :=
  match v with
  | JBool b => Some (Finite (if b then 1 else 0) None)
  | JInt z => Some (Finite z None)
  | JFloat (Whole z) _ => Some (Finite z None)
  | JFloat (Part floor num den) _ => Some (Finite floor (Some (num, den)))
  | JFloat (Inf negative) _ => Some (if negative then MinusInf else PlusInf)
  | _ => None
  end.

Definition compare_frac (f g : option (positive * positive)) : comparison :=
  match f, g with
  | None, None => Eq
  | None, Some _ => Lt
  | Some _, None => Gt
  | Some (n1, d1), Some (n2, d2) => Pos.compare (n1 * d2) (n2 * d1)
  end.

Definition compare_number (x y : Number) : comparison :=
  match x, y with
  | MinusInf, MinusInf => Eq
  | MinusInf, _ => Lt
  | _, MinusInf => Gt
  | PlusInf, PlusInf => Eq
  | PlusInf, _ => Gt
  | _, PlusInf => Lt
  | Finite z f, Finite z' f' =>
      match Z.compare z z' with
      | Eq => compare_frac f f'
      | c => c
      end
  end.

(** The integer that [v] equals ([v == k]), if there is one: [True == 1]
    and [2.0 == 2]. *)
Definition as_int (v : Json) : option Z :=
  match number_of v with
  | Some (Finite z None) => Some z
  | _ => None
  end.

(** [a < b] where Python defines it: between numbers (false when one is
    [NaN]) and between strings (by code points, which is the order of the
    bytes of UTF-8). *)
Definition py_lt (a b : Json) : bool :=
  match number_of a, number_of b with
  | Some x, Some y =>
      match compare_number x y with
      | Lt => true
      | _ => false
      end
  | _, _ =>
      match a, b with
      | JStr s, JStr t => String.ltb s t
      | _, _ => false
      end
  end.

(** [a is b or a == b], which is how a set tells its elements apart. *)
Definition same_key (a b : Json) : bool :=
  match number_of a, number_of b with
  | Some x, Some y =>
      match compare_number x y with
      | Eq => true
      | _ => false
      end
  | _, _ =>
      match a, b with
      | JFloat NaN _, JFloat NaN _ => true
      | JStr s, JStr t => String.eqb s t
      | JNull, JNull => true
      | _, _ => false
      end
  end.

Definition hashable (v : Json) : bool :=
  match v with
  | JArray _ _ | JObject _ => false
  | _ => true
  end.

(** The elements of [set(keys)], for hashable keys. *)
Fixpoint distinct (keys : list Json) : list Json :=
  match keys with
  | [] => []
  | key :: rest => if existsb (same_key key) rest then distinct rest else key :: distinct rest
  end.

(** [len(set(keys))]: [set] raises at the first key that is a list or a
    dict. *)
Definition count_distinct (keys : list Json) : Res nat :=
  match List.find (λ key, negb (hashable key)) keys with
  | Some key => Raise ("unhashable type: '" +:+ type_name key +:+ "'")
  | None => Return (length (distinct keys))
  end.

Definition is_number (v : Json) : bool :=
  match v with
  | JBool _ | JInt _ | JFloat _ _ => true
  | _ => false
  end.

Definition is_str (v : Json) : bool :=
  match v with
  | JStr _ => true
  | _ => false
  end.

(** Whether [sorted] can order hashable keys: it compares nothing when
    there are fewer than two, and otherwise compares every key with some
    other key, which raises unless all are numbers or all are strings. *)
Definition comparable (keys : list Json) : bool :=
  match keys with
  | [] | [_] => true
  | _ => forallb is_number keys || forallb is_str keys
  end.

(** [not (b < a)]: [sorted] keeps [a] before [b]. *)
Definition key_le (a b : Json) : Prop := py_lt b a = false.

#[export] Instance key_le_dec a b : Decision (key_le a b).
Proof. unfold key_le. apply _. Defined.

Definition is_dict (v : Json) : bool :=
  match v with
  | JObject _ => true
  | _ => false
  end.

(** What [json.loads] made where the importer expects a dict: a dict, read
    through the keys the importer uses, or a value of another type. *)
Inductive Loaded (A : Type) :=
| ADict (a : A)
| NotADict (v : Json) (other : is_dict v = false).

Arguments ADict {A}.
Arguments NotADict {A}.

(** A photo of the batch that is a dict: the values under the three keys
    the importer reads, [None] for an absent key. *)
Record Photo := {
  index : option Json;
  url : option Json;
  type : option Json
}.

(** What the batch has under ["photos"]. *)
Inductive PhotosField :=
| NoPhotos
| NotAList
| PhotoList (photos : list (Loaded Photo)).

(** The batch: the results of [batch.get("status")] and of looking up
    ["photos"]. *)
Record Batch := {
  get_status : option Json;
  get_photos : PhotosField
}.

(** [batch.get("status") == "ready"] *)
Definition is_ready (batch : Batch) : bool :=
  match get_status batch with
  | Some (JStr s) => String.eqb s "ready"
  | _ => false
  end.

Record PhotoImportResult := {
  batch_id : string;
  status : string;
  photo_files : list string;
  photo_urls : list string
}.

(** [photo["index"]] and [photo["url"]], read after the check that the keys
    are there. *)
Definition index_of (photo : Photo) : Json :=
  match index photo with
  | Some v => v
  | None => JNull
  end.

Definition url_of (photo : Photo) : Json :=
  match url photo with
  | Some v => v
  | None => JNull
  end.

(** [photo.get("type", "photo")] *)
Definition type_of (photo : Photo) : Json :=
  match type photo with
  | Some v => v
  | None => JStr "photo"
  end.

(** The photos lacking ["index"] or ["url"]. *)
Definition incomplete (photo : Photo) : bool :=
  match index photo, url photo with
  | Some _, Some _ => false
  | _, _ => true
  end.

(** [needle in s] for two strings *)
Fixpoint contains (needle s : string) : bool :=
  String.prefix needle s ||
  match s with
  | EmptyString => false
  | String _ rest => contains needle rest
  end.

(** [key == v] for a string [key] *)
Definition is_the_str (key : string) (v : Json) : bool :=
  match v with
  | JStr s => String.eqb key s
  | _ => false
  end.

(** ["index" not in photo or "url" not in photo]: a string is searched for
    the two words, a list for the two strings, and a value of another type
    has no [in]. *)
Definition lacks_keys (photo : Loaded Photo) : Res bool :=
  match photo with
  | ADict photo => Return (incomplete photo)
  | NotADict (JStr s) _ => Return (negb (contains "index" s) || negb (contains "url" s))
  | NotADict (JArray items _) _ =>
      Return (negb (existsb (is_the_str "index") items)
              || negb (existsb (is_the_str "url") items))
  | NotADict v _ => Raise ("argument of type '" +:+ type_name v +:+ "' is not iterable")
  end.

(** The loop of lines 54-56. *)
Fixpoint check_photos (photos : list (Loaded Photo)) : Res unit :=
  match photos with
  | [] => Return tt
  | photo :: rest =>
      match lacks_keys photo with
      | Raise exc => Raise exc
      | Return true => Raise "Each photo must include index and url"
      | Return false => check_photos rest
      end
  end.

(** [photo["index"]] for any element of the list *)
Definition subscript_index (photo : Loaded Photo) : Res Json :=
  match photo with
  | ADict photo => Return (index_of photo)
  | NotADict (JStr _) _ => Raise "string indices must be integers, not 'str'"
  | NotADict (JArray _ _) _ => Raise "list indices must be integers or slices, not str"
  | NotADict v _ => Raise ("'" +:+ type_name v +:+ "' object is not subscriptable")
  end.

(** [[photo["index"] for photo in photos]] *)
Fixpoint read_indices (photos : list (Loaded Photo)) : Res (list Json) :=
  match photos with
  | [] => Return []
  | photo :: rest =>
      match subscript_index photo with
      | Raise exc => Raise exc
      | Return v =>
          match read_indices rest with
          | Raise exc => Raise exc
          | Return indices => Return (v :: indices)
          end
      end
  end.

(** The dicts among the elements of the list. *)
Definition dicts (photos : list (Loaded Photo)) : list Photo :=
  omap (λ photo,
          match photo with
          | ADict photo => Some photo
          | NotADict _ _ => None
          end) photos.

(** The order of the keys [item["index"]]. *)
Definition index_le (p q : Photo) : Prop := key_le (index_of p) (index_of q).

#[export] Instance index_le_dec p q : Decision (index_le p q).
Proof. unfold index_le. apply _. Defined.

Section SortedPhotos.

(** [str(exc)] for the [TypeError] of [sorted] on keys it cannot compare:
    the text names the types of the two keys that [list.sort] compared
    first, which depends on its merge strategy. *)
Variable sort_error : list Json → string.

(** [sorted(keys)] for hashable keys.  With a [NaN] among the keys the
    order [list.sort] leaves depends on its merge strategy; the one use of
    such a list compares it with [range(1, n + 1)], which no arrangement of
    it equals. *)
Definition sorted_keys (keys : list Json) : Res (list Json) :=
  if comparable keys then Return (merge_sort key_le keys)
  else Raise (sort_error keys).

(** [sorted(photos, key=lambda item: item["index"])]; it is called on
    dicts whose indices are distinct. *)
Definition sort_by_index (photos : list Photo) : Res (list Photo) :=
  if comparable (index_of <$> photos) then Return (merge_sort index_le photos)
  else Raise (sort_error (index_of <$> photos)).

(** [_sorted_photos], for a batch that is a dict.  Once the indices are
    read every element of the list is a dict, so that the list it sorts at
    the end is [dicts photos]. *)
Definition _sorted_photos (batch : Batch) : Res (list Photo) :=
  match get_photos batch with
  | NotAList => Raise "Batch photos must be a list"
  | (NoPhotos | PhotoList _) as field =>
      let photos :=
        match field with
        | PhotoList photos => photos
        | _ => []
        end in
      match check_photos photos with
      | Raise exc => Raise exc
      | Return _ =>
          match read_indices photos with
          | Raise exc => Raise exc
          | Return indices =>
              match count_distinct indices with
              | Raise exc => Raise exc
              | Return count =>
                  if negb (length indices =? count)%nat then
                    Raise "Photo indices must be unique"
                  else
                    match sorted_keys indices with
                    | Raise exc => Raise exc
                    | Return ordered =>
                        if bool_decide (as_int <$> ordered
                                        ≠ Some <$> seqZ 1 (Z.of_nat (length indices))) then
                          Raise "Photo indices must be consecutive starting from 1"
                        else sort_by_index (dicts photos)
                    end
              end
          end
      end
  end.

End SortedPhotos.

(** [format(i, "02d")] for an int *)
Definition two_digits (i : Z) : string :=
  if (0 <=? i) && (i <? 10) then "0" +:+ pretty i else pretty i.

(** [f"{index:02d}"]: [format(index, "02d")] *)
Definition format_02d (index : Json) : Res string :=
  match index with
  | JInt z => Return (two_digits z)
  | JBool b => Return (if b then "01" else "00")
  | JFloat _ _ => Raise "Unknown format code 'd' for object of type 'float'"
  | JStr _ => Raise "Unknown format code 'd' for object of type 'str'"
  | JNull => Raise "unsupported format string passed to NoneType.__format__"
  | JArray _ _ => Raise "unsupported format string passed to list.__format__"
  | JObject _ => Raise "unsupported format string passed to dict.__format__"
  end.

(** [s.rstrip("/")] *)
Fixpoint rstrip_slash (s : string) : string :=
  match s with
  | EmptyString => EmptyString
  | String c rest =>
      match rstrip_slash rest with
      | EmptyString => if Ascii.eqb c "/" then EmptyString else String c EmptyString
      | kept => String c kept
      end
  end.

Section ImportPhotos.

Variable W : Type.

Variable sort_error : list Json → string.
(** [_api_get_json(url, token)] *)
Variable _api_get_json : string → string → W → Res (Loaded Batch) * W.
(** [_download_file(url, output_path)] *)
Variable _download_file : string → string → W → Res unit * W.
(** [_validate_photo(path)] *)
Variable _validate_photo : string → W → Res unit * W.
(** [os.path.splitext(path)[1]] for a [str] *)
Variable splitext_ext : string → string.
(** [os.path.join(a, b, c)] *)
Variable path_join : string → string → string → string.

(** [fetch_batch] *)
Definition fetch_batch (bid api_base_url token : string) (w : W)
  : Res (Loaded Batch) * W :=
  _api_get_json (rstrip_slash api_base_url +:+ "/batches/" +:+ bid) token w.

(** [os.path.splitext(url)[1] or ".jpg"]: [splitext] takes a [str] (or
    bytes or a path object, which [json.loads] does not make). *)
Definition extension_of (url : Json) : Res string :=
  match url with
  | JStr s =>
      Return (if String.eqb (splitext_ext s) "" then ".jpg" else splitext_ext s)
  | v => Raise ("expected str, bytes or os.PathLike object, not " +:+ type_name v)
  end.

(** Lines 108-112: the url of a photo and the path it is stored under.
    The url is a [str] once [splitext] has taken it. *)
Definition photo_target (bid output_dir : string) (photo : Photo) : Res (string * string) :=
  match extension_of (url_of photo) with
  | Raise exc => Raise exc
  | Return extension =>
      match format_02d (index_of photo) with
      | Raise exc => Raise exc
      | Return digits =>
          let filename := digits +:+ "_" +:+ py_str (type_of photo) +:+ extension in
          Return (py_str (url_of photo), path_join output_dir bid filename)
      end
  end.

(** The loop of [import_photos]: the files and urls appended so far are
    [files] and [urls]. *)
Fixpoint import_loop (bid output_dir : string) (photos : list Photo)
    (files urls : list string) (w : W) : Res (list string * list string) * W :=
  match photos with
  | [] => (Return (files, urls), w)
  | photo :: rest =>
      match photo_target bid output_dir photo with
      | Raise exc => (Raise exc, w)
      | Return (url, path) =>
          match _download_file url path w with
          | (Raise exc, w) => (Raise exc, w)
          | (Return _, w) =>
              match _validate_photo path w with
              | (Raise exc, w) => (Raise exc, w)
              | (Return _, w) =>
                  import_loop bid output_dir rest (files ++ [path]) (urls ++ [url]) w
              end
          end
      end
  end.

(** [import_photos] *)
Definition import_photos (bid api_base_url token output_dir : string) (w : W)
  : Res PhotoImportResult * W :=
  match fetch_batch bid api_base_url token w with
  | (Raise exc, w) => (Raise exc, w)
  | (Return (NotADict v _), w) =>
      (Raise ("'" +:+ type_name v +:+ "' object has no attribute 'get'"), w)
  | (Return (ADict batch), w) =>
      if negb (is_ready batch) then
        (Raise ("Batch " +:+ bid +:+ " is not ready"), w)
      else
        match _sorted_photos sort_error batch with
        | Raise exc => (Raise exc, w)
        | Return photos =>
            match import_loop bid output_dir photos [] [] w with
            | (Raise exc, w) => (Raise exc, w)
            | (Return (files, urls), w) =>
                (Return {| batch_id := bid; status := "PHOTOS_READY";
                           photo_files := files; photo_urls := urls |}, w)
            end
        end
  end.

End ImportPhotos.

Arguments fetch_batch {W}.
Arguments import_loop {W}.
Arguments import_photos {W}.

(** A batch source for running the importer: the world counts the files
    written; the server knows the batches ["b7"], ["b8"] and ["b9"] and
    answers [[]] for ["b6"]; the photo of the url ["https://cdn/broken.png"]
    cannot be downloaded. *)
Definition demo_batch : Batch :=
  {| get_status := Some (JStr "ready");
     get_photos :=
       PhotoList
         (ADict <$>
         [ {| index := Some (JInt 2); url := Some (JStr "https://cdn/side.png");
              type := Some (JStr "side") |};
           {| index := Some (JBool true); url := Some (JStr "https://cdn/front");
              type := None |};
           {| index := Some (JInt 3); url := Some (JStr "https://cdn/rear.png");
              type := Some JNull |} ]) |}.

(** A batch whose second photo has the index [2.0]. *)
Definition float_batch : Batch :=
  {| get_status := Some (JStr "ready");
     get_photos :=
       PhotoList
         (ADict <$>
         [ {| index := Some (JInt 1); url := Some (JStr "https://cdn/front");
              type := None |};
           {| index := Some (JFloat (Whole 2) "2.0");
              url := Some (JStr "https://cdn/side.png"); type := None |} ]) |}.

Definition broken_batch : Batch :=
  {| get_status := Some (JStr "ready");
     get_photos :=
       PhotoList
         (ADict <$>
         [ {| index := Some (JInt 1); url := Some (JStr "https://cdn/front");
              type := None |};
           {| index := Some (JInt 2); url := Some (JStr "https://cdn/broken.png");
              type := None |};
           {| index := Some (JInt 3); url := Some (JStr "https://cdn/side.png");
              type := None |} ]) |}.

Definition demo_api (url token : string) (w : nat) : Res (Loaded Batch) * nat :=
  if String.eqb url "https://api/batches/b7" then (Return (ADict demo_batch), w)
  else if String.eqb url "https://api/batches/b8" then (Return (ADict float_batch), w)
  else if String.eqb url "https://api/batches/b9" then (Return (ADict broken_batch), w)
  else if String.eqb url "https://api/batches/b6" then (Return (NotADict (JArray [] "[]") eq_refl), w)
  else (Raise "API request failed: 404 Not Found", w).

Definition demo_download (url path : string) (w : nat) : Res unit * nat :=
  if String.eqb url "https://cdn/broken.png" then
    (Raise "Failed to download photo: 503 Service Unavailable", w)
  else (Return tt, S w).

Definition demo_validate (path : string) (w : nat) : Res unit * nat := (Return tt, w).

(** Stand-ins for [os.path.splitext] and [os.path.join] on the urls and
    paths of the demo, and for the text of the [TypeError] of [sorted]. *)
Definition demo_ext (path : string) : string :=
  if String.eqb path "https://cdn/side.png" then ".png"
  else if String.eqb path "https://cdn/rear.png" then ".png"
  else "".

Definition demo_join (a b c : string) : string := a +:+ "/" +:+ b +:+ "/" +:+ c.

Definition demo_sort_error (keys : list Json) : string :=
  "'<' not supported between instances of 'str' and 'int'".

(** [import_photos(bid, "https://api/", "token", "/data")] before any file
    is written. *)
Definition demo_import (bid : string) : Res PhotoImportResult * nat :=
  import_photos demo_sort_error demo_api demo_download demo_validate demo_ext demo_join
    bid "https://api/" "token" "/data" 0%nat.

End Importer.

(** The list [_sorted_photos] works on, [batch.get("photos", [])], and the
    dicts among its elements. *)
Definition items_of (batch : Importer.Batch) : list (Importer.Loaded Importer.Photo) :=
  match Importer.get_photos batch with
  | Importer.PhotoList photos => photos
  | _ => []
  end.

Definition photos_of (batch : Importer.Batch) : list Importer.Photo :=
  Importer.dicts (items_of batch).

(** [v] is the integer [k] as [f"{v:02d}"] takes it: the int [k], or [True]
    for 1. *)
Definition int_index (v : Importer.Json) (k : Z) : Prop :=
  v = Importer.JInt k ∨ (v = Importer.JBool true ∧ k = 1).

(** ** Lemmas *)

Lemma status_is_true x s : status_is x s = true ↔ x = Some s.
Proof.
  destruct x as [t|]; simpl; [|split; discriminate].
  rewrite String.eqb_eq. split; congruence.
Qed.

Lemma status_is_false x s : status_is x s = false ↔ x ≠ Some s.
Proof.
  rewrite <-status_is_true. destruct (status_is x s); split; congruence.
Qed.


Section Chain.

Context {W : Type} (clk : Clock W) (sch : FlowScheduler W).


Ltac stage_cases :=
  unfold chain_post, on_exception, add_history, log;
  repeat case_match; simplify_eq/=.

Ltac settle :=
  split; try done;
  first [ by eapply settled_posted
        | by eapply settled_need_action
        | by eapply settled_failed ].

Lemma post_stage_post card st w : chain_post card st (post_stage clk sch card st w).
Proof. unfold post_stage. stage_cases; settle. Qed.

Lemma chain_post_same_identity card1 card2 st (r : Chain W) :
  card_id card1 = card_id card2 →
  batch_id card1 = batch_id card2 →
  template_id card1 = template_id card2 →
  chain_post card1 st r → chain_post card2 st r.
Proof. intros E1 E2 E3 []. split; congruence. Qed.

Lemma map_stage_post card st w : chain_post card st (map_stage clk sch card st w).
Proof.
  unfold map_stage, log.
  destruct (utc_now clk w) as [timestamp w0].
  destruct (mapper _ _ _ _) as [[mapped_response|msg] w1].
  - destruct (status_is _ _).
    + stage_cases; settle.
    + eapply chain_post_same_identity; [..|apply post_stage_post]; done.
  - stage_cases; settle.
Qed.

Lemma ai_stage_post card st w : chain_post card st (ai_stage clk sch card st w).
Proof.
  unfold ai_stage, log.
  destruct (utc_now clk w) as [timestamp w0].
  destruct (ai_client _ _ _ _) as [[ai_response|msg] w1].
  - destruct (status_is _ _).
    + stage_cases; settle.
    + eapply chain_post_same_identity; [..|apply map_stage_post]; done.
  - stage_cases; settle.
Qed.

Lemma chain_body_post card st w : chain_post card st (chain_body clk sch card st w).
Proof.
  unfold chain_body, log.
  destruct (utc_now clk w) as [timestamp w0].
  destruct (import_photos _ _ _) as [[photo_result|msg] w1].
  - eapply chain_post_same_identity; [..|apply ai_stage_post]; done.
  - stage_cases; settle.
Qed.

Lemma run_chain_framed card st w card' st' w' :
  _run_chain clk sch card st w = (card', st', w') →
  framed card st card' st'.
Proof.
  intros E. pose proof (chain_body_post card st w) as H.
  unfold chain_post in H. fold (_run_chain clk sch card st w) in H.
  by rewrite E in H.
Qed.

End Chain.

(** *** Card ids *)


Lemma pretty_N_go_free_of x s :
  free_of "_" s → free_of "_" (pretty_N_go x s).
Proof.
  revert s. induction (N.lt_wf_0 x) as [x _ IH]; intros s Hs.
  assert (x = 0 ∨ 0 < x)%N as [->|Hpos] by lia.
  - by rewrite pretty_N_go_0.
  - rewrite pretty_N_go_step by done. apply IH; [by apply N.div_lt|].
    split; [|done]. unfold pretty_N_char. by repeat case_match.
Qed.

Lemma pretty_Z_free_of (z : Z) : free_of "_" (pretty z).
Proof.
  assert (∀ p : positive, free_of "_" (pretty p)) as Hpos.
  { intros p. unfold pretty, pretty_positive, pretty, pretty_N.
    case_decide; [done|]. by apply pretty_N_go_free_of. }
  destruct z as [|p|p]; unfold pretty, pretty_Z; [done|apply Hpos|].
  split; [done|apply Hpos].
Qed.

Lemma append_inv_head (p s t : string) : p +:+ s = p +:+ t → s = t.
Proof. induction p as [|a p IH]; simpl; [done|]. intros [= E]. auto. Qed.

Lemma split_at_separator (c : ascii) (s t s' t' : string) :
  free_of c s → free_of c s' →
  s +:+ String c t = s' +:+ String c t' → s = s' ∧ t = t'.
Proof.
  revert s'. induction s as [|a s IH]; intros [|a' s']; simpl.
  - intros _ _ [= ->]. done.
  - intros _ [Ha' _] [= <- _]. done.
  - intros [Ha _] _ [= -> _]. done.
  - intros [_ Hs] [_ Hs'] [= -> E]. destruct (IH _ Hs Hs' E) as [-> ->]. done.
Qed.

Section Cycle.

Context {W : Type} (clk : Clock W) (sch : FlowScheduler W).

(** Two ids built by [_now_id] with one prefix agree only if they were
    built from the same clock reading and the same index. *)
Lemma now_id_inj prefix i j w w' :
  (_now_id clk prefix i w).1 = (_now_id clk prefix j w').1 →
  (unix_time clk w).1 = (unix_time clk w').1 ∧ i = j.
Proof.
  unfold _now_id.
  destruct (unix_time clk w) as [t w0], (unix_time clk w') as [t' w0']; simpl.
  intros E. apply append_inv_head in E.
  change ("_" +:+ ?x) with (String "_" x) in E. injection E as E.
  apply split_at_separator in E as [Et Ei]; [|apply pretty_Z_free_of..].
  split; by eapply (inj pretty).
Qed.

Lemma settled_frame st1 st2 card st1' st2' :
  need_action st2 = need_action st1 → history st2 = history st1 →
  need_action st2' = need_action st1' → history st2' = history st1' →
  settled st1 card st1' → settled st2 card st2'.
Proof.
  intros E1 E2 E3 E4 [ts ? ? ?|reason ? ? ?|? ? ?].
  - apply (settled_posted _ _ _ ts); congruence.
  - apply (settled_need_action _ _ _ reason); congruence.
  - apply settled_failed; congruence.
Qed.

Lemma run_batch_spec st index bid w card st' w' :
  run_batch clk sch st index bid w = (card, st', w') →
  batch_id card = bid ∧
  template_id card = "sale" ∧
  card_id card = (_now_id clk "card" index w).1 ∧
  cards st' = <[card_id card := card]> (cards st) ∧
  processed_batches st' = {[bid]} ∪ processed_batches st ∧
  settled st card st'.
Proof.
  unfold run_batch, _ensure_card.
  destruct (_now_id clk "card" index w) as [cid w0].
  destruct (log _ _ _ _) as [card0 w1] eqn:Hlog.
  destruct (_run_chain _ _ _ _ _) as [[card1 st1] w2] eqn:Hrun.
  intros [= <- <- <-].
  unfold log in Hlog. destruct (utc_now clk w0) as [timestamp w0']. simplify_eq/=.
  apply run_chain_framed in Hrun as [Hid Hbid Htid Hcards Hproc Hset]; simpl in *.
  repeat split; try done.
  - rewrite Hcards, Hid; simpl. by rewrite insert_insert_eq.
  - by rewrite Hproc.
  - by eapply settled_frame; [..|exact Hset].
Qed.

Lemma run_loop_cons index bid rest st w created st' w' :
  run_loop clk sch index (bid :: rest) st w = (created, st', w') →
  ∃ card st1 w1 created1,
    run_batch clk sch st index bid w = (card, st1, w1) ∧
    run_loop clk sch (index + 1) rest st1 w1 = (created1, st', w') ∧
    created = card :: created1.
Proof.
  simpl. destruct (run_batch _ _ _ _ _ _) as [[card st1] w1].
  destruct (run_loop _ _ _ _ _ _) as [[created1 st2] w2] eqn:Hl.
  intros ?; simplify_eq. by exists card, st1, w1, created1.
Qed.

(** The loop creates one card per element of the list, in order, and
    marks every element as processed. *)
Lemma run_loop_admission bs : ∀ index st w created st' w',
  run_loop clk sch index bs st w = (created, st', w') →
  batch_id <$> created = bs ∧
  processed_batches st' = list_to_set bs ∪ processed_batches st.
Proof.
  induction bs as [|bid rest IH]; intros index st w created st' w' E.
  - simpl in E. simplify_eq. split; [done|].
    by rewrite list_to_set_nil, (left_id_L ∅ (∪)).
  - apply run_loop_cons in E as (card & st1 & w1 & created1 & Hb & Hl & ->).
    apply run_batch_spec in Hb as (Hbid & _ & _ & _ & Hproc & _).
    apply IH in Hl as [Hmap Hproc']. split.
    + by rewrite fmap_cons, Hbid, Hmap.
    + rewrite Hproc', Hproc, list_to_set_cons.
      by rewrite (assoc_L (∪)), (comm_L (∪) (list_to_set rest)).
Qed.

(** The history grows by one record per card that ended [POSTED], in the
    order in which the cards were created; nothing else is written. *)
Lemma run_loop_history bs : ∀ index st w created st' w',
  run_loop clk sch index bs st w = (created, st', w') →
  ∃ recs,
    history st' = history st ++ recs ∧
    Forall2 (λ card r, ∃ timestamp, r = record_of card timestamp)
      (filter (λ card, status card = "POSTED") created) recs.
Proof.
  induction bs as [|bid rest IH]; intros index st w created st' w' E.
  - simpl in E. simplify_eq. exists []. by rewrite app_nil_r.
  - apply run_loop_cons in E as (card & st1 & w1 & created1 & Hb & Hl & ->).
    apply run_batch_spec in Hb as (_ & _ & _ & _ & _ & Hset).
    apply IH in Hl as (recs & Hh & Hrecs).
    destruct Hset as [ts Hs _ Hh1|reason Hs _ Hh1|Hs _ Hh1].
    + exists (record_of card ts :: recs). split.
      * by rewrite Hh, Hh1, <-app_assoc.
      * rewrite filter_cons_True by done. constructor; [by exists ts|done].
    + exists recs. split; [congruence|].
      rewrite filter_cons_False; [done|]. by rewrite Hs.
    + exists recs. split; [congruence|].
      rewrite filter_cons_False; [done|]. by rewrite Hs.
Qed.

(** The queue grows by one entry per card that ended [NEED_ACTION]. *)
Lemma run_loop_need_action bs : ∀ index st w created st' w',
  run_loop clk sch index bs st w = (created, st', w') →
  ∃ items,
    need_action st' = need_action st ++ items ∧
    Forall2 (λ card item, ∃ reason, item = item_of card reason)
      (filter (λ card, status card = "NEED_ACTION") created) items.
Proof.
  induction bs as [|bid rest IH]; intros index st w created st' w' E.
  - simpl in E. simplify_eq. exists []. by rewrite app_nil_r.
  - apply run_loop_cons in E as (card & st1 & w1 & created1 & Hb & Hl & ->).
    apply run_batch_spec in Hb as (_ & _ & _ & _ & _ & Hset).
    apply IH in Hl as (items & Hq & Hitems).
    destruct Hset as [ts Hs Hq1 _|reason Hs Hq1 _|Hs Hq1 _].
    + exists items. split; [congruence|].
      rewrite filter_cons_False; [done|]. by rewrite Hs.
    + exists (item_of card reason :: items). split.
      * by rewrite Hq, Hq1, <-app_assoc.
      * rewrite filter_cons_True by done. constructor; [by exists reason|done].
    + exists items. split; [congruence|].
      rewrite filter_cons_False; [done|]. by rewrite Hs.
Qed.

(** The [k]-th card of a cycle carries the index [index + k] in its id. *)
Lemma run_loop_ids bs : ∀ index st w created st' w' k card,
  run_loop clk sch index bs st w = (created, st', w') →
  created !! k = Some card →
  ∃ wk, card_id card = (_now_id clk "card" (index + Z.of_nat k) wk).1.
Proof.
  induction bs as [|bid rest IH]; intros index st w created st' w' k card E Hk.
  - simpl in E. by simplify_eq.
  - apply run_loop_cons in E as (card0 & st1 & w1 & created1 & Hb & Hl & ->).
    destruct k as [|k]; simpl in Hk.
    + simplify_eq. apply run_batch_spec in Hb as (_ & _ & Hid & _).
      exists w. by rewrite Z.add_0_r.
    + destruct (IH _ _ _ _ _ _ _ _ Hl Hk) as [wk Hid]. exists wk.
      rewrite Hid. f_equal. f_equal. lia.
Qed.

(** Within one cycle no two cards share an id. *)
Lemma run_loop_ids_NoDup index bs st w created st' w' :
  run_loop clk sch index bs st w = (created, st', w') →
  NoDup (card_id <$> created).
Proof.
  intros E. apply NoDup_alt. intros i j cid Hi Hj.
  rewrite list_lookup_fmap in Hi, Hj.
  destruct (created !! i) as [ci|] eqn:Ei; [|done].
  destruct (created !! j) as [cj|] eqn:Ej; [|done].
  simpl in *. simplify_eq.
  destruct (run_loop_ids _ _ _ _ _ _ _ _ _ E Ei) as [wi Hci].
  destruct (run_loop_ids _ _ _ _ _ _ _ _ _ E Ej) as [wj Hcj].
  rewrite Hci, Hcj in Hi. apply now_id_inj in Hi as [_ Hi]. lia.
Qed.

(** The cards of a cycle are stored under their ids; other entries of
    [cards] stay as they were. *)
Lemma run_loop_cards bs : ∀ index st w created st' w',
  run_loop clk sch index bs st w = (created, st', w') →
  (∀ card, card ∈ created → cards st' !! card_id card = Some card) ∧
  (∀ cid, cid ∉ card_id <$> created → cards st' !! cid = cards st !! cid).
Proof.
  induction bs as [|bid rest IH]; intros index st w created st' w' E.
  - simpl in E. simplify_eq. split; [by intros ? ?%elem_of_nil|done].
  - pose proof (run_loop_ids_NoDup _ _ _ _ _ _ _ E) as Hnd.
    apply run_loop_cons in E as (card0 & st1 & w1 & created1 & Hb & Hl & ->).
    apply run_batch_spec in Hb as (_ & _ & _ & Hcards & _).
    apply IH in Hl as [Hin Hout].
    rewrite fmap_cons in Hnd. apply NoDup_cons in Hnd as [Hfresh _].
    split.
    + intros card [->|Hc]%elem_of_cons; [|by apply Hin].
      rewrite Hout by done. rewrite Hcards. apply lookup_insert_eq.
    + intros cid Hcid. rewrite fmap_cons in Hcid.
      apply not_elem_of_cons in Hcid as [Hne Hcid].
      rewrite Hout by done. rewrite Hcards. by apply lookup_insert_ne.
Qed.

(** Every card of a cycle ends in one of the three settled statuses. *)
Lemma run_loop_terminal bs : ∀ index st w created st' w' card,
  run_loop clk sch index bs st w = (created, st', w') →
  card ∈ created →
  status card = "POSTED" ∨ status card = "NEED_ACTION" ∨ status card = "FAILED".
Proof.
  induction bs as [|bid rest IH]; intros index st w created st' w' card E Hc.
  - simpl in E. simplify_eq. by apply elem_of_nil in Hc.
  - apply run_loop_cons in E as (card0 & st1 & w1 & created1 & Hb & Hl & ->).
    apply elem_of_cons in Hc as [->|Hc]; [|by eapply IH].
    apply run_batch_spec in Hb as (_ & _ & _ & _ & _ & Hset).
    destruct Hset; auto.
Qed.

Lemma new_batches_nil batch_ids st :
  (∀ bid, bid ∈ batch_ids → bid ∈ processed_batches st) →
  new_batches batch_ids st = [].
Proof.
  unfold new_batches. induction batch_ids as [|bid rest IH]; intros H; [done|].
  rewrite filter_cons_False; [apply IH|].
  - intros b Hb. apply H. by right.
  - intros Hn. apply Hn, H. by left.
Qed.

Lemma new_batches_all batch_ids st :
  (∀ bid, bid ∈ batch_ids → bid ∉ processed_batches st) →
  new_batches batch_ids st = batch_ids.
Proof.
  unfold new_batches. induction batch_ids as [|bid rest IH]; intros H; [done|].
  rewrite filter_cons_True; [f_equal; apply IH|].
  - intros b Hb. apply H. by right.
  - apply H. by left.
Qed.

Lemma elem_of_new_batches bid batch_ids st :
  bid ∈ new_batches batch_ids st ↔ (bid ∉ processed_batches st) ∧ (bid ∈ batch_ids).
Proof. unfold new_batches. by rewrite list_elem_of_filter. Qed.

End Cycle.

Section Lifetime.

Context {W : Type} (clk : Clock W) (sch : FlowScheduler W).

Lemma run_once_returns st w batch_ids w0 :
  fetch_batches sch w = (Return batch_ids, w0) →
  ∃ created st' w',
    run_once clk sch st w = (Return created, st', w') ∧
    run_loop clk sch 1 (new_batches batch_ids st) st w0 = (created, st', w').
Proof.
  intros E. unfold run_once. rewrite E.
  destruct (run_loop _ _ _ _ _ _) as [[created st'] w']. by exists created, st', w'.
Qed.

Lemma run_once_raises st w msg w0 :
  fetch_batches sch w = (Raise msg, w0) →
  run_once clk sch st w = (Raise msg, st, w0).
Proof. intros E. unfold run_once. by rewrite E. Qed.

(** Whatever the stage functions do, a cycle whose fetch returns runs to
    its end: it creates one card per new batch, in order, each card ends
    in a settled status and is kept under its id, and every new batch is
    marked as processed. *)
Lemma run_once_completes st w batch_ids w0 :
  fetch_batches sch w = (Return batch_ids, w0) →
  ∃ created st' w',
    run_once clk sch st w = (Return created, st', w') ∧
    batch_id <$> created = new_batches batch_ids st ∧
    (∀ card, card ∈ created →
       cards st' !! card_id card = Some card ∧
       (status card = "POSTED" ∨ status card = "NEED_ACTION" ∨ status card = "FAILED")) ∧
    processed_batches st'
      = list_to_set (new_batches batch_ids st) ∪ processed_batches st.
Proof.
  intros Ef.
  destruct (run_once_returns st _ _ _ Ef) as (created & st' & w' & E & El).
  exists created, st', w'.
  pose proof (run_loop_admission _ _ _ _ _ _ _ _ _ El) as [Hmap Hproc].
  pose proof (run_loop_cards _ _ _ _ _ _ _ _ _ El) as [Hcards _].
  repeat split; try done.
  - by apply Hcards.
  - by eapply run_loop_terminal.
Qed.

(** A cycle creates cards only for batches that were not processed when
    it started, and never forgets a processed batch. *)
Lemma run_once_admits_new st w r st' w' :
  run_once clk sch st w = (r, st', w') →
  (∀ card, card ∈ created_of r → batch_id card ∉ processed_batches st) ∧
  processed_batches st ⊆ processed_batches st'.
Proof.
  destruct (fetch_batches sch w) as [[batch_ids|msg] w0] eqn:Ef.
  - destruct (run_once_returns st _ _ _ Ef) as (created & st1 & w1 & -> & El).
    intros ?; simplify_eq.
    apply run_loop_admission in El as [Hmap Hproc]. split.
    + intros card Hc. unfold created_of in Hc.
      assert (batch_id card ∈ new_batches batch_ids st) as Hb.
      { rewrite <-Hmap. by apply list_elem_of_fmap_2. }
      by apply elem_of_new_batches in Hb as [? _].
    + rewrite Hproc. apply union_subseteq_r.
  - rewrite (run_once_raises st _ _ _ Ef). intros ?; simplify_eq.
    split; [by intros ? ?%elem_of_nil|done].
Qed.

Lemma lifetime_no_readmission st created st' :
  lifetime clk sch st created st' →
  ∀ card, card ∈ created → batch_id card ∉ processed_batches st.
Proof.
  induction 1 as [st|st w r st1 w1 created st2 Hr _ IH|st cid created st2 _ IH];
    intros card Hc.
  - by apply elem_of_nil in Hc.
  - apply run_once_admits_new in Hr as [Hnew Hsub].
    apply elem_of_app in Hc as [Hc|Hc]; [by apply Hnew|].
    intros Hin. by apply (IH card Hc), Hsub.
  - by apply IH.
Qed.

End Lifetime.

Lemma triple_eta {A B C} (x : A * B * C) : x = (x.1.1, x.1.2, x.2).
Proof. by destruct x as [[??]?]. Qed.

Lemma resolve_shortens cid (q : list NeedActionItem.t) :
  (length (filter (λ item, NeedActionItem.card_id item ≠ cid) q) < length q)%nat ↔
  ∃ item, item ∈ q ∧ NeedActionItem.card_id item = cid.
Proof.
  induction q as [|item q IH]; simpl.
  - split; [lia|]. by intros (? & ?%elem_of_nil & _).
  - destruct (decide (NeedActionItem.card_id item = cid)) as [Heq|Hne].
    + rewrite filter_cons_False by (by intros Hn; apply Hn).
      pose proof (length_filter (λ item, NeedActionItem.card_id item ≠ cid) q).
      split; [|lia]. intros _. exists item. split; [by left|done].
    + rewrite filter_cons_True by done. simpl.
      rewrite <-Nat.succ_lt_mono, IH. split.
      * intros (x & Hx & Hc). exists x. split; [by right|done].
      * intros (x & [->|Hx]%elem_of_cons & Hc); [done|by exists x].
Qed.

Lemma resolve_keeps_others cid (q : list NeedActionItem.t) :
  (∀ item, item ∈ q → NeedActionItem.card_id item ≠ cid) →
  filter (λ item, NeedActionItem.card_id item ≠ cid) q = q.
Proof.
  induction q as [|item q IH]; intros H; [done|].
  rewrite filter_cons_True by (apply H; by left).
  f_equal. apply IH. intros x Hx. apply H. by right.
Qed.

Section Stages.

Context {W : Type} (clk : Clock W) (sch : FlowScheduler W).

(** The chain, one stage at a time: a stage that returns without asking
    for manual action hands the card, with its result written and its
    status advanced, to the next stage. *)

Lemma chain_body_import_returns card st w t1 w1 photo_result w2 :
  utc_now clk w = (t1, w1) →
  import_photos sch (batch_id card) w1 = (Return photo_result, w2) →
  chain_body clk sch card st w
  = ai_stage clk sch
      (set_status "PHOTOS_READY"
         (set_photos (get_list (get_photo_files photo_result))
                     (get_list (get_photo_urls photo_result))
            (set_logs (logs card ++ [t1 +:+ " Importing photos"]) card)))
      st w2.
Proof. intros E1 E2. unfold chain_body, log. rewrite E1. simpl. by rewrite E2. Qed.

Lemma ai_stage_advances card st w t w1 ai_response w2 :
  utc_now clk w = (t, w1) →
  ai_client sch (photo_files card) (template_id card) w1 = (Return ai_response, w2) →
  get_status ai_response ≠ Some "NEED_ACTION" →
  ai_stage clk sch card st w
  = map_stage clk sch
      (set_status "AI_READY"
         (set_ai_result (get_ai_result ai_response)
            (set_logs (logs card ++ [t +:+ " Running AI"]) card)))
      st w2.
Proof.
  intros E1 E2 Hs. apply status_is_false in Hs.
  unfold ai_stage, log. rewrite E1. simpl. by rewrite E2, Hs.
Qed.

Lemma map_stage_advances card st w t w1 mapped_response w2 :
  utc_now clk w = (t, w1) →
  mapper sch (or_empty (ai_result card)) (photo_files card) w1
    = (Return mapped_response, w2) →
  get_status mapped_response ≠ Some "NEED_ACTION" →
  map_stage clk sch card st w
  = post_stage clk sch
      (set_status "READY_TO_POST"
         (set_mapped_avito (get_mapped_avito mapped_response)
            (set_logs (logs card ++ [t +:+ " Mapping to Avito"]) card)))
      st w2.
Proof.
  intros E1 E2 Hs. apply status_is_false in Hs.
  unfold map_stage, log. rewrite E1. simpl. by rewrite E2, Hs.
Qed.

(** A stage that raises ends the [try] block there, with the card as the
    earlier stages left it plus the log line of the failing stage. *)

Lemma chain_body_import_raises card st w t1 w1 msg w2 :
  utc_now clk w = (t1, w1) →
  import_photos sch (batch_id card) w1 = (Raise msg, w2) →
  chain_body clk sch card st w
  = (Some msg, set_logs (logs card ++ [t1 +:+ " Importing photos"]) card, st, w2).
Proof. intros E1 E2. unfold chain_body, log. rewrite E1. simpl. by rewrite E2. Qed.

Lemma ai_stage_raises card st w t w1 msg w2 :
  utc_now clk w = (t, w1) →
  ai_client sch (photo_files card) (template_id card) w1 = (Raise msg, w2) →
  ai_stage clk sch card st w
  = (Some msg, set_logs (logs card ++ [t +:+ " Running AI"]) card, st, w2).
Proof. intros E1 E2. unfold ai_stage, log. rewrite E1. simpl. by rewrite E2. Qed.

Lemma map_stage_raises card st w t w1 msg w2 :
  utc_now clk w = (t, w1) →
  mapper sch (or_empty (ai_result card)) (photo_files card) w1 = (Raise msg, w2) →
  map_stage clk sch card st w
  = (Some msg, set_logs (logs card ++ [t +:+ " Mapping to Avito"]) card, st, w2).
Proof. intros E1 E2. unfold map_stage, log. rewrite E1. simpl. by rewrite E2. Qed.

Lemma post_stage_raises card st w t w1 msg w2 :
  utc_now clk w = (t, w1) →
  poster sch (or_empty (mapped_avito card)) (photo_files card) w1 = (Raise msg, w2) →
  post_stage clk sch card st w
  = (Some msg, set_logs (logs card ++ [t +:+ " Posting to Avito"]) card, st, w2).
Proof. intros E1 E2. unfold post_stage, log. rewrite E1. simpl. by rewrite E2. Qed.

(** The posting stage when the poster returns. *)
Lemma post_stage_returns card st w t w1 post_response w2 :
  utc_now clk w = (t, w1) →
  poster sch (or_empty (mapped_avito card)) (photo_files card) w1
    = (Return post_response, w2) →
  let logged := set_logs (logs card ++ [t +:+ " Posting to Avito"]) card in
  let written := set_post_url (get_post_url post_response) logged in
  (get_status post_response = Some "POSTED" →
     ∃ timestamp w3,
       utc_now clk w2 = (timestamp, w3) ∧
       post_stage clk sch card st w
       = (None, set_status "POSTED" written,
          set_history
            (history st ++ [record_of (set_status "POSTED" written) timestamp]) st,
          w3)) ∧
  (get_status post_response = Some "NEED_ACTION" →
     match get_list (get_errors post_response) with
     | Some errs =>
         post_stage clk sch card st w
         = (None,
            set_errors (errors card ++ errs) (set_status "NEED_ACTION" written),
            add_need_action st
              (set_errors (errors card ++ errs) (set_status "NEED_ACTION" written))
              (join_or errs "Captcha or manual confirmation required"),
            w2)
     | None =>
         post_stage clk sch card st w
         = (Some not_iterable, set_status "NEED_ACTION" written, st, w2)
     end) ∧
  (get_status post_response ≠ Some "POSTED" →
   get_status post_response ≠ Some "NEED_ACTION" →
     match get_list (get_errors post_response) with
     | Some errs =>
         post_stage clk sch card st w
         = (None, set_errors (errors card ++ errs) (set_status "FAILED" written),
            st, w2)
     | None =>
         post_stage clk sch card st w
         = (Some not_iterable, set_status "FAILED" written, st, w2)
     end).
Proof.
  intros E1 E2 logged written.
  unfold post_stage, log. rewrite E1. simpl. rewrite E2.
  repeat split.
  - intros Hs. rewrite Hs. simpl. unfold add_history.
    destruct (utc_now clk w2) as [timestamp w3]. by exists timestamp, w3.
  - intros Hs. rewrite Hs. simpl. by destruct (get_list _).
  - intros H1%status_is_false H2%status_is_false. rewrite H1, H2.
    by destruct (get_list _).
Qed.

End Stages.

Section Isolation.

Context {W : Type} (clk : Clock W) (sch : FlowScheduler W).
Hypothesis Hpure : pure_stages sch.


Lemma post_stage_pure card1 st1 w1 card2 st2 w2 :
  mapped_avito card1 = mapped_avito card2 →
  photo_files card1 = photo_files card2 →
  same_outcome (post_stage clk sch card1 st1 w1) (post_stage clk sch card2 st2 w2).
Proof.
  intros Em Ef. unfold post_stage, log.
  destruct (utc_now clk w1) as [t1 w1'], (utc_now clk w2) as [t2 w2']; simpl.
  rewrite Em, Ef.
  destruct Hpure as (_ & _ & _ & Hposter).
  specialize (Hposter (or_empty (mapped_avito card2)) (photo_files card2) w1' w2').
  destruct (poster sch _ _ w1') as [[r1|m1] v1], (poster sch _ _ w2') as [[r2|m2] v2];
    simpl in Hposter; simplify_eq; [|done].
  unfold add_history.
  destruct (utc_now clk v1) as [ts1 v1'], (utc_now clk v2) as [ts2 v2'].
  by repeat case_match.
Qed.

Lemma map_stage_pure card1 st1 w1 card2 st2 w2 :
  ai_result card1 = ai_result card2 →
  photo_files card1 = photo_files card2 →
  same_outcome (map_stage clk sch card1 st1 w1) (map_stage clk sch card2 st2 w2).
Proof.
  intros Ea Ef. unfold map_stage, log.
  destruct (utc_now clk w1) as [t1 w1'], (utc_now clk w2) as [t2 w2']; simpl.
  rewrite Ea, Ef.
  pose proof Hpure as (_ & _ & Hmapper & _).
  specialize (Hmapper (or_empty (ai_result card2)) (photo_files card2) w1' w2').
  destruct (mapper sch _ _ w1') as [[r1|m1] v1], (mapper sch _ _ w2') as [[r2|m2] v2];
    simpl in Hmapper; simplify_eq; [|done].
  destruct (status_is _ _); [by destruct (get_list _)|]. by apply post_stage_pure.
Qed.

Lemma ai_stage_pure card1 st1 w1 card2 st2 w2 :
  photo_files card1 = photo_files card2 →
  template_id card1 = template_id card2 →
  same_outcome (ai_stage clk sch card1 st1 w1) (ai_stage clk sch card2 st2 w2).
Proof.
  intros Ef Et. unfold ai_stage, log.
  destruct (utc_now clk w1) as [t1 w1'], (utc_now clk w2) as [t2 w2']; simpl.
  rewrite Ef, Et.
  pose proof Hpure as (_ & Hai & _ & _).
  specialize (Hai (photo_files card2) (template_id card2) w1' w2').
  destruct (ai_client sch _ _ w1') as [[r1|m1] v1],
           (ai_client sch _ _ w2') as [[r2|m2] v2];
    simpl in Hai; simplify_eq; [|done].
  destruct (status_is _ _); [by destruct (get_list _)|]. by apply map_stage_pure.
Qed.

Lemma chain_body_pure card1 st1 w1 card2 st2 w2 :
  batch_id card1 = batch_id card2 →
  template_id card1 = template_id card2 →
  same_outcome (chain_body clk sch card1 st1 w1) (chain_body clk sch card2 st2 w2).
Proof.
  intros Eb Et. unfold chain_body, log.
  destruct (utc_now clk w1) as [t1 w1'], (utc_now clk w2) as [t2 w2']; simpl.
  rewrite Eb.
  pose proof Hpure as (Himport & _ & _ & _).
  specialize (Himport (batch_id card2) w1' w2').
  destruct (import_photos sch _ w1') as [[r1|m1] v1],
           (import_photos sch _ w2') as [[r2|m2] v2];
    simpl in Himport; simplify_eq; [|done].
  by apply ai_stage_pure.
Qed.

(** The status a batch ends with does not depend on the cycle, the index
    or the state it is processed in. *)
Lemma run_batch_pure st1 i1 w1 st2 i2 w2 bid :
  status (run_batch clk sch st1 i1 bid w1).1.1
  = status (run_batch clk sch st2 i2 bid w2).1.1.
Proof.
  unfold run_batch, _ensure_card, log.
  destruct (_now_id clk "card" i1 w1) as [cid1 v1],
           (_now_id clk "card" i2 w2) as [cid2 v2].
  destruct (utc_now clk v1) as [t1 v1'], (utc_now clk v2) as [t2 v2'].
  match goal with
  | |- context [_run_chain clk sch ?c1 ?s1 v1'] =>
      match goal with
      | |- context [_run_chain clk sch ?c2 ?s2 v2'] =>
          pose proof (chain_body_pure c1 s1 v1' c2 s2 v2' eq_refl eq_refl) as [_ H]
      end
  end.
  unfold _run_chain.
  destruct (on_exception (chain_body _ _ _ _ v1')) as [[c1 s1] u1],
           (on_exception (chain_body _ _ _ _ v2')) as [[c2 s2] u2].
  done.
Qed.

(** A batch whose chain raises for some card ends [FAILED] in every
    cycle. *)
Lemma run_batch_raises st index w bid :
  chain_raises clk sch bid →
  status (run_batch clk sch st index bid w).1.1 = "FAILED".
Proof.
  intros (cid & st0 & w0 & msg & card' & st' & w' & Hraise).
  unfold run_batch, _ensure_card, log.
  destruct (_now_id clk "card" index w) as [cid1 v1].
  destruct (utc_now clk v1) as [t1 v1'].
  match goal with
  | |- context [_run_chain clk sch ?c1 ?s1 v1'] =>
      pose proof (chain_body_pure (new_card cid bid "NEW") st0 w0 c1 s1 v1'
                    eq_refl eq_refl) as [Hr _]
  end.
  rewrite Hraise in Hr. simpl in Hr. unfold _run_chain.
  destruct (chain_body _ _ _ _ v1') as [[[raised c1] s1] u1]. simpl in *. by subst.
Qed.

End Isolation.

Lemma Script_sch_pure : pure_stages Script.sch.
Proof.
  repeat split; intros; reflexivity.
Qed.

(** ** The specified properties, C1 to C10 *)

(** C1. Idempotency of [run_once]: when the batch source returns the same
    list at two calls in a row, the second call creates no card and leaves
    the state, hence [cards] and [processed_batches], exactly as the first
    call left it. *)
Theorem run_once_idempotent {W} (clk : Clock W) (sch : FlowScheduler W)
    st w batch_ids w0 r st1 w1 w2 w3 :
  fetch_batches sch w = (Return batch_ids, w0) →
  run_once clk sch st w = (r, st1, w1) →
  fetch_batches sch w2 = (Return batch_ids, w3) →
  run_once clk sch st1 w2 = (Return [], st1, w3).
Proof.
  intros Ef E1 Ef2.
  destruct (run_once_returns clk sch st _ _ _ Ef) as (created & st' & w' & E1' & El).
  rewrite E1 in E1'. injection E1' as -> <- <-.
  apply run_loop_admission in El as [_ Hproc].
  unfold run_once. rewrite Ef2, new_batches_nil; [done|].
  intros bid Hbid. rewrite Hproc.
  destruct (decide (bid ∈ processed_batches st)) as [Hin|Hnin].
  - apply elem_of_union. by right.
  - apply elem_of_union. left. apply elem_of_list_to_set.
    by apply elem_of_new_batches.
Qed.

Lemma run_once_idempotent_witness :
  let first :=
    run_once Script.clk Script.sch empty_state
      (Script.at_noon [["a"; "captcha"; "offline"]; ["a"; "captcha"; "offline"]]) in
  run_once Script.clk Script.sch first.1.2 first.2
  = (Return [], first.1.2, Script.at_noon []).
Proof.
  intros first.
  apply (run_once_idempotent Script.clk Script.sch empty_state
           (Script.at_noon [["a"; "captcha"; "offline"]; ["a"; "captcha"; "offline"]])
           ["a"; "captcha"; "offline"]
           (Script.at_noon [["a"; "captcha"; "offline"]])
           first.1.1 first.1.2 first.2 first.2 (Script.at_noon [])).
  - reflexivity.
  - apply triple_eta.
  - vm_compute. reflexivity.
Defined.

(** C2. Unconditional admission marking: a batch id that [run_once] admits
    (fetched, not yet processed) gets a card, which ends [POSTED],
    [NEED_ACTION] or [FAILED]; whichever it is, the id is in
    [processed_batches] when [run_once] returns, and no later cycle creates
    another card for it. *)
Theorem admitted_batch_is_marked {W} (clk : Clock W) (sch : FlowScheduler W)
    st w batch_ids w0 bid r st1 w1 :
  fetch_batches sch w = (Return batch_ids, w0) →
  bid ∈ batch_ids →
  bid ∉ processed_batches st →
  run_once clk sch st w = (r, st1, w1) →
  (∃ card, card ∈ created_of r ∧ batch_id card = bid) ∧
  (∀ card, card ∈ created_of r →
     status card = "POSTED" ∨ status card = "NEED_ACTION" ∨ status card = "FAILED") ∧
  bid ∈ processed_batches st1 ∧
  (∀ created st2, lifetime clk sch st1 created st2 →
     ∀ card, card ∈ created → batch_id card ≠ bid).
Proof.
  intros Ef Hin Hnew E1.
  destruct (run_once_returns clk sch st _ _ _ Ef) as (created & st' & w' & E1' & El).
  rewrite E1 in E1'. injection E1' as -> <- <-.
  pose proof (run_loop_admission _ _ _ _ _ _ _ _ _ El) as [Hmap Hproc].
  assert (bid ∈ processed_batches st1) as Hmarked.
  { rewrite Hproc. apply elem_of_union. left. apply elem_of_list_to_set.
    by apply elem_of_new_batches. }
  repeat split.
  - assert (bid ∈ batch_id <$> created) as Hb.
    { rewrite Hmap. by apply elem_of_new_batches. }
    apply list_elem_of_fmap in Hb as (card & Hbid & Hc). by exists card.
  - intros card Hc. by eapply run_loop_terminal.
  - done.
  - intros created2 st2 Hlife card Hc Hbid.
    apply (lifetime_no_readmission _ _ _ _ _ Hlife card Hc). by rewrite Hbid.
Qed.

Lemma admitted_batch_is_marked_witness :
  let first :=
    run_once Script.clk Script.sch empty_state
      (Script.at_noon [["a"; "captcha"; "offline"]]) in
  (∃ card, card ∈ created_of first.1.1 ∧ batch_id card = "captcha") ∧
  (∀ card, card ∈ created_of first.1.1 →
     status card = "POSTED" ∨ status card = "NEED_ACTION" ∨ status card = "FAILED") ∧
  "captcha" ∈ processed_batches first.1.2 ∧
  (∀ created st2, lifetime Script.clk Script.sch first.1.2 created st2 →
     ∀ card, card ∈ created → batch_id card ≠ "captcha").
Proof.
  intros first.
  apply (admitted_batch_is_marked Script.clk Script.sch empty_state
           (Script.at_noon [["a"; "captcha"; "offline"]])
           ["a"; "captcha"; "offline"] (Script.at_noon [])
           "captcha" first.1.1 first.1.2 first.2).
  - reflexivity.
  - apply (bool_decide_unpack _). vm_compute. reflexivity.
  - apply (bool_decide_unpack _). vm_compute. reflexivity.
  - apply triple_eta.
Defined.

(** C3. Hard-failure handling.  Whichever stage function raises, the chain
    stops there: no later stage is called (the world is the one the raising
    call left), nothing is added to the queue or the history, the status of
    the card is [FAILED], the text of the exception is appended to its
    [errors], and the fields written by the stages that had returned
    ([photo_files], [photo_urls], [ai_result], [mapped_avito]) keep the
    values those stages gave them. *)
Theorem hard_failure_keeps_written_fields {W} (clk : Clock W) (sch : FlowScheduler W)
    card st w t1 w1 :
  utc_now clk w = (t1, w1) →
  (∀ msg w2,
     import_photos sch (batch_id card) w1 = (Raise msg, w2) →
     _run_chain clk sch card st w
     = ({| card_id := card_id card; batch_id := batch_id card; status := "FAILED";
           photo_files := photo_files card; photo_urls := photo_urls card;
           template_id := template_id card; ai_result := ai_result card;
           mapped_avito := mapped_avito card; post_url := post_url card;
           logs := logs card ++ [t1 +:+ " Importing photos"];
           errors := errors card ++ [msg] |}, st, w2)) ∧
  (∀ photo_result w2 t2 w3,
     import_photos sch (batch_id card) w1 = (Return photo_result, w2) →
     utc_now clk w2 = (t2, w3) →
     let files := get_list (get_photo_files photo_result) in
     let urls := get_list (get_photo_urls photo_result) in
     (∀ msg w4,
        ai_client sch files (template_id card) w3 = (Raise msg, w4) →
        _run_chain clk sch card st w
        = ({| card_id := card_id card; batch_id := batch_id card; status := "FAILED";
              photo_files := files; photo_urls := urls;
              template_id := template_id card; ai_result := ai_result card;
              mapped_avito := mapped_avito card; post_url := post_url card;
              logs := logs card ++ [t1 +:+ " Importing photos"; t2 +:+ " Running AI"];
              errors := errors card ++ [msg] |}, st, w4)) ∧
     (∀ ai_response w4 t3 w5,
        ai_client sch files (template_id card) w3 = (Return ai_response, w4) →
        get_status ai_response ≠ Some "NEED_ACTION" →
        utc_now clk w4 = (t3, w5) →
        (∀ msg w6,
           mapper sch (or_empty (get_ai_result ai_response)) files w5 = (Raise msg, w6) →
           _run_chain clk sch card st w
           = ({| card_id := card_id card; batch_id := batch_id card; status := "FAILED";
                 photo_files := files; photo_urls := urls;
                 template_id := template_id card;
                 ai_result := get_ai_result ai_response;
                 mapped_avito := mapped_avito card; post_url := post_url card;
                 logs := logs card ++ [t1 +:+ " Importing photos"; t2 +:+ " Running AI";
                                       t3 +:+ " Mapping to Avito"];
                 errors := errors card ++ [msg] |}, st, w6)) ∧
        (∀ mapped_response w6 t4 w7 msg w8,
           mapper sch (or_empty (get_ai_result ai_response)) files w5
             = (Return mapped_response, w6) →
           get_status mapped_response ≠ Some "NEED_ACTION" →
           utc_now clk w6 = (t4, w7) →
           poster sch (or_empty (get_mapped_avito mapped_response)) files w7
             = (Raise msg, w8) →
           _run_chain clk sch card st w
           = ({| card_id := card_id card; batch_id := batch_id card; status := "FAILED";
                 photo_files := files; photo_urls := urls;
                 template_id := template_id card;
                 ai_result := get_ai_result ai_response;
                 mapped_avito := get_mapped_avito mapped_response;
                 post_url := post_url card;
                 logs := logs card ++ [t1 +:+ " Importing photos"; t2 +:+ " Running AI";
                                       t3 +:+ " Mapping to Avito";
                                       t4 +:+ " Posting to Avito"];
                 errors := errors card ++ [msg] |}, st, w8)))).
Proof.
  intros E1. split.
  { intros msg w2 Ei. unfold _run_chain.
    by rewrite (chain_body_import_raises _ _ _ _ _ _ _ _ _ E1 Ei). }
  intros photo_result w2 t2 w3 Ei E2 files urls.
  pose proof (chain_body_import_returns clk sch card st _ _ _ _ _ E1 Ei) as Hbody.
  split.
  { intros msg w4 Ea. unfold _run_chain. rewrite Hbody.
    erewrite ai_stage_raises by done. simpl. by rewrite <-app_assoc. }
  intros ai_response w4 t3 w5 Ea Hs E3.
  erewrite ai_stage_advances in Hbody by done.
  split.
  { intros msg w6 Em. unfold _run_chain. rewrite Hbody.
    erewrite map_stage_raises by done. simpl. by rewrite <-!app_assoc. }
  intros mapped_response w6 t4 w7 msg w8 Em Hs' E4 Ep.
  erewrite map_stage_advances in Hbody by done.
  unfold _run_chain. rewrite Hbody.
  erewrite post_stage_raises by done. simpl. by rewrite <-!app_assoc.
Qed.

Lemma hard_failure_keeps_written_fields_witness :
  _run_chain Script.clk Script.sch
    (new_card "card_1700000000_1" "crash" "NEW") empty_state (Script.at_noon [])
  = ({| card_id := "card_1700000000_1"; batch_id := "crash"; status := "FAILED";
        photo_files := Some ["crash/01.jpg"];
        photo_urls := Some ["https://photo/crash/01.jpg"];
        template_id := "sale";
        ai_result := Some Script.listing;
        mapped_avito := None; post_url := None;
        logs := ["T1700000000 Importing photos"; "T1700000000 Running AI";
                 "T1700000000 Mapping to Avito"];
        errors := ["mapper crashed"] |}, empty_state, Script.at_noon []).
Proof.
  pose proof (hard_failure_keeps_written_fields Script.clk Script.sch
                (new_card "card_1700000000_1" "crash" "NEW") empty_state
                (Script.at_noon []) "T1700000000" (Script.at_noon []) eq_refl)
    as [_ Himport].
  destruct (Himport _ (Script.at_noon []) "T1700000000" (Script.at_noon [])
              eq_refl eq_refl) as [_ Hai].
  destruct (Hai _ (Script.at_noon []) "T1700000000" (Script.at_noon [])
              eq_refl ltac:(discriminate) eq_refl) as [Hmap _].
  exact (Hmap "mapper crashed" (Script.at_noon []) eq_refl).
Defined.


(** The chain of the batch ["timeout"] raises in the scripted world, whose
    stage functions are functions of their arguments. *)
Lemma Script_timeout_raises : chain_raises Script.clk Script.sch "timeout".
Proof.
  exists "card_1700000000_2", empty_state, (Script.at_noon []).
  eexists _, _, _, _. vm_compute. reflexivity.
Qed.



(** The run behind the witness of C4. *)
Example isolation_statuses :
  status <$> created_of
    (run_once Script.clk Script.sch empty_state
       (Script.at_noon [["a"; "timeout"; "captcha"]])).1.1
  = ["POSTED"; "FAILED"; "NEED_ACTION"] ∧
  status <$> created_of
    (run_once Script.clk Script.sch empty_state
       (Script.at_noon [["a"; "captcha"]])).1.1
  = ["POSTED"; "NEED_ACTION"].
Proof. vm_compute. done. Qed.

(** C5. Need-action round trip.  A chain that leaves its card in
    [NEED_ACTION] has appended exactly one entry, carrying the id of that
    card, to the queue, and a chain that leaves it otherwise has not touched
    the queue.  [resolve_need_action] keeps, in order, exactly the entries
    of other cards, answers [true] exactly when some entry carried the given
    id, and when none did it answers [false] and returns the state as it
    was. *)
Theorem need_action_round_trip {W} (clk : Clock W) (sch : FlowScheduler W)
    card st w cid :
  (∀ reason,
     need_action (add_need_action st card reason)
     = need_action st ++ [item_of card reason]) ∧
  (let '(card', st', _) := _run_chain clk sch card st w in
   card_id card' = card_id card ∧
   (status card' = "NEED_ACTION" →
      ∃ item, need_action st' = need_action st ++ [item] ∧
              NeedActionItem.card_id item = card_id card) ∧
   (status card' ≠ "NEED_ACTION" → need_action st' = need_action st)) ∧
  (let '(removed, st') := resolve_need_action st cid in
   need_action st'
     = filter (λ item, NeedActionItem.card_id item ≠ cid) (need_action st) ∧
   (∀ item, item ∈ need_action st' → NeedActionItem.card_id item ≠ cid) ∧
   (removed = true ↔
      ∃ item, item ∈ need_action st ∧ NeedActionItem.card_id item = cid) ∧
   cards st' = cards st ∧ history st' = history st ∧
   processed_batches st' = processed_batches st ∧
   ((∀ item, item ∈ need_action st → NeedActionItem.card_id item ≠ cid) →
      removed = false ∧ st' = st)).
Proof.
  split; [done|]. split.
  - destruct (_run_chain clk sch card st w) as [[card' st'] w'] eqn:E.
    apply run_chain_framed in E as [Hid _ _ _ _ Hset].
    split; [done|]. split.
    + intros Hs. destruct Hset as [ts Hs' _ _|reason _ Hq _|Hs' _ _];
        [by rewrite Hs in Hs'| |by rewrite Hs in Hs'].
      exists (item_of card' reason). by split.
    + intros Hs. by destruct Hset as [ts _ Hq _|reason Hs' _ _|_ Hq _].
  - unfold resolve_need_action. simpl.
    set (keep := filter _ (need_action st)).
    assert (∀ item, item ∈ keep → NeedActionItem.card_id item ≠ cid) as Hkeep.
    { intros item Hitem. by apply list_elem_of_filter in Hitem as [? _]. }
    pose proof (resolve_shortens cid (need_action st)) as Hlen. fold keep in Hlen.
    repeat split; try done.
    + intros Hb. apply bool_decide_eq_true in Hb. by apply Hlen.
    + intros Hex. apply bool_decide_eq_true. by apply Hlen.
    + apply bool_decide_eq_false. rewrite Hlen.
      intros (x & Hx & Hc). by apply (H x).
    + destruct st as [cs q h p]. unfold set_need_action; simpl in *. f_equal.
      subst keep. by apply resolve_keeps_others.
Qed.

Lemma need_action_round_trip_witness :
  let '(card, st, _) :=
    _run_chain Script.clk Script.sch
      (new_card "card_1700000000_1" "captcha" "NEW") empty_state (Script.at_noon []) in
  let '(removed, st') := resolve_need_action st "card_1700000000_1" in
  need_action st'
    = filter (λ item, NeedActionItem.card_id item ≠ "card_1700000000_1") (need_action st) ∧
  (∀ item, item ∈ need_action st' → NeedActionItem.card_id item ≠ "card_1700000000_1") ∧
  (removed = true ↔
     ∃ item, item ∈ need_action st ∧ NeedActionItem.card_id item = "card_1700000000_1") ∧
  cards st' = cards st ∧ history st' = history st ∧
  processed_batches st' = processed_batches st ∧
  ((∀ item, item ∈ need_action st → NeedActionItem.card_id item ≠ "card_1700000000_1") →
     removed = false ∧ st' = st).
Proof.
  destruct (_run_chain _ _ _ _ _) as [[card st] w].
  exact (proj2 (proj2 (need_action_round_trip Script.clk Script.sch
                         card st w "card_1700000000_1"))).
Defined.

(** The round trip on the scripted world: the captcha batch leaves one
    entry in the queue; resolving its card empties the queue and answers
    [true]; resolving it again answers [false]. *)
Example round_trip_on_captcha :
  let '(card, st, _) :=
    _run_chain Script.clk Script.sch
      (new_card "card_1700000000_1" "captcha" "NEW") empty_state (Script.at_noon []) in
  NeedActionItem.card_id <$> need_action st = ["card_1700000000_1"] ∧
  NeedActionItem.reason <$> need_action st = ["Captcha required"] ∧
  (resolve_need_action st "card_1700000000_1").1 = true ∧
  need_action (resolve_need_action st "card_1700000000_1").2 = [] ∧
  (resolve_need_action (resolve_need_action st "card_1700000000_1").2
     "card_1700000000_1").1 = false.
Proof. vm_compute. done. Qed.

(** C6. History ordering: when [run_once] runs over a fetched list none of
    whose batches was processed before, it creates one card per batch in
    the order of the list, and the records it appends to [history] are
    those of the cards that reached [POSTED], in that same order. *)
Theorem history_follows_batch_order {W} (clk : Clock W) (sch : FlowScheduler W)
    st w batch_ids w0 r st1 w1 :
  fetch_batches sch w = (Return batch_ids, w0) →
  (∀ bid, bid ∈ batch_ids → bid ∉ processed_batches st) →
  run_once clk sch st w = (r, st1, w1) →
  ∃ created recs,
    r = Return created ∧
    batch_id <$> created = batch_ids ∧
    history st1 = history st ++ recs ∧
    PublicationRecord.batch_id <$> recs
      = batch_id <$> filter (λ card, status card = "POSTED") created ∧
    Forall2 (λ card rec, ∃ timestamp, rec = record_of card timestamp)
      (filter (λ card, status card = "POSTED") created) recs.
Proof.
  intros Ef Hnew E1.
  destruct (run_once_returns clk sch st _ _ _ Ef) as (created & st' & w' & E1' & El).
  rewrite E1 in E1'. injection E1' as -> <- <-.
  rewrite new_batches_all in El by done.
  pose proof (run_loop_admission _ _ _ _ _ _ _ _ _ El) as [Hmap _].
  destruct (run_loop_history _ _ _ _ _ _ _ _ _ El) as (recs & Hh & Hrecs).
  exists created, recs. repeat split; try done.
  clear -Hrecs. induction Hrecs as [|card rec cs rs [ts ->] _ IH]; [done|].
  rewrite !fmap_cons, IH. done.
Qed.

Lemma history_follows_batch_order_witness :
  let first :=
    run_once Script.clk Script.sch empty_state
      (Script.at_noon [["a"; "captcha"; "b"; "offline"; "c"]]) in
  ∃ created recs,
    first.1.1 = Return created ∧
    batch_id <$> created = ["a"; "captcha"; "b"; "offline"; "c"] ∧
    history first.1.2 = history empty_state ++ recs ∧
    PublicationRecord.batch_id <$> recs
      = batch_id <$> filter (λ card, status card = "POSTED") created ∧
    Forall2 (λ card rec, ∃ timestamp, rec = record_of card timestamp)
      (filter (λ card, status card = "POSTED") created) recs.
Proof.
  intros first.
  apply (history_follows_batch_order Script.clk Script.sch empty_state
           (Script.at_noon [["a"; "captcha"; "b"; "offline"; "c"]])
           ["a"; "captcha"; "b"; "offline"; "c"] (Script.at_noon [])
           first.1.1 first.1.2 first.2).
  - reflexivity.
  - intros bid _. simpl. apply not_elem_of_empty.
  - apply triple_eta.
Defined.

(** The run behind the witness of C6: three of the five batches are posted,
    and the history lists them in the order of the batch source. *)
Example history_of_five_batches :
  PublicationRecord.batch_id <$>
    history (run_once Script.clk Script.sch empty_state
               (Script.at_noon [["a"; "captcha"; "b"; "offline"; "c"]])).1.2
  = ["a"; "b"; "c"].
Proof. vm_compute. reflexivity. Qed.

(** C7 fails on the code.  [_now_id] builds the id from the clock, read in
    whole seconds, and the index of the batch within its cycle.  Two cycles
    that run within one second and each admit a batch give both cards the
    id [card_1700000000_1]; the card of the second cycle replaces the card
    of the first in [cards]. *)
Example card_ids_collide_within_a_second :
  let first :=
    run_once Script.clk Script.sch empty_state (Script.at_noon [["a"]; ["a"; "b"]]) in
  let second := run_once Script.clk Script.sch first.1.2 first.2 in
  (card_id <$> created_of first.1.1 = ["card_1700000000_1"] ∧
   batch_id <$> created_of first.1.1 = ["a"]) ∧
  (card_id <$> created_of second.1.1 = ["card_1700000000_1"] ∧
   batch_id <$> created_of second.1.1 = ["b"]) ∧
  batch_id <$> (cards second.1.2 !! "card_1700000000_1") = Some "b" ∧
  size (cards second.1.2) = 1%nat ∧
  (run_cycles Script.clk Script.sch 2 empty_state
     (Script.at_noon [["a"]; ["a"; "b"]])).1.2 = second.1.2.
Proof. vm_compute. done. Qed.

(** C8 fails on the code.  The chain copies the [post_url] of the poster's
    result to the card before it looks at the status of that result, whereas
    the generation and mapping stages write [ai_result] and [mapped_avito]
    only once the status has passed the [NEED_ACTION] check.  The poster of
    the scripted world answers ["NEED_ACTION"] together with the url of the
    draft for the batch ["captcha"], as [post_listing] of avito_poster.py
    does when the form filler reports one; the card ends [NEED_ACTION] with
    that url. *)
Example post_url_set_without_posting :
  let card' :=
    (_run_chain Script.clk Script.sch
       (new_card "card_1700000000_1" "captcha" "NEW") empty_state
       (Script.at_noon [])).1.1 in
  ¬ (post_url card' ≠ None → status card' = "POSTED") ∧
  status card' = "NEED_ACTION" ∧
  post_url card' = Some "https://avito.ru/draft/captcha".
Proof.
  vm_compute. split; [|done].
  intros H. discriminate H. discriminate.
Qed.

(** C9 fails on the code.  [run_once] filters the fetched list against
    [processed_batches] once, before the loop; a batch id that occurs twice
    in one fetched list is admitted twice and gets two cards. *)
Example duplicate_batch_gets_two_cards :
  let cycle :=
    run_once Script.clk Script.sch empty_state (Script.at_noon [["a"; "a"]]) in
  batch_id <$> created_of cycle.1.1 = ["a"; "a"] ∧
  card_id <$> created_of cycle.1.1 = ["card_1700000000_1"; "card_1700000000_2"] ∧
  size (cards cycle.1.2) = 2%nat.
Proof. vm_compute. done. Qed.

(** C10. Only the exact status ["NEED_ACTION"] diverts the generation and
    mapping stages.  With any other status field (["FAILED"], an unknown
    string, none at all) the result of the generation stage is written to
    the card, the card becomes [AI_READY] and the mapping stage runs on
    it; likewise the mapping stage makes the card [READY_TO_POST] and the
    posting stage runs.  The posting stage alone tells three outcomes
    apart: [POSTED], [NEED_ACTION], and [FAILED] for anything else.  (A
    [NEED_ACTION] result whose [errors] key holds [None] makes
    [errors.extend] raise, and the card ends [FAILED] as well.) *)
Theorem only_need_action_diverts {W} (clk : Clock W) (sch : FlowScheduler W)
    card st w t w1 :
  utc_now clk w = (t, w1) →
  (∀ ai_response w2,
     ai_client sch (photo_files card) (template_id card) w1 = (Return ai_response, w2) →
     get_status ai_response ≠ Some "NEED_ACTION" →
     ai_stage clk sch card st w
     = map_stage clk sch
         (set_status "AI_READY"
            (set_ai_result (get_ai_result ai_response)
               (set_logs (logs card ++ [t +:+ " Running AI"]) card)))
         st w2) ∧
  (∀ mapped_response w2,
     mapper sch (or_empty (ai_result card)) (photo_files card) w1
       = (Return mapped_response, w2) →
     get_status mapped_response ≠ Some "NEED_ACTION" →
     map_stage clk sch card st w
     = post_stage clk sch
         (set_status "READY_TO_POST"
            (set_mapped_avito (get_mapped_avito mapped_response)
               (set_logs (logs card ++ [t +:+ " Mapping to Avito"]) card)))
         st w2) ∧
  (∀ post_response w2,
     poster sch (or_empty (mapped_avito card)) (photo_files card) w1
       = (Return post_response, w2) →
     let raised := (post_stage clk sch card st w).1.1.1 in
     let card' := (on_exception (post_stage clk sch card st w)).1.1 in
     (raised = None ↔
        get_status post_response = Some "POSTED" ∨ get_errors post_response ≠ Null) ∧
     (get_status post_response = Some "POSTED" → status card' = "POSTED") ∧
     (get_status post_response = Some "NEED_ACTION" →
        get_errors post_response ≠ Null → status card' = "NEED_ACTION") ∧
     (get_status post_response = Some "NEED_ACTION" →
        get_errors post_response = Null → status card' = "FAILED") ∧
     (get_status post_response ≠ Some "POSTED" →
      get_status post_response ≠ Some "NEED_ACTION" → status card' = "FAILED")).
Proof.
  intros E1. split; [|split].
  - intros. by eapply ai_stage_advances.
  - intros. by eapply map_stage_advances.
  - intros post_response w2 Ep. cbv zeta.
    destruct (post_stage_returns clk sch card st _ _ _ _ _ E1 Ep) as (Hp & Hn & Hf).
    destruct (decide (get_status post_response = Some "POSTED")) as [Hs|Hs].
    { destruct (Hp Hs) as (ts & w3 & _ & ->). simpl. rewrite Hs.
      split_and!; try done. split; [by left|done]. }
    destruct (decide (get_status post_response = Some "NEED_ACTION")) as [Hs'|Hs'].
    + specialize (Hn Hs'). clear Hp Hf.
      destruct (get_errors post_response) eqn:Ee; simpl in Hn; rewrite Hn; simpl;
        split_and!; try done;
        (split; [try done; by right|try done; by intros [?|?]]).
    + specialize (Hf Hs Hs'). clear Hp Hn.
      destruct (get_errors post_response) eqn:Ee; simpl in Hf; rewrite Hf; simpl;
        split_and!; try done;
        (split; [try done; by right|try done; by intros [?|?]]).
Qed.

Lemma only_need_action_diverts_witness :
  ai_stage Script.clk Script.sch
    (set_photos (Some ["odd/01.jpg"]) (Some []) (new_card "card_1700000000_1" "odd" "NEW"))
    empty_state (Script.at_noon [])
  = map_stage Script.clk Script.sch
      (set_status "AI_READY"
         (set_ai_result (Some Script.listing)
            (set_logs ["T1700000000 Running AI"]
               (set_photos (Some ["odd/01.jpg"]) (Some [])
                  (new_card "card_1700000000_1" "odd" "NEW")))))
      empty_state (Script.at_noon []).
Proof.
  exact (proj1 (only_need_action_diverts Script.clk Script.sch
                  (set_photos (Some ["odd/01.jpg"]) (Some [])
                     (new_card "card_1700000000_1" "odd" "NEW"))
                  empty_state (Script.at_noon []) "T1700000000" (Script.at_noon [])
                  eq_refl)
           _ (Script.at_noon []) eq_refl ltac:(discriminate)).
Defined.

(** In the scripted world the generation stage answers ["FAILED"] for the
    batch ["odd"] and the mapping stage answers without a status; the card
    is posted all the same. *)
Example odd_statuses_still_post :
  let '(card, st, _) :=
    _run_chain Script.clk Script.sch
      (new_card "card_1700000000_1" "odd" "NEW") empty_state (Script.at_noon []) in
  status card = "POSTED" ∧ ai_result card = Some Script.listing ∧
  length (history st) = 1%nat.
Proof. vm_compute. done. Qed.

(** ** The smoke test *)

(** The smoke test of the repository (flow_smoke.py, [main]): after one
    [run_once] over the five batches its four assertions hold. *)
Example smoke_test_passes :
  let state :=
    (run_once Script.clk Smoke.scheduler empty_state (Script.at_noon [])).1.2 in
  let values := (map_to_list (cards state)).*2 in
  length (filter (λ card, status card = "POSTED") values) = 4%nat ∧
  length (filter (λ card, status card = "NEED_ACTION") values) = 1%nat ∧
  length (history state) = 4%nat ∧
  length (need_action state) = 1%nat.
Proof. vm_compute. done. Qed.

(** ** More on the scheduler *)

Lemma join_or_nonempty errs fallback : fallback ≠ "" → join_or errs fallback ≠ "".
Proof.
  intros Hf. unfold join_or.
  destruct (String.eqb_spec (String.concat "; " errs) ""); done.
Qed.

Lemma logged_one timestamp message : logged [timestamp +:+ " " +:+ message] [message].
Proof. repeat constructor. by exists timestamp. Qed.

Section Trail.

Context {W : Type} (clk : Clock W) (sch : FlowScheduler W).

(** A stage that logs [message] and then runs the stages of [messages] on
    the card. *)
Lemma trail_post_step message messages card card1 timestamp (r : Chain W) :
  logs card1 = logs card ++ [timestamp +:+ " " +:+ message] →
  errors card1 = errors card →
  trail_post messages card1 r →
  trail_post (message :: messages) card r.
Proof.
  intros Hl He (k & lines & errs & Hk & Hlogs & Hlogged & Herrs & Hposted).
  exists (S k), ((timestamp +:+ " " +:+ message) :: lines), errs.
  split; [simpl; lia|]. split; [by rewrite Hlogs, Hl, <-app_assoc|].
  split; [constructor; [by exists timestamp|done]|].
  split; [by rewrite Herrs, He|].
  intros Hs. destruct (Hposted Hs) as [-> ->]. done.
Qed.

(** A stage that logs [message] and stops, leaving a card that is not
    [POSTED]. *)
Lemma trail_post_stop message messages card timestamp errs (r : Chain W) :
  logs (on_exception r).1.1 = logs card ++ [timestamp +:+ " " +:+ message] →
  errors (on_exception r).1.1 = errors card ++ errs →
  status (on_exception r).1.1 ≠ "POSTED" →
  trail_post (message :: messages) card r.
Proof.
  intros Hl He Hs. exists 1%nat, [timestamp +:+ " " +:+ message], errs.
  split; [simpl; lia|]. split; [done|]. split; [apply logged_one|]. by split.
Qed.

Lemma post_stage_trail card st w :
  trail_post ["Posting to Avito"] card (post_stage clk sch card st w).
Proof.
  unfold post_stage, log.
  destruct (utc_now clk w) as [t w1].
  destruct (poster sch _ _ w1) as [[resp|msg] w2].
  - destruct (status_is (get_status resp) "POSTED").
    + unfold add_history. destruct (utc_now clk w2) as [ts w3].
      exists 1%nat, [t +:+ " " +:+ "Posting to Avito"], [].
      simpl. rewrite app_nil_r.
      split; [lia|]. split; [done|]. split; [apply logged_one|]. by split.
    + destruct (status_is (get_status resp) "NEED_ACTION");
        destruct (get_list (get_errors resp)); by eapply trail_post_stop.
  - by eapply trail_post_stop.
Qed.

Lemma map_stage_trail card st w :
  trail_post ["Mapping to Avito"; "Posting to Avito"] card (map_stage clk sch card st w).
Proof.
  unfold map_stage, log.
  destruct (utc_now clk w) as [t w1].
  destruct (mapper sch _ _ w1) as [[resp|msg] w2]; [|by eapply trail_post_stop].
  destruct (status_is _ _);
    [destruct (get_list (get_errors resp)); by eapply trail_post_stop|].
  eapply trail_post_step; [..|apply post_stage_trail]; done.
Qed.

Lemma ai_stage_trail card st w :
  trail_post ["Running AI"; "Mapping to Avito"; "Posting to Avito"] card
    (ai_stage clk sch card st w).
Proof.
  unfold ai_stage, log.
  destruct (utc_now clk w) as [t w1].
  destruct (ai_client sch _ _ w1) as [[resp|msg] w2]; [|by eapply trail_post_stop].
  destruct (status_is _ _);
    [destruct (get_list (get_errors resp)); by eapply trail_post_stop|].
  eapply trail_post_step; [..|apply map_stage_trail]; done.
Qed.

Lemma chain_body_trail card st w :
  trail_post stage_messages card (chain_body clk sch card st w).
Proof.
  unfold chain_body, log.
  destruct (utc_now clk w) as [t w1].
  destruct (import_photos sch _ w1) as [[resp|msg] w2]; [|by eapply trail_post_stop].
  eapply trail_post_step; [..|apply ai_stage_trail]; done.
Qed.

End Trail.

(** X1. Log trail of a card.  [_run_chain] only appends to [logs] and
    [errors].  It appends the log lines of the first [k] stages, in the
    order import, generate, map, post, with [1 ≤ k ≤ 4]; a card that ends
    [POSTED] has the four lines and no new error. *)
Theorem run_chain_log_trail {W} (clk : Clock W) (sch : FlowScheduler W)
    card st w card' st' w' :
  _run_chain clk sch card st w = (card', st', w') →
  ∃ (k : nat) lines errs,
    (1 ≤ k ≤ 4)%nat ∧
    logs card' = logs card ++ lines ∧
    logged lines (take k stage_messages) ∧
    errors card' = errors card ++ errs ∧
    (status card' = "POSTED" → k = 4%nat ∧ errs = []).
Proof.
  intros E. pose proof (chain_body_trail clk sch card st w) as H.
  unfold trail_post in H. fold (_run_chain clk sch card st w) in H.
  by rewrite E in H.
Qed.

Lemma run_chain_log_trail_witness :
  let r :=
    _run_chain Script.clk Script.sch
      (new_card "card_1700000000_1" "nocity" "NEW") empty_state (Script.at_noon []) in
  ∃ (k : nat) lines errs,
    (1 ≤ k ≤ 4)%nat ∧
    logs r.1.1 = logs (new_card "card_1700000000_1" "nocity" "NEW") ++ lines ∧
    logged lines (take k stage_messages) ∧
    errors r.1.1 = errors (new_card "card_1700000000_1" "nocity" "NEW") ++ errs ∧
    (status r.1.1 = "POSTED" → k = 4%nat ∧ errs = []).
Proof.
  intros r.
  apply (run_chain_log_trail Script.clk Script.sch
           (new_card "card_1700000000_1" "nocity" "NEW") empty_state
           (Script.at_noon []) r.1.1 r.1.2 r.2).
  apply triple_eta.
Defined.

Section Queue.

Context {W : Type} (clk : Clock W) (sch : FlowScheduler W).

Lemma queue_post_item (card : CarCard) (st : FlowState) errs fallback (w : W) :
  fallback ≠ "" →
  queue_post st (None, card, add_need_action st card (join_or errs fallback), w).
Proof.
  intros Hf. right. exists (join_or errs fallback).
  split; [by apply join_or_nonempty|done].
Qed.

Lemma post_stage_queue card st w : queue_post st (post_stage clk sch card st w).
Proof.
  unfold post_stage, log.
  destruct (utc_now clk w) as [t w1].
  destruct (poster sch _ _ w1) as [[resp|msg] w2]; [|by left].
  destruct (status_is (get_status resp) "POSTED").
  - unfold add_history. destruct (utc_now clk w2) as [ts w3]. by left.
  - destruct (status_is (get_status resp) "NEED_ACTION");
      destruct (get_list (get_errors resp)); try (by left).
    by apply queue_post_item.
Qed.

Lemma map_stage_queue card st w : queue_post st (map_stage clk sch card st w).
Proof.
  unfold map_stage, log.
  destruct (utc_now clk w) as [t w1].
  destruct (mapper sch _ _ w1) as [[resp|msg] w2]; [|by left].
  destruct (status_is _ _); [|apply post_stage_queue].
  destruct (get_list (get_errors resp)); [by apply queue_post_item|by left].
Qed.

Lemma ai_stage_queue card st w : queue_post st (ai_stage clk sch card st w).
Proof.
  unfold ai_stage, log.
  destruct (utc_now clk w) as [t w1].
  destruct (ai_client sch _ _ w1) as [[resp|msg] w2]; [|by left].
  destruct (status_is _ _); [|apply map_stage_queue].
  destruct (get_list (get_errors resp)); [by apply queue_post_item|by left].
Qed.

Lemma chain_body_queue card st w : queue_post st (chain_body clk sch card st w).
Proof.
  unfold chain_body, log.
  destruct (utc_now clk w) as [t w1].
  destruct (import_photos sch _ w1) as [[resp|msg] w2]; [by apply ai_stage_queue|by left].
Qed.

(** What one iteration of the loop of [run_once] does to the state. *)
Lemma run_batch_effect st index bid w card st' w' :
  run_batch clk sch st index bid w = (card, st', w') →
  batch_id card = bid ∧
  (status card = "POSTED" ∨ status card = "NEED_ACTION" ∨ status card = "FAILED") ∧
  cards st' = <[card_id card := card]> (cards st) ∧
  processed_batches st' = {[bid]} ∪ processed_batches st ∧
  (history st' = history st ∨
   ∃ timestamp, status card = "POSTED" ∧
                history st' = history st ++ [record_of card timestamp]) ∧
  (need_action st' = need_action st ∨
   ∃ reason, reason ≠ "" ∧ need_action st' = need_action st ++ [item_of card reason]).
Proof.
  intros E.
  pose proof (run_batch_spec clk sch _ _ _ _ _ _ _ E) as (Hb & _ & _ & Hc & Hp & Hset).
  split; [done|]. split; [by destruct Hset; auto|]. split; [done|]. split; [done|].
  split; [destruct Hset as [ts ? ? ?|? ? ? ?|? ? ?]; eauto|].
  revert E. unfold run_batch, _ensure_card.
  destruct (_now_id clk "card" index w) as [cid w0].
  destruct (log _ _ _ _) as [card0 w1].
  pose proof (chain_body_queue card0 (set_cards (<[cid:=card0]> (cards st)) st) w1) as Hq.
  unfold queue_post in Hq.
  fold (_run_chain clk sch card0 (set_cards (<[cid:=card0]> (cards st)) st) w1) in Hq.
  destruct (_run_chain _ _ _ _ _) as [[card1 st1] w2].
  intros ?; simplify_eq/=. done.
Qed.

(** A property of the state that every iteration of the loop and every
    call of [resolve_need_action] keep is kept over a lifetime. *)
Lemma lifetime_keeps (P : FlowState → Prop) :
  (∀ st index bid w card st' w',
     run_batch clk sch st index bid w = (card, st', w') → P st → P st') →
  (∀ st cid, P st → P (resolve_need_action st cid).2) →
  ∀ st created st', lifetime clk sch st created st' → P st → P st'.
Proof.
  intros Hbatch Hresolve.
  assert (∀ bs index st w created st' w',
            run_loop clk sch index bs st w = (created, st', w') → P st → P st') as Hloop.
  { induction bs as [|bid rest IH]; intros index st w created st' w' E HP.
    - simpl in E. by simplify_eq.
    - apply run_loop_cons in E as (card & st1 & w1 & created1 & Hb & Hl & ->).
      eapply IH; [done|]. by eapply Hbatch. }
  induction 1 as [st|st w r st1 w1 created st2 Hr _ IH|st cid created st2 _ IH];
    intros HP; [done|..].
  - apply IH. revert Hr. unfold run_once.
    destruct (fetch_batches sch w) as [[batch_ids|msg] w0].
    + destruct (run_loop _ _ _ _ _ _) as [[created0 st0] w2] eqn:El.
      intros ?; simplify_eq. by eapply Hloop.
    + intros ?; by simplify_eq.
  - by apply IH, Hresolve.
Qed.

Lemma run_once_inv st w created st' w' :
  run_once clk sch st w = (Return created, st', w') →
  ∃ batch_ids w0,
    fetch_batches sch w = (Return batch_ids, w0) ∧
    run_loop clk sch 1 (new_batches batch_ids st) st w0 = (created, st', w').
Proof.
  unfold run_once.
  destruct (fetch_batches sch w) as [[batch_ids|msg] w0]; [|done].
  destruct (run_loop _ _ _ _ _ _) as [[created0 st0] w2] eqn:El.
  intros ?; simplify_eq. by exists batch_ids, w0.
Qed.

(** A cycle appends to the history the records of the cards it posted. *)
Lemma run_once_history st w r st' w' :
  run_once clk sch st w = (r, st', w') →
  ∃ recs,
    history st' = history st ++ recs ∧
    Forall2 (λ card rec, ∃ timestamp, rec = record_of card timestamp)
      (filter (λ card, status card = "POSTED") (created_of r)) recs.
Proof.
  destruct r as [created|msg].
  - intros (batch_ids & w0 & _ & El)%run_once_inv.
    by eapply run_loop_history.
  - unfold run_once.
    destruct (fetch_batches sch w) as [[batch_ids|msg'] w0].
    + by destruct (run_loop _ _ _ _ _ _) as [[created0 st0] w2].
    + intros ?; simplify_eq. exists []. by rewrite app_nil_r.
Qed.

End Queue.

(** X2. Card ids within one cycle.  The cards that one call of [run_once]
    creates have pairwise distinct ids; each is kept in [cards] under its
    id, as its chain left it, and the entries of [cards] under other ids
    are not touched. *)
Theorem cycle_card_ids_distinct {W} (clk : Clock W) (sch : FlowScheduler W)
    st w created st' w' :
  run_once clk sch st w = (Return created, st', w') →
  NoDup (card_id <$> created) ∧
  (∀ card, card ∈ created → cards st' !! card_id card = Some card) ∧
  (∀ cid, cid ∉ card_id <$> created → cards st' !! cid = cards st !! cid).
Proof.
  intros (batch_ids & w0 & _ & El)%run_once_inv.
  split; [by eapply run_loop_ids_NoDup|by eapply run_loop_cards].
Qed.

Lemma cycle_card_ids_distinct_witness :
  ∃ created st' w',
    run_once Script.clk Script.sch empty_state (Script.at_noon [["a"; "a"; "offline"]])
    = (Return created, st', w') ∧
    NoDup (card_id <$> created) ∧
    (∀ card, card ∈ created → cards st' !! card_id card = Some card) ∧
    (∀ cid, cid ∉ card_id <$> created → cards st' !! cid = cards empty_state !! cid).
Proof.
  pose (r := run_once Script.clk Script.sch empty_state
               (Script.at_noon [["a"; "a"; "offline"]])).
  exists (created_of r.1.1), r.1.2, r.2.
  assert (r = (Return (created_of r.1.1), r.1.2, r.2)) as E.
  { vm_compute. reflexivity. }
  split; [exact E|].
  exact (cycle_card_ids_distinct Script.clk Script.sch empty_state
           (Script.at_noon [["a"; "a"; "offline"]]) _ _ _ E).
Defined.

(** X3. What a lifetime keeps.  Over any sequence of [run_once] and
    [resolve_need_action] calls the processed batches and the ids in
    [cards] only grow, and the history only grows at its end: by one
    record per created card that ended [POSTED], in creation order. *)
Theorem lifetime_only_grows {W} (clk : Clock W) (sch : FlowScheduler W)
    st created st' :
  lifetime clk sch st created st' →
  processed_batches st ⊆ processed_batches st' ∧
  dom (cards st) ⊆ dom (cards st') ∧
  ∃ recs,
    history st' = history st ++ recs ∧
    Forall2 (λ card rec, ∃ timestamp, rec = record_of card timestamp)
      (filter (λ card, status card = "POSTED") created) recs.
Proof.
  intros Hlife. split; [|split].
  - revert Hlife. pattern st'. revert st created st'.
    refine (λ st created st' Hlife,
              lifetime_keeps clk sch (λ s, processed_batches st ⊆ processed_batches s)
                _ _ st created st' Hlife _); [| |done].
    + intros s index bid w card s' w' (_ & _ & _ & Hp & _)%run_batch_effect Hs.
      rewrite Hp. by apply union_subseteq_r'.
    + intros s cid Hs. done.
  - revert Hlife. pattern st'. revert st created st'.
    refine (λ st created st' Hlife,
              lifetime_keeps clk sch (λ s, dom (cards st) ⊆ dom (cards s))
                _ _ st created st' Hlife _); [| |done].
    + intros s index bid w card s' w' (_ & _ & Hc & _)%run_batch_effect Hs.
      rewrite Hc, dom_insert_L. by apply union_subseteq_r'.
    + intros s cid Hs. done.
  - induction Hlife as [st|st w r st1 w1 created st2 Hr _ IH|st cid created st2 _ IH].
    + exists []. by rewrite app_nil_r.
    + destruct (run_once_history clk sch _ _ _ _ _ Hr) as (recs1 & Hh1 & Hr1).
      destruct IH as (recs2 & Hh2 & Hr2).
      exists (recs1 ++ recs2). split; [by rewrite Hh2, Hh1, <-app_assoc|].
      rewrite filter_app. by apply Forall2_app.
    + done.
Qed.

Lemma lifetime_only_grows_witness :
  let r :=
    run_once Script.clk Script.sch empty_state
      (Script.at_noon [["a"; "captcha"; "b"]]) in
  processed_batches empty_state ⊆ processed_batches r.1.2 ∧
  dom (cards empty_state) ⊆ dom (cards r.1.2) ∧
  ∃ recs,
    history r.1.2 = history empty_state ++ recs ∧
    Forall2 (λ card rec, ∃ timestamp, rec = record_of card timestamp)
      (filter (λ card, status card = "POSTED") (created_of r.1.1 ++ [])) recs.
Proof.
  intros r.
  apply (lifetime_only_grows Script.clk Script.sch empty_state
           (created_of r.1.1 ++ []) r.1.2).
  eapply lifetime_cycle; [apply triple_eta|apply lifetime_done].
Defined.

(** X4. Cards are keyed by their id and settled.  If every card of the
    state is kept under its own id and has status [POSTED], [NEED_ACTION]
    or [FAILED], the same holds after any sequence of [run_once] and
    [resolve_need_action] calls: between cycles no card is left in [NEW],
    [PHOTOS_READY], [AI_READY] or [READY_TO_POST]. *)
Theorem cards_ok_kept {W} (clk : Clock W) (sch : FlowScheduler W) st created st' :
  cards_ok st →
  lifetime clk sch st created st' →
  cards_ok st'.
Proof.
  intros Hok Hlife. revert Hok.
  apply (lifetime_keeps clk sch cards_ok) with (created := created); [| |done].
  - intros s index bid w card s' w' (_ & Hs & Hc & _)%run_batch_effect Hok cid c.
    rewrite Hc. destruct (decide (card_id card = cid)) as [<-|Hne].
    + rewrite lookup_insert_eq. intros ?; by simplify_eq.
    + rewrite lookup_insert_ne by done. apply Hok.
  - intros s cid Hok. done.
Qed.

Lemma cards_ok_kept_witness :
  cards_ok
    (run_once Script.clk Script.sch empty_state
       (Script.at_noon [["a"; "captcha"; "offline"]])).1.2.
Proof.
  apply (cards_ok_kept Script.clk Script.sch empty_state
           (created_of
              (run_once Script.clk Script.sch empty_state
                 (Script.at_noon [["a"; "captcha"; "offline"]])).1.1 ++ [])).
  - intros cid card H. simpl in H. by rewrite lookup_empty in H.
  - eapply lifetime_cycle; [apply triple_eta|apply lifetime_done].
Defined.

(** X5. The history is an audit log of posted cards.  If every record of
    the history has status [POSTED] and names the id of a card of the state
    and a processed batch, the same holds after any sequence of [run_once]
    and [resolve_need_action] calls. *)
Theorem history_ok_kept {W} (clk : Clock W) (sch : FlowScheduler W) st created st' :
  history_ok st →
  lifetime clk sch st created st' →
  history_ok st'.
Proof.
  intros Hok Hlife. revert Hok.
  apply (lifetime_keeps clk sch history_ok) with (created := created); [| |done].
  - intros s index bid w card s' w' (Hb & _ & Hc & Hp & Hh & _)%run_batch_effect Hok rec.
    rewrite Hc, Hp, dom_insert_L.
    assert (rec ∈ history s → 
            PublicationRecord.status rec = "POSTED" ∧
            PublicationRecord.card_id rec ∈ ({[card_id card]} ∪ dom (cards s) : gset string) ∧
            PublicationRecord.batch_id rec ∈ ({[bid]} ∪ processed_batches s : gset string))
      as Hold.
    { intros (? & ? & ?)%Hok. repeat split; [done|apply elem_of_union; by right..]. }
    destruct Hh as [->|(ts & Hs & ->)]; [done|].
    intros [Hin|Hin]%elem_of_app; [by apply Hold|].
    apply list_elem_of_singleton in Hin as ->.
    simpl. repeat split; [done|apply elem_of_union; left; by apply elem_of_singleton..].
  - intros s cid Hok. done.
Qed.

Lemma history_ok_kept_witness :
  history_ok
    (run_once Script.clk Script.sch empty_state
       (Script.at_noon [["a"; "captcha"; "offline"]])).1.2.
Proof.
  apply (history_ok_kept Script.clk Script.sch empty_state
           (created_of
              (run_once Script.clk Script.sch empty_state
                 (Script.at_noon [["a"; "captcha"; "offline"]])).1.1 ++ [])).
  - intros rec H. simpl in H. by apply elem_of_nil in H.
  - eapply lifetime_cycle; [apply triple_eta|apply lifetime_done].
Defined.

(** X6. The queue explains itself.  If every entry of the manual-action
    queue has a reason that is not empty, asks for manual confirmation and
    names the id of a card of the state and a processed batch, the same
    holds after any sequence of [run_once] and [resolve_need_action]
    calls: a stage that reports no errors gets the fallback reason of its
    stage. *)
Theorem queue_ok_kept {W} (clk : Clock W) (sch : FlowScheduler W) st created st' :
  queue_ok st →
  lifetime clk sch st created st' →
  queue_ok st'.
Proof.
  intros Hok Hlife. revert Hok.
  apply (lifetime_keeps clk sch queue_ok) with (created := created); [| |done].
  - intros s index bid w card s' w' (Hb & _ & Hc & Hp & _ & Hq)%run_batch_effect Hok item.
    rewrite Hc, Hp, dom_insert_L.
    assert (item ∈ need_action s →
            NeedActionItem.reason item ≠ "" ∧
            NeedActionItem.requires_manual_confirmation item = true ∧
            NeedActionItem.card_id item ∈ ({[card_id card]} ∪ dom (cards s) : gset string) ∧
            NeedActionItem.batch_id item ∈ ({[bid]} ∪ processed_batches s : gset string))
      as Hold.
    { intros (? & ? & ? & ?)%Hok.
      repeat split; try done; apply elem_of_union; by right. }
    destruct Hq as [->|(reason & Hr & ->)]; [done|].
    intros [Hin|Hin]%elem_of_app; [by apply Hold|].
    apply list_elem_of_singleton in Hin as ->.
    simpl. repeat split; try done; apply elem_of_union; left; by apply elem_of_singleton.
  - intros s cid Hok item Hitem. simpl in Hitem.
    apply list_elem_of_filter in Hitem as [_ Hitem]. by apply Hok.
Qed.

Lemma queue_ok_kept_witness :
  queue_ok
    (run_once Script.clk Script.sch empty_state
       (Script.at_noon [["a"; "captcha"; "blurry"]])).1.2.
Proof.
  apply (queue_ok_kept Script.clk Script.sch empty_state
           (created_of
              (run_once Script.clk Script.sch empty_state
                 (Script.at_noon [["a"; "captcha"; "blurry"]])).1.1 ++ [])).
  - intros item H. simpl in H. by apply elem_of_nil in H.
  - eapply lifetime_cycle; [apply triple_eta|apply lifetime_done].
Defined.

(** X7. Resolving twice, resolving in either order.  A second
    [resolve_need_action] for the same card id answers [false] and changes
    nothing, and resolving two card ids gives the same state in either
    order. *)
Theorem resolve_again_and_commute st cid1 cid2 :
  resolve_need_action (resolve_need_action st cid1).2 cid1
  = (false, (resolve_need_action st cid1).2) ∧
  (resolve_need_action (resolve_need_action st cid1).2 cid2).2
  = (resolve_need_action (resolve_need_action st cid2).2 cid1).2.
Proof.
  unfold resolve_need_action. simpl. split.
  - rewrite resolve_keeps_others.
    + f_equal. apply bool_decide_eq_false. lia.
    + intros item Hitem. by apply list_elem_of_filter in Hitem as [? _].
  - unfold set_need_action. simpl. f_equal.
    induction (need_action st) as [|item q IH]; [done|].
    destruct (decide (NeedActionItem.card_id item = cid1)) as [E1|N1],
             (decide (NeedActionItem.card_id item = cid2)) as [E2|N2].
    + rewrite !filter_cons_False by (by intros Hn; apply Hn). done.
    + rewrite (filter_cons_False _ _ q) by (by intros Hn; apply Hn).
      rewrite (filter_cons_True _ _ q) by done.
      rewrite (filter_cons_False) by (by intros Hn; apply Hn). done.
    + rewrite (filter_cons_True _ _ q) by done.
      rewrite (filter_cons_False _ _ q) by (by intros Hn; apply Hn).
      rewrite (filter_cons_False) by (by intros Hn; apply Hn). done.
    + rewrite !filter_cons_True by done. by rewrite IH.
Qed.

Section Cycles.

Context {W : Type} (clk : Clock W) (sch : FlowScheduler W).

(** Once every batch of the source is processed, further cycles leave the
    state alone. *)
Lemma run_cycles_loop_settled batch_ids st :
  (∀ v, ∃ v', fetch_batches sch v = (Return batch_ids, v')) →
  (∀ v, ∃ v', sleep clk (interval_minutes sch * 60) v = (Return tt, v')) →
  (∀ bid, bid ∈ batch_ids → bid ∈ processed_batches st) →
  ∀ n v, (run_cycles_loop clk sch n st v).1 = (Return tt, st).
Proof.
  intros Hfetch Hsleep Hdone. induction n as [|n IH]; intros v; [done|].
  simpl. unfold run_once. destruct (Hfetch v) as [v' ->].
  rewrite new_batches_nil by done. simpl.
  destruct (Hsleep v') as [v'' ->]. apply IH.
Qed.

End Cycles.

(** X8. Polling an unchanged batch source.  When [fetch_batches] returns
    the same list at every call and [time.sleep] returns for the interval
    of the scheduler, [run_cycles] with one or more cycles returns normally
    and ends in the state that a single [run_once] gives: later cycles add
    nothing. *)
Theorem run_cycles_constant_source {W} (clk : Clock W) (sch : FlowScheduler W)
    batch_ids cycles st w :
  (∀ v, ∃ v', fetch_batches sch v = (Return batch_ids, v')) →
  (∀ v, ∃ v', sleep clk (interval_minutes sch * 60) v = (Return tt, v')) →
  0 < cycles →
  (run_cycles clk sch cycles st w).1 = (Return tt, (run_once clk sch st w).1.2).
Proof.
  intros Hfetch Hsleep Hpos. unfold run_cycles.
  destruct (Z.to_nat cycles) as [|n] eqn:En; [lia|]. simpl.
  destruct (Hfetch w) as [w0 Ef].
  destruct (run_once_returns clk sch st _ _ _ Ef) as (created & st1 & w1 & -> & El).
  simpl. destruct (Hsleep w1) as [w2 ->].
  apply run_cycles_loop_settled with (batch_ids := batch_ids); [done..|].
  apply run_loop_admission in El as [_ Hproc].
  intros bid Hbid. rewrite Hproc.
  destruct (decide (bid ∈ processed_batches st)) as [Hin|Hnin].
  - apply elem_of_union. by right.
  - apply elem_of_union. left. apply elem_of_list_to_set. by apply elem_of_new_batches.
Qed.

Lemma run_cycles_constant_source_witness :
  (run_cycles Script.clk Smoke.scheduler 3 empty_state (Script.at_noon [])).1
  = (Return tt, (run_once Script.clk Smoke.scheduler empty_state (Script.at_noon [])).1.2).
Proof.
  apply (run_cycles_constant_source Script.clk Smoke.scheduler Smoke.BATCHES 3
           empty_state (Script.at_noon [])).
  - intros v. exists v. reflexivity.
  - intros v. eexists. reflexivity.
  - lia.
Defined.

(** X9. The successful path.  When the four stage functions return, the
    generation and mapping results do not ask for manual action and the
    poster reports [POSTED], the card ends [POSTED] with the photo lists of
    the importer, the [ai_result], [mapped_avito] and [post_url] of the later
    stages, four new log lines and no new error; the history gets one
    record, carrying the card's ids and [post_url]; the queue is not
    touched. *)
Theorem posted_card_carries_stage_results {W} (clk : Clock W) (sch : FlowScheduler W)
    card st w t1 w1 photo_result w2 t2 w3 ai_response w4 t3 w5
    mapped_response w6 t4 w7 post_response w8 t5 w9 :
  utc_now clk w = (t1, w1) →
  import_photos sch (batch_id card) w1 = (Return photo_result, w2) →
  utc_now clk w2 = (t2, w3) →
  ai_client sch (get_list (get_photo_files photo_result)) (template_id card) w3
    = (Return ai_response, w4) →
  get_status ai_response ≠ Some "NEED_ACTION" →
  utc_now clk w4 = (t3, w5) →
  mapper sch (or_empty (get_ai_result ai_response))
    (get_list (get_photo_files photo_result)) w5 = (Return mapped_response, w6) →
  get_status mapped_response ≠ Some "NEED_ACTION" →
  utc_now clk w6 = (t4, w7) →
  poster sch (or_empty (get_mapped_avito mapped_response))
    (get_list (get_photo_files photo_result)) w7 = (Return post_response, w8) →
  get_status post_response = Some "POSTED" →
  utc_now clk w8 = (t5, w9) →
  _run_chain clk sch card st w
  = ({| card_id := card_id card; batch_id := batch_id card; status := "POSTED";
        photo_files := get_list (get_photo_files photo_result);
        photo_urls := get_list (get_photo_urls photo_result);
        template_id := template_id card;
        ai_result := get_ai_result ai_response;
        mapped_avito := get_mapped_avito mapped_response;
        post_url := get_post_url post_response;
        logs := logs card ++ [t1 +:+ " Importing photos"; t2 +:+ " Running AI";
                              t3 +:+ " Mapping to Avito"; t4 +:+ " Posting to Avito"];
        errors := errors card |},
     {| cards := cards st; need_action := need_action st;
        history :=
          history st ++
            [ {| PublicationRecord.card_id := card_id card;
                 PublicationRecord.batch_id := batch_id card;
                 PublicationRecord.post_url := get_post_url post_response;
                 PublicationRecord.status := "POSTED";
                 PublicationRecord.published_at := t5 |} ];
        processed_batches := processed_batches st |},
     w9).
Proof.
  intros E1 Ei E2 Ea Hs E3 Em Hs' E4 Ep Hp E5.
  unfold _run_chain.
  erewrite chain_body_import_returns by done.
  erewrite ai_stage_advances by done.
  erewrite map_stage_advances by done.
  unfold post_stage, log. simpl. rewrite E4. simpl. rewrite Ep, Hp. simpl.
  unfold add_history. rewrite E5. simpl.
  by rewrite <-!app_assoc.
Qed.

Lemma posted_card_carries_stage_results_witness :
  _run_chain Script.clk Smoke.scheduler
    (new_card "card_1700000000_1" "batch_1" "NEW") empty_state (Script.at_noon [])
  = ({| card_id := "card_1700000000_1"; batch_id := "batch_1"; status := "POSTED";
        photo_files := Some ["data/batch_1/01.jpg"; "data/batch_1/02.jpg"];
        photo_urls := Some ["https://photo/batch_1/01.jpg"; "https://photo/batch_1/02.jpg"];
        template_id := "sale";
        ai_result := Some Smoke.demo_car;
        mapped_avito := Some Smoke.demo_car;
        post_url := Some "https://avito.ru/item/batch_1";
        logs := [] ++ ["T1700000000 Importing photos"; "T1700000000 Running AI";
                       "T1700000000 Mapping to Avito"; "T1700000000 Posting to Avito"];
        errors := [] |},
     {| cards := ∅; need_action := [];
        history :=
          [] ++
            [ {| PublicationRecord.card_id := "card_1700000000_1";
                 PublicationRecord.batch_id := "batch_1";
                 PublicationRecord.post_url := Some "https://avito.ru/item/batch_1";
                 PublicationRecord.status := "POSTED";
                 PublicationRecord.published_at := "T1700000000" |} ];
        processed_batches := ∅ |},
     Script.at_noon []).
Proof.
  exact (posted_card_carries_stage_results Script.clk Smoke.scheduler
           (new_card "card_1700000000_1" "batch_1" "NEW") empty_state
           (Script.at_noon [])
           "T1700000000" (Script.at_noon []) _ (Script.at_noon [])
           "T1700000000" (Script.at_noon []) _ (Script.at_noon [])
           "T1700000000" (Script.at_noon []) _ (Script.at_noon [])
           "T1700000000" (Script.at_noon []) _ (Script.at_noon [])
           "T1700000000" (Script.at_noon [])
           eq_refl eq_refl eq_refl eq_refl ltac:(discriminate)
           eq_refl eq_refl ltac:(discriminate) eq_refl eq_refl eq_refl eq_refl).
Defined.

(** X10. Diversion before posting.  When the generation stage answers
    [NEED_ACTION], the chain stops there: the mapper and the poster are not
    called, and the [ai_result] of the card stays as it was even if the
    answer carries one.  If the answer has a list of errors, or no [errors]
    key, the card ends [NEED_ACTION] with these errors appended and the
    queue gets one entry whose reason is the errors joined by ["; "], or
    ["AI validation failed"] when that text is empty.  If the [errors] key
    holds [None], [errors.extend] raises: the card ends [FAILED] with the
    text of that [TypeError] appended, and the queue gets no entry.
    Likewise for the mapping stage, with [mapped_avito] left as it was and
    the fallback ["Mapping failed"]. *)
Theorem diversion_leaves_payload_unset {W} (clk : Clock W) (sch : FlowScheduler W)
    card st w t1 w1 photo_result w2 t2 w3 :
  utc_now clk w = (t1, w1) →
  import_photos sch (batch_id card) w1 = (Return photo_result, w2) →
  utc_now clk w2 = (t2, w3) →
  let files := get_list (get_photo_files photo_result) in
  let urls := get_list (get_photo_urls photo_result) in
  (∀ ai_response w4,
     ai_client sch files (template_id card) w3 = (Return ai_response, w4) →
     get_status ai_response = Some "NEED_ACTION" →
     let stopped status errs :=
       {| card_id := card_id card; batch_id := batch_id card; status := status;
          photo_files := files; photo_urls := urls;
          template_id := template_id card; ai_result := ai_result card;
          mapped_avito := mapped_avito card; post_url := post_url card;
          logs := logs card ++ [t1 +:+ " Importing photos"; t2 +:+ " Running AI"];
          errors := errors card ++ errs |} in
     (∀ errs,
        get_list (get_errors ai_response) = Some errs →
        _run_chain clk sch card st w
        = (stopped "NEED_ACTION" errs,
           {| cards := cards st;
              need_action :=
                need_action st ++
                  [item_of (stopped "NEED_ACTION" errs)
                     (join_or errs "AI validation failed")];
              history := history st; processed_batches := processed_batches st |},
           w4)) ∧
     (get_errors ai_response = Null →
        _run_chain clk sch card st w = (stopped "FAILED" [not_iterable], st, w4))) ∧
  (∀ ai_response w4 t3 w5 mapped_response w6,
     ai_client sch files (template_id card) w3 = (Return ai_response, w4) →
     get_status ai_response ≠ Some "NEED_ACTION" →
     utc_now clk w4 = (t3, w5) →
     mapper sch (or_empty (get_ai_result ai_response)) files w5
       = (Return mapped_response, w6) →
     get_status mapped_response = Some "NEED_ACTION" →
     let stopped status errs :=
       {| card_id := card_id card; batch_id := batch_id card; status := status;
          photo_files := files; photo_urls := urls;
          template_id := template_id card; ai_result := get_ai_result ai_response;
          mapped_avito := mapped_avito card; post_url := post_url card;
          logs := logs card ++ [t1 +:+ " Importing photos"; t2 +:+ " Running AI";
                                t3 +:+ " Mapping to Avito"];
          errors := errors card ++ errs |} in
     (∀ errs,
        get_list (get_errors mapped_response) = Some errs →
        _run_chain clk sch card st w
        = (stopped "NEED_ACTION" errs,
           {| cards := cards st;
              need_action :=
                need_action st ++
                  [item_of (stopped "NEED_ACTION" errs) (join_or errs "Mapping failed")];
              history := history st; processed_batches := processed_batches st |},
           w6)) ∧
     (get_errors mapped_response = Null →
        _run_chain clk sch card st w = (stopped "FAILED" [not_iterable], st, w6))).
Proof.
  intros E1 Ei E2 files urls.
  pose proof (chain_body_import_returns clk sch card st _ _ _ _ _ E1 Ei) as Hbody.
  split.
  - intros ai_response w4 Ea Hs stopped. split.
    + intros errs He. unfold _run_chain. rewrite Hbody.
      unfold ai_stage, log. simpl. rewrite E2. simpl. fold files.
      rewrite Ea, Hs, He. simpl. subst stopped. by rewrite <-!app_assoc.
    + intros He. unfold _run_chain. rewrite Hbody.
      unfold ai_stage, log. simpl. rewrite E2. simpl. fold files.
      rewrite Ea, Hs, He. simpl. subst stopped. destruct st. by rewrite <-!app_assoc.
  - intros ai_response w4 t3 w5 mapped_response w6 Ea Hs E3 Em Hs' stopped. split.
    + intros errs He. unfold _run_chain. rewrite Hbody.
      erewrite ai_stage_advances by done.
      unfold map_stage, log. simpl. rewrite E3. simpl. fold files.
      rewrite Em, Hs', He. simpl. subst stopped. by rewrite <-!app_assoc.
    + intros He. unfold _run_chain. rewrite Hbody.
      erewrite ai_stage_advances by done.
      unfold map_stage, log. simpl. rewrite E3. simpl. fold files.
      rewrite Em, Hs', He. simpl. subst stopped. destruct st. by rewrite <-!app_assoc.
Qed.

Lemma diversion_leaves_payload_unset_witness :
  _run_chain Script.clk Script.sch
    (new_card "card_1700000000_1" "blurry" "NEW") empty_state (Script.at_noon [])
  = ({| card_id := "card_1700000000_1"; batch_id := "blurry"; status := "NEED_ACTION";
        photo_files := Some ["blurry/01.jpg"];
        photo_urls := Some ["https://photo/blurry/01.jpg"];
        template_id := "sale"; ai_result := None;
        mapped_avito := None; post_url := None;
        logs := [] ++ ["T1700000000 Importing photos"; "T1700000000 Running AI"];
        errors := [] ++ ["title too short"] |},
     {| cards := ∅;
        need_action :=
          [] ++ [ {| NeedActionItem.card_id := "card_1700000000_1";
                     NeedActionItem.batch_id := "blurry";
                     NeedActionItem.reason := "title too short";
                     NeedActionItem.requires_manual_confirmation := true |} ];
        history := []; processed_batches := ∅ |},
     Script.at_noon []).
Proof.
  exact (proj1 (proj1 (diversion_leaves_payload_unset Script.clk Script.sch
                         (new_card "card_1700000000_1" "blurry" "NEW")
                         empty_state (Script.at_noon [])
                         "T1700000000" (Script.at_noon []) _ (Script.at_noon [])
                         "T1700000000" (Script.at_noon [])
                         eq_refl eq_refl eq_refl)
                  _ (Script.at_noon []) eq_refl eq_refl)
           ["title too short"] eq_refl).
Defined.

(** The generation stage of the scripted world answers ["NEED_ACTION"] with
    an [errors] key that holds [None] for the batch ["silent"]: the card
    ends [FAILED] and the queue stays empty. *)
Example null_errors_end_failed :
  let '(card, st, _) :=
    _run_chain Script.clk Script.sch
      (new_card "card_1700000000_1" "silent" "NEW") empty_state (Script.at_noon []) in
  status card = "FAILED" ∧
  errors card = ["'NoneType' object is not iterable"] ∧
  ai_result card = None ∧
  need_action st = [].
Proof. vm_compute. done. Qed.

(** ** The poster *)

Lemma Poster_or_else_nonempty x default :
  default ≠ "" → Poster.or_else x default ≠ "".
Proof.
  intros Hd. unfold Poster.or_else. destruct x as [s|]; [|done].
  by destruct (String.eqb_spec s "").
Qed.

Section PosterFacts.

Context {W : Type}.
Context (form_filler : Dict → list string → W → list string * Res Poster.FillResult * W).
Context (screenshotter : option (string → W → Res string * W)).

(** The screenshot step either leaves the world alone and gives no path, or
    it called the screenshotter with ["need_action"] or ["failed"]. *)
Lemma take_screenshot_cases status w :
  Poster.take_screenshot screenshotter status w = (Return None, w) ∧
    (screenshotter = None ∨
     (status ≠ Some "need_action" ∧ status ≠ Some "failed")) ∨
  ∃ shoot reason,
    screenshotter = Some shoot ∧ status = Some reason ∧
    (reason = "need_action" ∨ reason = "failed") ∧
    Poster.take_screenshot screenshotter status w
    = match shoot reason w with
      | (Return path, w') => (Return (Some path), w')
      | (Raise exc, w') => (Raise exc, w')
      end.
Proof.
  unfold Poster.take_screenshot.
  destruct status as [s|]; [|left; split; [by destruct screenshotter|by right]].
  destruct screenshotter as [shoot|]; [|left; split; [done|by left]].
  destruct (String.eqb_spec s "need_action") as [->|Hn]; simpl.
  { right. exists shoot, "need_action". repeat split; auto. }
  destruct (String.eqb_spec s "failed") as [->|Hf]; simpl.
  { right. exists shoot, "failed". repeat split; auto. }
  left. split; [done|]. right. split; congruence.
Qed.

End PosterFacts.

(** X11. Shape of a posting result.  A result of [post_listing] has status
    [POSTED], [NEED_ACTION] or [FAILED]; its step log is
    ["Starting Avito form fill"] followed by the steps the filler logged.
    A [POSTED] result has a [post_url] that is not empty, no errors and no
    screenshot; any other result has exactly one error, and its text is not
    empty. *)
Theorem post_listing_result_shape {W}
    (form_filler : Dict → list string → W → list string * Res Poster.FillResult * W)
    (screenshotter : option (string → W → Res string * W))
    mapped_avito photo_files w result w' :
  Poster.post_listing form_filler screenshotter mapped_avito photo_files w
    = (Return result, w') →
  Poster.step_log result
    = "Starting Avito form fill" :: (form_filler mapped_avito photo_files w).1.1 ∧
  ((Poster.status result = "POSTED" ∧
    Poster.errors result = [] ∧
    (∃ url, Poster.post_url result = Some url ∧ url ≠ "") ∧
    Poster.screenshot_path result = None) ∨
   ((Poster.status result = "NEED_ACTION" ∨ Poster.status result = "FAILED") ∧
    ∃ e, Poster.errors result = [e] ∧ e ≠ "")).
Proof.
  unfold Poster.post_listing.
  destruct (form_filler mapped_avito photo_files w) as [[steps outcome] w1]. simpl.
  set (triple := match outcome with Return _ => _ | Raise _ => _ end).
  destruct triple as [[status post_url] error_message] eqn:Et.
  destruct (take_screenshot_cases screenshotter status w1)
    as [[Hshot Hwhy]|(shoot & reason & -> & -> & Hreason & Hshot)]; rewrite Hshot.
  - destruct (status_is status "posted" && Poster.truthy post_url) eqn:Hp.
    + intros ?; simplify_eq/=. split; [done|]. left.
      apply andb_true_iff in Hp as [_ Hu]. repeat split; try done.
      destruct post_url as [url|]; [|done]. exists url. split; [done|].
      simpl in Hu. by destruct (String.eqb_spec url "").
    + destruct (status_is status "need_action"); intros ?; simplify_eq/=;
        (split; [done|]); right; (split; [auto|]); eexists; split; [done| |done|];
        by apply Poster_or_else_nonempty.
  - destruct (shoot reason w1) as [[path|exc] w2]; [|done].
    assert (status_is (Some reason) "posted" = false) as ->.
    { apply status_is_false. by destruct Hreason as [-> | ->]. }
    simpl. destruct (String.eqb reason "need_action"); intros ?; simplify_eq/=;
      (split; [done|]); right; (split; [auto|]); eexists; split; [done| |done|];
      by apply Poster_or_else_nonempty.
Qed.

Lemma post_listing_result_shape_witness :
  let r :=
    Poster.post_listing Poster.demo_filler (Some Poster.demo_screenshotter)
      [] ["captcha.jpg"] false in
  ∃ result,
    r.1 = Return result ∧
    Poster.step_log result
      = "Starting Avito form fill" :: (Poster.demo_filler [] ["captcha.jpg"] false).1.1 ∧
    ((Poster.status result = "POSTED" ∧
      Poster.errors result = [] ∧
      (∃ url, Poster.post_url result = Some url ∧ url ≠ "") ∧
      Poster.screenshot_path result = None) ∨
     ((Poster.status result = "NEED_ACTION" ∨ Poster.status result = "FAILED") ∧
      ∃ e, Poster.errors result = [e] ∧ e ≠ "")).
Proof.
  intros r. eexists. split; [reflexivity|].
  exact (post_listing_result_shape Poster.demo_filler (Some Poster.demo_screenshotter)
           [] ["captcha.jpg"] false _ _ eq_refl).
Defined.

(** X12. When a listing counts as posted.  [post_listing] answers [POSTED]
    exactly when the filler returned status ["posted"] together with a
    [post_url] that is not empty; it then returns that url and does not
    call the screenshotter. *)
Theorem post_listing_posted_iff {W}
    (form_filler : Dict → list string → W → list string * Res Poster.FillResult * W)
    (screenshotter : option (string → W → Res string * W))
    mapped_avito photo_files w steps outcome w1 :
  form_filler mapped_avito photo_files w = (steps, outcome, w1) →
  (∀ fill,
     outcome = Return fill →
     Poster.fill_status fill = Some "posted" →
     Poster.truthy (Poster.fill_post_url fill) = true →
     Poster.post_listing form_filler screenshotter mapped_avito photo_files w
     = (Return {| Poster.status := "POSTED";
                  Poster.post_url := Poster.fill_post_url fill;
                  Poster.errors := [];
                  Poster.step_log := "Starting Avito form fill" :: steps;
                  Poster.screenshot_path := None |}, w1)) ∧
  (∀ result w',
     Poster.post_listing form_filler screenshotter mapped_avito photo_files w
       = (Return result, w') →
     Poster.status result = "POSTED" →
     ∃ fill,
       outcome = Return fill ∧
       Poster.fill_status fill = Some "posted" ∧
       Poster.truthy (Poster.fill_post_url fill) = true).
Proof.
  intros Ef. unfold Poster.post_listing. rewrite Ef. split.
  - intros fill -> Hs Hu. rewrite Hs, Hu. simpl.
    by destruct screenshotter.
  - intros result w'.
    destruct outcome as [fill|exc].
    + destruct (Poster.take_screenshot _ _ _) as [[path|exc] w2]; [|done].
      destruct (status_is (Poster.fill_status fill) "posted"
                && Poster.truthy (Poster.fill_post_url fill)) eqn:Hp.
      * apply andb_true_iff in Hp as [Hs%status_is_true Hu]. intros _ _. by exists fill.
      * by destruct (status_is _ "need_action"); intros ?; simplify_eq/=.
    + destruct (Poster.take_screenshot _ _ _) as [[path|exc'] w2]; [|done].
      simpl. intros ?; simplify_eq/=. done.
Qed.

Lemma post_listing_posted_iff_witness :
  Poster.post_listing Poster.demo_filler (Some Poster.demo_screenshotter)
    [] ["01.jpg"] true
  = (Return {| Poster.status := "POSTED";
               Poster.post_url := Some "https://avito.ru/item/1";
               Poster.errors := [];
               Poster.step_log :=
                 "Starting Avito form fill"
                   :: ["Opening form"; "Uploading photos"; "Submitting"];
               Poster.screenshot_path := None |}, true).
Proof.
  exact (proj1 (post_listing_posted_iff Poster.demo_filler
                  (Some Poster.demo_screenshotter) [] ["01.jpg"] true _ _ _ eq_refl)
           _ eq_refl eq_refl eq_refl).
Defined.

(** X13. What [post_listing] lets escape.  An exception of the filler is
    caught; [post_listing] raises only when the screenshotter raises, and
    the screenshotter is called only with the reason ["need_action"] or
    ["failed"].  Without a screenshotter [post_listing] always returns. *)
Theorem post_listing_raises_only_in_screenshot {W}
    (form_filler : Dict → list string → W → list string * Res Poster.FillResult * W)
    (screenshotter : option (string → W → Res string * W))
    mapped_avito photo_files w :
  (∀ exc w',
     Poster.post_listing form_filler screenshotter mapped_avito photo_files w
       = (Raise exc, w') →
     ∃ shoot reason,
       screenshotter = Some shoot ∧
       (reason = "need_action" ∨ reason = "failed") ∧
       shoot reason (form_filler mapped_avito photo_files w).2 = (Raise exc, w')) ∧
  (screenshotter = None →
     ∃ result,
       Poster.post_listing form_filler screenshotter mapped_avito photo_files w
       = (Return result, (form_filler mapped_avito photo_files w).2)).
Proof.
  unfold Poster.post_listing.
  destruct (form_filler mapped_avito photo_files w) as [[steps outcome] w1]. simpl.
  set (triple := match outcome with Return _ => _ | Raise _ => _ end).
  destruct triple as [[status post_url] error_message] eqn:Et.
  split.
  - intros exc w'.
    destruct (take_screenshot_cases screenshotter status w1)
      as [[Hshot _]|(shoot & reason & -> & -> & Hreason & Hshot)]; rewrite Hshot.
    + by repeat case_match.
    + destruct (shoot reason w1) as [[path|exc'] w2] eqn:Es.
      * by repeat case_match.
      * intros ?; simplify_eq. by exists shoot, reason.
  - intros ->. unfold Poster.take_screenshot.
    replace (match status with Some _ | _ => (Return None, w1) end)
      with (@Return (option string) None, w1) by (by destruct status).
    repeat case_match; by eexists.
Qed.

Lemma post_listing_raises_only_in_screenshot_witness :
  ∃ shoot reason,
    Some Poster.demo_screenshotter = Some shoot ∧
    (reason = "need_action" ∨ reason = "failed") ∧
    shoot reason (Poster.demo_filler [] [] true).2
    = (Raise "No space left on device", true).
Proof.
  exact (proj1 (post_listing_raises_only_in_screenshot Poster.demo_filler
                  (Some Poster.demo_screenshotter) [] [] true)
           "No space left on device" true eq_refl).
Defined.

(** X14. A filler that raises.  The exception of the filler turns into a
    [FAILED] result without [post_url], whose one error is the text of the
    exception, or ["Posting failed"] when that text is empty; the step log
    keeps the steps logged before the exception, and a screenshotter that is
    given is called with the reason ["failed"]. *)
Theorem post_listing_filler_exception {W}
    (form_filler : Dict → list string → W → list string * Res Poster.FillResult * W)
    (screenshotter : option (string → W → Res string * W))
    mapped_avito photo_files w steps exc w1 :
  form_filler mapped_avito photo_files w = (steps, Raise exc, w1) →
  let failed path :=
    {| Poster.status := "FAILED"; Poster.post_url := None;
       Poster.errors := [if String.eqb exc "" then "Posting failed" else exc];
       Poster.step_log := "Starting Avito form fill" :: steps;
       Poster.screenshot_path := path |} in
  (screenshotter = None →
     Poster.post_listing form_filler screenshotter mapped_avito photo_files w
     = (Return (failed None), w1)) ∧
  (∀ shoot path w2,
     screenshotter = Some shoot →
     shoot "failed" w1 = (Return path, w2) →
     Poster.post_listing form_filler screenshotter mapped_avito photo_files w
     = (Return (failed (Some path)), w2)).
Proof.
  intros Ef failed. unfold Poster.post_listing. rewrite Ef. simpl. split.
  - intros ->. done.
  - intros shoot path w2 -> Es. simpl. by rewrite Es.
Qed.

Lemma post_listing_filler_exception_witness :
  Poster.post_listing Poster.demo_filler (Some Poster.demo_screenshotter) [] [] false
  = (Return {| Poster.status := "FAILED"; Poster.post_url := None;
               Poster.errors := ["no photos to upload"];
               Poster.step_log := "Starting Avito form fill" :: ["Opening form"];
               Poster.screenshot_path := Some "shots/failed.png" |}, false).
Proof.
  exact (proj2 (post_listing_filler_exception Poster.demo_filler
                  (Some Poster.demo_screenshotter) [] [] false _ _ _ eq_refl)
           Poster.demo_screenshotter "shots/failed.png" false eq_refl eq_refl).
Defined.

(** X15. Failures without a screenshot.  When the filler returns a status
    other than ["need_action"] and ["failed"] and the listing does not
    count as posted (status ["posted"] without a url, an unknown status, no
    status), the result is [FAILED] with the filler's error or
    ["Posting failed"], the [post_url] of the filler is passed on, and the
    screenshotter is not called even if one is given. *)
Theorem post_listing_failed_without_screenshot {W}
    (form_filler : Dict → list string → W → list string * Res Poster.FillResult * W)
    (screenshotter : option (string → W → Res string * W))
    mapped_avito photo_files w steps fill w1 :
  form_filler mapped_avito photo_files w = (steps, Return fill, w1) →
  Poster.fill_status fill ≠ Some "need_action" →
  Poster.fill_status fill ≠ Some "failed" →
  ¬ (Poster.fill_status fill = Some "posted" ∧
     Poster.truthy (Poster.fill_post_url fill) = true) →
  Poster.post_listing form_filler screenshotter mapped_avito photo_files w
  = (Return {| Poster.status := "FAILED";
               Poster.post_url := Poster.fill_post_url fill;
               Poster.errors := [Poster.or_else (Poster.fill_error fill) "Posting failed"];
               Poster.step_log := "Starting Avito form fill" :: steps;
               Poster.screenshot_path := None |}, w1).
Proof.
  intros Ef Hn Hf Hp. unfold Poster.post_listing. rewrite Ef.
  destruct (take_screenshot_cases screenshotter (Poster.fill_status fill) w1)
    as [[Hshot _]|(shoot & reason & _ & Hs & [-> | ->] & _)]; [|done..].
  rewrite Hshot.
  destruct (status_is _ "posted" && _) eqn:E.
  { apply andb_true_iff in E as [E1%status_is_true E2]. by destruct Hp. }
  apply status_is_false in Hn. by rewrite Hn.
Qed.

Lemma post_listing_failed_without_screenshot_witness :
  Poster.post_listing Poster.demo_filler (Some Poster.demo_screenshotter)
    [] ["lost.jpg"] true
  = (Return {| Poster.status := "FAILED";
               Poster.post_url := None;
               Poster.errors := [Poster.or_else None "Posting failed"];
               Poster.step_log :=
                 "Starting Avito form fill"
                   :: ["Opening form"; "Uploading photos"; "Submitting"];
               Poster.screenshot_path := None |}, true).
Proof.
  apply (post_listing_failed_without_screenshot Poster.demo_filler
           (Some Poster.demo_screenshotter) [] ["lost.jpg"] true _ _ _ eq_refl).
  - discriminate.
  - discriminate.
  - intros [_ H]. discriminate H.
Defined.

(** ** The mapper *)

Section Strip.

Context (isspace : N → bool).

Lemma lstrip_suffix text : ∃ pre, text = pre ++ Mapper.lstrip isspace text.
Proof.
  induction text as [|c rest [pre IH]]; [by exists []|]. simpl.
  destruct (isspace c); [|by exists []].
  exists (c :: pre). simpl. by rewrite <-IH.
Qed.

Lemma lstrip_head c rest : isspace c = false → Mapper.lstrip isspace (c :: rest) = c :: rest.
Proof. intros H. simpl. by rewrite H. Qed.

Lemma lstrip_idemp text :
  Mapper.lstrip isspace (Mapper.lstrip isspace text) = Mapper.lstrip isspace text.
Proof.
  induction text as [|c rest IH]; [done|]. simpl.
  destruct (isspace c) eqn:E; [done|]. simpl. by rewrite E.
Qed.

(** [lstrip] of a text with one more character at its end. *)
Lemma lstrip_snoc text c :
  Mapper.lstrip isspace (text ++ [c])
  = match Mapper.lstrip isspace text with
    | [] => if isspace c then [] else [c]
    | kept => kept ++ [c]
    end.
Proof.
  induction text as [|d rest IH]; [done|]. simpl.
  destruct (isspace d); [done|]. done.
Qed.

(** [rstrip], one character at a time from the front. *)
Lemma rstrip_cons c text :
  Mapper.rstrip isspace (c :: text)
  = match Mapper.rstrip isspace text with
    | [] => if isspace c then [] else [c]
    | kept => c :: kept
    end.
Proof.
  unfold Mapper.rstrip. rewrite reverse_cons, lstrip_snoc.
  destruct (Mapper.lstrip isspace (reverse text)) as [|d kept] eqn:E.
  - rewrite reverse_nil. by destruct (isspace c).
  - rewrite reverse_app, reverse_singleton. simpl.
    destruct (reverse (d :: kept)) as [|e l] eqn:Er; [|done].
    apply (f_equal reverse) in Er. rewrite reverse_involutive in Er. done.
Qed.

Lemma rstrip_nil : Mapper.rstrip isspace [] = [].
Proof. done. Qed.

Lemma rstrip_prefix text : ∃ post, text = Mapper.rstrip isspace text ++ post.
Proof.
  induction text as [|c rest [post IH]]; [by exists []|].
  rewrite rstrip_cons.
  destruct (Mapper.rstrip isspace rest) as [|d kept].
  - destruct (isspace c); [by exists (c :: rest)|]. exists rest. done.
  - exists post. simpl. f_equal. exact IH.
Qed.

Lemma rstrip_idemp text :
  Mapper.rstrip isspace (Mapper.rstrip isspace text) = Mapper.rstrip isspace text.
Proof.
  unfold Mapper.rstrip. by rewrite reverse_involutive, lstrip_idemp.
Qed.

Lemma length_lstrip text : (length (Mapper.lstrip isspace text) ≤ length text)%nat.
Proof.
  destruct (lstrip_suffix text) as [pre E]. rewrite E at 2. rewrite length_app. lia.
Qed.

Lemma length_rstrip text : (length (Mapper.rstrip isspace text) ≤ length text)%nat.
Proof.
  destruct (rstrip_prefix text) as [post E]. rewrite E at 2. rewrite length_app. lia.
Qed.

(** [rstrip] keeps a text stripped on the left stripped on the left. *)
Lemma lstrip_rstrip text :
  Mapper.lstrip isspace text = text →
  Mapper.lstrip isspace (Mapper.rstrip isspace text) = Mapper.rstrip isspace text.
Proof.
  destruct text as [|c rest]; [done|]. simpl.
  destruct (isspace c) eqn:E.
  - intros H. pose proof (length_lstrip rest) as Hl. rewrite H in Hl. simpl in Hl. lia.
  - intros _. rewrite rstrip_cons.
    destruct (Mapper.rstrip isspace rest); rewrite ?E; simpl; by rewrite E.
Qed.

(** A prefix of a text stripped on the left is stripped on the left. *)
Lemma lstrip_take n text :
  Mapper.lstrip isspace text = text →
  Mapper.lstrip isspace (take n text) = take n text.
Proof.
  destruct text as [|c rest]; [by rewrite take_nil|]. simpl.
  destruct (isspace c) eqn:E.
  - intros H. pose proof (length_lstrip rest) as Hl. rewrite H in Hl. simpl in Hl. lia.
  - intros _. destruct n; simpl; [done|]. by rewrite E.
Qed.

Lemma stripped_strip text : stripped isspace (Mapper.strip isspace text).
Proof.
  unfold stripped, Mapper.strip. split; [|apply rstrip_idemp].
  apply lstrip_rstrip, lstrip_idemp.
Qed.

Lemma stripped_rstrip_take n text :
  stripped isspace text → stripped isspace (Mapper.rstrip isspace (take n text)).
Proof.
  intros [Hl _]. split; [|apply rstrip_idemp].
  by apply lstrip_rstrip, lstrip_take.
Qed.

Lemma strip_stripped text : stripped isspace text → Mapper.strip isspace text = text.
Proof. intros [Hl Hr]. unfold Mapper.strip. by rewrite Hl. Qed.

End Strip.

Lemma slice_to_prefix stop text :
  ∃ n, Mapper.slice_to stop text = take n text.
Proof. unfold Mapper.slice_to. case_match; by eexists. Qed.

Lemma length_slice_to stop text :
  0 ≤ stop → Z.of_nat (length (Mapper.slice_to stop text)) ≤ stop.
Proof.
  intros H. unfold Mapper.slice_to.
  destruct (Z.leb_spec 0 stop); [|lia]. rewrite length_take. lia.
Qed.

Section Runs.

Context (class : N → bool).

Lemma runs_below_lt k n text : runs_below class k n text → (n < k)%nat.
Proof.
  revert n. induction text as [|c rest IH]; intros n; simpl; [done|].
  destruct (class c); [|by intros [? _]]. intros H%IH. lia.
Qed.

Lemma runs_below_mono k n n' text :
  (n' ≤ n)%nat → runs_below class k n text → runs_below class k n' text.
Proof.
  revert n n'. induction text as [|c rest IH]; intros n n' Hn; simpl; [lia|].
  destruct (class c).
  - apply IH. lia.
  - intros [? ?]. split; [lia|done].
Qed.

(** A run of characters of the class in front of a text. *)
Lemma runs_below_app_class k n run text :
  Forall (λ c, class c = true) run →
  runs_below class k n (run ++ text) ↔ runs_below class k (n + length run) text.
Proof.
  intros Hrun. revert n. induction Hrun as [|c run Hc _ IH]; intros n; simpl.
  - by rewrite Nat.add_0_r.
  - rewrite Hc, IH. by rewrite Nat.add_succ_r.
Qed.

(** Characters outside the class, at least one, in front of a text. *)
Lemma runs_below_app_other k n other text :
  Forall (λ c, class c = false) other → other ≠ [] →
  runs_below class k n (other ++ text) ↔ (n < k)%nat ∧ runs_below class k 0 text.
Proof.
  intros Hother Hne. revert n.
  induction Hother as [|c other Hc Hother IH]; intros n; [done|]. simpl. rewrite Hc.
  destruct other as [|d other]; [done|].
  rewrite IH by done. split; [intros (? & _ & ?)|intros [? ?]]; [done|].
  split; [done|]. split; [|done]. by eapply runs_below_lt.
Qed.

Lemma runs_below_prefix k n text1 text2 :
  runs_below class k n (text1 ++ text2) → runs_below class k n text1.
Proof.
  revert n. induction text1 as [|c rest IH]; intros n; simpl.
  - apply runs_below_lt.
  - destruct (class c); [apply IH|]. intros [? ?]. split; [done|]. by apply IH.
Qed.

Lemma runs_below_suffix k n text1 text2 :
  runs_below class k n (text1 ++ text2) → runs_below class k 0 text2.
Proof.
  revert n. induction text1 as [|c rest IH]; intros n; simpl.
  - apply runs_below_mono. lia.
  - destruct (class c); [apply IH|]. intros [_ ?]. by eapply IH.
Qed.

(** A text without characters of the class has no run at all. *)
Lemma runs_below_none k text :
  (0 < k)%nat → Forall (λ c, class c = false) text → runs_below class k 0 text.
Proof.
  intros Hk. induction 1 as [|c rest Hc _ IH]; simpl; [done|]. by rewrite Hc.
Qed.

(** [k] characters of the class in a row contradict [runs_below]. *)
Lemma runs_below_no_run k n text1 c text2 :
  class c = true →
  ¬ runs_below class k n (text1 ++ replicate k c ++ text2).
Proof.
  intros Hc H%runs_below_suffix.
  apply runs_below_app_class in H; [|by apply Forall_replicate].
  apply runs_below_lt in H. rewrite length_replicate in H. lia.
Qed.

(** [re.sub] leaves a text alone that has no run long enough. *)
Lemma sub_runs_id least repl run text :
  Forall (λ c, class c = true) run →
  runs_below class least (length run) text →
  Mapper.sub_runs class least repl run text = run ++ text.
Proof.
  revert run. induction text as [|c rest IH]; intros run Hrun; simpl.
  - intros Hlt. unfold Mapper.flush. rewrite decide_False by lia. by rewrite app_nil_r.
  - destruct (class c) eqn:Hc.
    + intros H. rewrite IH.
      * by rewrite <-app_assoc.
      * apply Forall_app. split; [done|]. by constructor.
      * rewrite length_app. simpl. by rewrite Nat.add_1_r.
    + intros [Hlt H]. unfold Mapper.flush. rewrite decide_False by lia.
      rewrite (IH []); [done|constructor|done].
Qed.

(** The characters [re.sub] writes come from the text or the replacement. *)
Lemma sub_runs_elem least repl run text x :
  x ∈ Mapper.sub_runs class least repl run text → x ∈ run ∨ x ∈ text ∨ x ∈ repl.
Proof.
  revert run. induction text as [|c rest IH]; intros run; simpl.
  - unfold Mapper.flush. case_decide; auto.
  - destruct (class c).
    + intros [H|[H|H]]%IH; [|right; left; by right|auto].
      apply elem_of_app in H as [H|H%list_elem_of_singleton]; [auto|].
      subst. right. left. by left.
    + intros [H|H]%elem_of_app.
      * unfold Mapper.flush in H. case_decide; auto.
      * apply elem_of_cons in H as [->|H]; [right; left; by left|].
        apply IH in H as [H|[H|H]]; [by apply elem_of_nil in H|right; left; by right|auto].
Qed.

(** A replacement made of fewer than [least] characters of the class
    leaves no run of [least] of them. *)
Lemma sub_runs_runs_below least repl run text :
  Forall (λ c, class c = true) repl → (length repl < least)%nat →
  Forall (λ c, class c = true) run →
  runs_below class least 0 (Mapper.sub_runs class least repl run text).
Proof.
  intros Hrepl Hlen. revert run.
  assert (∀ run, Forall (λ c, class c = true) run →
            Forall (λ c, class c = true) (Mapper.flush least repl run) ∧
            (length (Mapper.flush least repl run) < least)%nat) as Hflush.
  { intros run Hrun. unfold Mapper.flush. case_decide; [done|]. split; [done|lia]. }
  induction text as [|c rest IH]; intros run Hrun; simpl.
  - destruct (Hflush run Hrun) as [Hf Hl].
    rewrite <-(app_nil_r (Mapper.flush _ _ _)).
    apply runs_below_app_class; [done|]. simpl. lia.
  - destruct (class c) eqn:Hc.
    + apply IH. apply Forall_app. split; [done|]. by constructor.
    + destruct (Hflush run Hrun) as [Hf Hl].
      apply runs_below_app_class; [done|]. simpl. rewrite Hc.
      split; [lia|]. apply IH. constructor.
Qed.

(** With [least = 1] and a replacement outside the class no character of
    the class is left. *)
Lemma sub_runs_removes repl run text :
  Forall (λ c, class c = false) repl →
  Forall (λ c, class c = false) (Mapper.sub_runs class 1 repl run text).
Proof.
  intros Hrepl. revert run.
  induction text as [|c rest IH]; intros run; simpl.
  - unfold Mapper.flush. case_decide; [done|].
    destruct run; [constructor|simpl in *; lia].
  - destruct (class c) eqn:Hc.
    + apply IH.
    + apply Forall_app. split.
      * unfold Mapper.flush. case_decide; [done|].
        destruct run; [constructor|simpl in *; lia].
      * constructor; [done|]. apply IH.
Qed.

End Runs.

(** [re.sub] on the runs of one class does not lengthen the runs of
    another class, as long as it puts something for every run it replaces. *)
Lemma sub_runs_keeps_runs (p q : N → bool) least repl k :
  (∀ c, p c = true → q c = false) →
  (0 < least)%nat →
  Forall (λ c, p c = true) repl → repl ≠ [] →
  ∀ text run n,
    Forall (λ c, p c = true) run →
    runs_below q k n (run ++ text) →
    runs_below q k n (Mapper.sub_runs p least repl run text).
Proof.
  intros Hpq Hleast Hrepl Hne.
  assert (∀ l, Forall (λ c, p c = true) l → Forall (λ c, q c = false) l) as Hq.
  { intros l Hl. eapply Forall_impl; [done|]. auto. }
  assert (∀ run n text,
            Forall (λ c, p c = true) run →
            runs_below q k n (run ++ text) →
            runs_below q k n (Mapper.flush least repl run ++ text)) as Hflush.
  { intros run n text Hrun H. unfold Mapper.flush. case_decide; [|done].
    destruct run as [|c run]; [simpl in *; lia|].
    apply runs_below_app_other in H; [|by apply Hq|done].
    apply runs_below_app_other; [by apply Hq|done..]. }
  induction text as [|c rest IH]; intros run n Hrun H; simpl.
  - rewrite <-(app_nil_r (Mapper.flush _ _ _)). by apply Hflush.
  - destruct (p c) eqn:Hc.
    + apply IH.
      * apply Forall_app. split; [done|]. by constructor.
      * by rewrite <-app_assoc.
    + apply (Hflush run n (c :: Mapper.sub_runs p least repl [] rest) Hrun).
      destruct run as [|d run].
      * simpl in *. destruct (q c).
        -- by apply (IH [] (S n)).
        -- destruct H as [? H]. split; [done|]. by apply (IH [] 0%nat).
      * apply runs_below_app_other in H as [Hn H]; [|by apply Hq|done].
        apply runs_below_app_other; [by apply Hq|done|]. split; [done|].
        simpl in *. destruct (q c).
        -- by apply (IH [] 1%nat).
        -- destruct H as [? H]. split; [done|]. by apply (IH [] 0%nat).
Qed.

Section Normal.

Context (isspace : N → bool).

Lemma normal_prefix text1 text2 : normal (text1 ++ text2) → normal text1.
Proof.
  intros (Hcr & Htfv & Hlf & Hsp). repeat split.
  - intros H. apply Hcr, elem_of_app. by left.
  - by apply Forall_app in Htfv as [? _].
  - by eapply runs_below_prefix.
  - by eapply runs_below_prefix.
Qed.

Lemma normal_suffix text1 text2 : normal (text1 ++ text2) → normal text2.
Proof.
  intros (Hcr & Htfv & Hlf & Hsp). repeat split.
  - intros H. apply Hcr, elem_of_app. by right.
  - by apply Forall_app in Htfv as [_ ?].
  - by eapply runs_below_suffix.
  - by eapply runs_below_suffix.
Qed.

Lemma normal_lstrip text : normal text → normal (Mapper.lstrip isspace text).
Proof.
  destruct (lstrip_suffix isspace text) as [pre E]. rewrite E at 1. apply normal_suffix.
Qed.

Lemma normal_rstrip text : normal text → normal (Mapper.rstrip isspace text).
Proof.
  destruct (rstrip_prefix isspace text) as [post E]. rewrite E at 1. apply normal_prefix.
Qed.

Lemma normal_take n text : normal text → normal (take n text).
Proof. rewrite <-(take_drop n text) at 1. apply normal_prefix. Qed.

Lemma replace_crlf_elem text x : x ∈ Mapper.replace_crlf text → x ∈ text ∨ x = 10%N.
Proof.
  induction text as [text IH] using (induction_ltof1 _ length).
  unfold ltof in IH.
  destruct text as [|c [|d rest]]; simpl; [auto..|].
  destruct ((c =? 13)%N && (d =? 10)%N).
  - intros [->|H]%elem_of_cons; [auto|].
    apply IH in H as [H|H]; [|auto|simpl; lia]. left. by do 2 right.
  - intros [->|H]%elem_of_cons; [left; by left|].
    apply (IH (d :: rest)) in H as [H|H]; [|auto|simpl; lia]. left. by right.
Qed.

(** The text after the five substitutions of [_clean_text]. *)
Lemma substituted_normal text :
  normal
    (Mapper.sub_runs (N.eqb 32) 2 [32%N] []
       (Mapper.sub_runs (N.eqb 10) 3 [10%N; 10%N] []
          (Mapper.sub_runs Mapper.is_tab_ff_vt 1 [32%N] []
             (Mapper.replace_cr (Mapper.replace_crlf text))))).
Proof.
  set (t2 := Mapper.replace_cr _).
  set (t3 := Mapper.sub_runs Mapper.is_tab_ff_vt _ _ _ _).
  set (t4 := Mapper.sub_runs (N.eqb 10) _ _ _ _).
  assert (13%N ∉ t2) as H2.
  { unfold t2, Mapper.replace_cr. intros (c & Hc & _)%list_elem_of_fmap.
    by destruct (N.eqb_spec c 13). }
  assert (13%N ∉ t3) as H3.
  { intros [H|[H|H]]%sub_runs_elem; [by apply elem_of_nil in H|done|].
    by apply list_elem_of_singleton in H. }
  assert (Forall (λ c, Mapper.is_tab_ff_vt c = false) t3) as Ht3.
  { apply sub_runs_removes. by repeat constructor. }
  assert (13%N ∉ t4) as H4.
  { intros [H|[H|H]]%sub_runs_elem; [by apply elem_of_nil in H|done|].
    by repeat (apply elem_of_cons in H as [?|H]; [done|]); apply elem_of_nil in H. }
  assert (Forall (λ c, Mapper.is_tab_ff_vt c = false) t4) as Ht4.
  { apply Forall_forall. intros x [H|[H|H]]%sub_runs_elem.
    - by apply elem_of_nil in H.
    - by eapply Forall_forall in Ht3.
    - by repeat (apply elem_of_cons in H as [->|H]; [done|]); apply elem_of_nil in H. }
  assert (runs_below (N.eqb 10) 3 0 t4) as Hlf.
  { apply sub_runs_runs_below; [by repeat constructor|simpl; lia|constructor]. }
  repeat split.
  - intros [H|[H|H]]%sub_runs_elem; [by apply elem_of_nil in H|done|].
    by apply list_elem_of_singleton in H.
  - apply Forall_forall. intros x [H|[H|H]]%sub_runs_elem.
    + by apply elem_of_nil in H.
    + by eapply Forall_forall in Ht4.
    + by apply list_elem_of_singleton in H as ->.
  - apply sub_runs_keeps_runs; [|lia|by repeat constructor|done|constructor|done].
    intros c Hc%N.eqb_eq. by subst.
  - apply sub_runs_runs_below; [by repeat constructor|simpl; lia|constructor].
Qed.

Lemma clean_text_normal_stripped text max_length :
  normal (Mapper._clean_text isspace text max_length) ∧
  stripped isspace (Mapper._clean_text isspace text max_length).
Proof.
  unfold Mapper._clean_text.
  pose proof (substituted_normal text) as Hn.
  set (s := Mapper.sub_runs (N.eqb 32) _ _ _ _) in *.
  assert (normal (Mapper.strip isspace s)) as Hstrip.
  { by apply normal_rstrip, normal_lstrip. }
  case_match.
  - destruct (slice_to_prefix max_length (Mapper.strip isspace s)) as [n ->].
    split; [by apply normal_rstrip, normal_take|].
    apply stripped_rstrip_take, stripped_strip.
  - split; [done|apply stripped_strip].
Qed.

(** The substitutions of [_clean_text] leave a normal text alone. *)
Lemma substitutions_id text :
  normal text →
  Mapper.sub_runs (N.eqb 32) 2 [32%N] []
    (Mapper.sub_runs (N.eqb 10) 3 [10%N; 10%N] []
       (Mapper.sub_runs Mapper.is_tab_ff_vt 1 [32%N] []
          (Mapper.replace_cr (Mapper.replace_crlf text)))) = text.
Proof.
  intros (Hcr & Htfv & Hlf & Hsp).
  assert (Mapper.replace_crlf text = text) as ->.
  { clear Htfv Hlf Hsp.
    induction text as [text IH] using (induction_ltof1 _ length). unfold ltof in IH.
    destruct text as [|c [|d rest]]; simpl; [done..|].
    destruct (N.eqb_spec c 13) as [->|_]; simpl.
    - destruct Hcr. by left.
    - f_equal. apply (IH (d :: rest)); [simpl; lia|].
      intros H. apply Hcr. by right. }
  assert (Mapper.replace_cr text = text) as ->.
  { unfold Mapper.replace_cr. clear Htfv Hlf Hsp.
    induction text as [|c rest IH]; [done|]. simpl.
    destruct (N.eqb_spec c 13) as [->|_].
    - destruct Hcr. by left.
    - f_equal. apply IH. intros H. apply Hcr. by right. }
  rewrite (sub_runs_id Mapper.is_tab_ff_vt); [|constructor|by apply runs_below_none; [lia|]].
  rewrite (sub_runs_id (N.eqb 10)); [|constructor|done].
  by rewrite (sub_runs_id (N.eqb 32)); [|constructor|done].
Qed.

End Normal.

Lemma clean_text_length (isspace : N → bool) text max_length :
  0 ≤ max_length →
  Z.of_nat (length (Mapper._clean_text isspace text max_length)) ≤ max_length.
Proof.
  intros Hmax. unfold Mapper._clean_text.
  destruct (Z.ltb_spec max_length
              (Z.of_nat (length (Mapper.strip isspace
                 (Mapper.sub_runs (N.eqb 32) 2 [32%N] []
                    (Mapper.sub_runs (N.eqb 10) 3 [10%N; 10%N] []
                       (Mapper.sub_runs Mapper.is_tab_ff_vt 1 [32%N] []
                          (Mapper.replace_cr (Mapper.replace_crlf text)))))))))
    as [Hlt|Hge]; [|done].
  etrans; [|by apply (length_slice_to max_length)].
  apply inj_le, length_rstrip.
Qed.

(** X16. Length bound of [_clean_text].  For a [max_length] that is not
    negative the cleaned text has at most [max_length] characters. *)
Theorem clean_text_bounded (isspace : N → bool) text max_length :
  0 ≤ max_length →
  Z.of_nat (length (Mapper._clean_text isspace text max_length)) ≤ max_length.
Proof. apply clean_text_length. Qed.

Lemma clean_text_bounded_witness :
  Z.of_nat (length (Mapper._clean_text Mapper.unicode_space
                      (Mapper.lit "Toyota   Camry 2019,  one owner") 12)) ≤ 12.
Proof.
  apply (clean_text_bounded Mapper.unicode_space
           (Mapper.lit "Toyota   Camry 2019,  one owner") 12).
  lia.
Defined.

(** X17. Shape of a cleaned text.  Whatever the text and the bound, the
    result of [_clean_text] contains no carriage return, tab, form feed or
    vertical tab, never three line feeds in a row, never two spaces in a
    row, and neither begins nor ends with white space. *)
Theorem clean_text_shape (isspace : N → bool) text max_length :
  let cleaned := Mapper._clean_text isspace text max_length in
  (∀ c, c ∈ cleaned → c ≠ 13%N ∧ c ≠ 9%N ∧ c ≠ 12%N ∧ c ≠ 11%N) ∧
  (∀ before after, cleaned ≠ before ++ [10%N; 10%N; 10%N] ++ after) ∧
  (∀ before after, cleaned ≠ before ++ [32%N; 32%N] ++ after) ∧
  (∀ c rest, cleaned = c :: rest → isspace c = false) ∧
  (∀ rest c, cleaned = rest ++ [c] → isspace c = false).
Proof.
  intros cleaned.
  destruct (clean_text_normal_stripped isspace text max_length)
    as [(Hcr & Htfv & Hlf & Hsp) [Hl Hr]].
  fold cleaned in Hcr, Htfv, Hlf, Hsp, Hl, Hr.
  split; [|split; [|split; [|split]]].
  - intros c Hc. split; [by intros ->|].
    eapply Forall_forall in Htfv; [|done].
    unfold Mapper.is_tab_ff_vt in Htfv.
    repeat split; intros ->; done.
  - intros before after E. rewrite E in Hlf.
    by apply (runs_below_no_run (N.eqb 10) 3 0 before 10%N after) in Hlf.
  - intros before after E. rewrite E in Hsp.
    by apply (runs_below_no_run (N.eqb 32) 2 0 before 32%N after) in Hsp.
  - intros c rest E. rewrite E in Hl. simpl in Hl.
    destruct (isspace c); [|done].
    pose proof (length_lstrip isspace rest) as Hlen. rewrite Hl in Hlen. simpl in Hlen. lia.
  - intros rest c E. rewrite E in Hr. unfold Mapper.rstrip in Hr.
    rewrite reverse_app, reverse_singleton in Hr. simpl in Hr.
    destruct (isspace c); [|done].
    apply (f_equal length) in Hr. rewrite length_reverse, length_app in Hr. simpl in Hr.
    pose proof (length_lstrip isspace (reverse rest)) as Hlen.
    rewrite length_reverse in Hlen. lia.
Qed.

(** X18. Cleaning is idempotent.  For a [max_length] that is not negative,
    cleaning a cleaned text with the same bound gives it back. *)
Theorem clean_text_idempotent (isspace : N → bool) text max_length :
  0 ≤ max_length →
  Mapper._clean_text isspace (Mapper._clean_text isspace text max_length) max_length
  = Mapper._clean_text isspace text max_length.
Proof.
  intros Hmax.
  pose proof (clean_text_length isspace text max_length Hmax) as Hlen.
  destruct (clean_text_normal_stripped isspace text max_length) as [Hn Hs].
  set (cleaned := Mapper._clean_text isspace text max_length) in *.
  unfold Mapper._clean_text at 1.
  rewrite substitutions_id by done. rewrite strip_stripped by done.
  destruct (Z.ltb_spec max_length (Z.of_nat (length cleaned))); [lia|done].
Qed.

Lemma clean_text_idempotent_witness :
  Mapper._clean_text Mapper.unicode_space
    (Mapper._clean_text Mapper.unicode_space
       (Mapper.lit "Toyota   Camry 2019,  one owner") 12) 12
  = Mapper._clean_text Mapper.unicode_space
      (Mapper.lit "Toyota   Camry 2019,  one owner") 12.
Proof.
  apply (clean_text_idempotent Mapper.unicode_space
           (Mapper.lit "Toyota   Camry 2019,  one owner") 12).
  lia.
Defined.

(** *** The order of [str] *)

Lemma str_leb_refl a : Mapper.str_leb a a = true.
Proof. induction a as [|x a IH]; [done|]. simpl. by rewrite N.eqb_refl. Qed.

Lemma str_le_trans : Transitive Mapper.str_le.
Proof.
  unfold Mapper.str_le. intros a.
  induction a as [|x a IH]; intros [|y b] [|z c]; simpl; try done.
  destruct (N.eqb_spec x y), (N.eqb_spec y z), (N.eqb_spec x z); subst;
    rewrite ?N.ltb_lt; try done; try (intros; lia).
  apply IH.
Qed.

#[local] Existing Instance str_le_trans.

Lemma str_le_antisymm : AntiSymm (=) Mapper.str_le.
Proof.
  unfold Mapper.str_le. intros a. induction a as [|x a IH]; intros [|y b]; simpl; try done.
  destruct (N.eqb_spec x y) as [->|Hxy].
  - rewrite N.eqb_refl. intros H1 H2. f_equal. by apply IH.
  - destruct (N.eqb_spec y x); [done|].
    intros H1%N.ltb_lt H2%N.ltb_lt. lia.
Qed.

#[local] Existing Instance str_le_antisymm.

Lemma str_le_total : Total Mapper.str_le.
Proof.
  unfold Mapper.str_le. intros a. induction a as [|x a IH]; intros [|y b]; simpl; auto.
  destruct (N.eqb_spec x y) as [->|Hxy].
  - rewrite N.eqb_refl. apply IH.
  - destruct (N.eqb_spec y x); [done|].
    destruct (N.ltb_spec x y), (N.ltb_spec y x); auto; lia.
Qed.

#[local] Existing Instance str_le_total.

(** [sorted] does not depend on the order of its argument. *)
Lemma sorted_Permutation strs1 strs2 :
  strs1 ≡ₚ strs2 → Mapper.sorted strs1 = Mapper.sorted strs2.
Proof.
  intros Hp. unfold Mapper.sorted.
  apply (Sorted_unique Mapper.str_le); [apply Sorted_merge_sort, _..|].
  by rewrite !merge_sort_Permutation.
Qed.

Lemma validate_required_fields_empty {F} (float_nonzero : F → bool)
    (avito_fields : gmap Mapper.pystr (Mapper.jval F)) required_fields :
  Mapper._validate_required_fields float_nonzero avito_fields required_fields = [] ↔
  ∀ field, field ∈ required_fields →
    Mapper.truthy float_nonzero (Mapper.get avito_fields field) = true.
Proof.
  unfold Mapper._validate_required_fields.
  set (P := λ field, Mapper.truthy float_nonzero (Mapper.get avito_fields field) = false).
  case_bool_decide as Hm.
  - split; [|done]. intros _ field Hin.
    destruct (Mapper.truthy float_nonzero (Mapper.get avito_fields field)) eqn:E; [done|].
    assert (field ∈ filter P required_fields) as Hf by (by apply list_elem_of_filter).
    rewrite Hm in Hf. by apply elem_of_nil in Hf.
  - split; [done|]. intros Hall. destruct Hm.
    destruct (filter P required_fields) as [|field rest] eqn:E; [done|].
    assert (field ∈ filter P required_fields) as Hf by (rewrite E; by left).
    apply list_elem_of_filter in Hf as [Hf Hin]. unfold P in Hf.
    by rewrite (Hall field Hin) in Hf.
Qed.

(** X19. Required fields.  [_validate_required_fields] answers with no
    message exactly when every required field has a truthy value, and with
    one message otherwise; the message does not depend on the order in
    which the required fields are given, so the default, a set, is as good
    as a list. *)
Theorem validate_required_fields_message {F} (float_nonzero : F → bool)
    (avito_fields : gmap Mapper.pystr (Mapper.jval F)) required_fields :
  let messages :=
    Mapper._validate_required_fields float_nonzero avito_fields required_fields in
  (messages = [] ↔
   ∀ field, field ∈ required_fields →
     Mapper.truthy float_nonzero (Mapper.get avito_fields field) = true) ∧
  (length messages ≤ 1)%nat ∧
  (∀ other_order,
     required_fields ≡ₚ other_order →
     Mapper._validate_required_fields float_nonzero avito_fields other_order = messages).
Proof.
  intros messages. subst messages. unfold Mapper._validate_required_fields.
  set (P := λ field, Mapper.truthy float_nonzero (Mapper.get avito_fields field) = false).
  split; [|split].
  - apply validate_required_fields_empty.
  - case_bool_decide; simpl; lia.
  - intros other Hperm.
    assert (filter P other ≡ₚ filter P required_fields) as Hfp by (by rewrite Hperm).
    rewrite (sorted_Permutation _ _ Hfp).
    destruct (decide (filter P other = [])) as [E1|N1],
             (decide (filter P required_fields = [])) as [E2|N2].
    + by rewrite !bool_decide_eq_true_2.
    + rewrite E1 in Hfp. symmetry in Hfp. by apply Permutation_nil_r in Hfp.
    + rewrite E2 in Hfp. by apply Permutation_nil_r in Hfp.
    + by rewrite !bool_decide_eq_false_2.
Qed.


Section MapToAvito.

Context {F : Type} (float_nonzero : F → bool) (isspace : N → bool).

Lemma nonempty_str_check (v : Mapper.jval F) :
  negb (Mapper.truthy float_nonzero v) || negb (Mapper.is_str v) = false ↔ nonempty_str v.
Proof.
  unfold nonempty_str. destruct v as [| | | |s| |]; simpl; rewrite ?orb_true_r;
    try (split; [done|by intros (? & ? & ?)]).
  rewrite orb_false_r, negb_involutive.
  case_bool_decide as H; simpl.
  - subst. split; [done|]. by intros (s & [= <-] & ?).
  - split; [|done]. intros _. by exists s.
Qed.

(** What [map_to_avito] does once it has a dict of fields. *)
Lemma map_to_avito_with_fields ai_result photo_files required_fields avito_fields :
  fields_read float_nonzero ai_result avito_fields →
  Mapper.map_to_avito float_nonzero isspace ai_result photo_files required_fields
  = let title := Mapper.get ai_result (Mapper.lit "title") in
    let description := Mapper.get ai_result (Mapper.lit "description") in
    let errors :=
      ((if negb (Mapper.truthy float_nonzero title) || negb (Mapper.is_str title)
        then [Mapper.lit "title is required"] else []) ++
       (if negb (Mapper.truthy float_nonzero description) || negb (Mapper.is_str description)
        then [Mapper.lit "description is required"] else []) ++
       Mapper._validate_required_fields float_nonzero avito_fields required_fields) ++
      (if bool_decide (Mapper._prepare_photos photo_files = [])
       then [Mapper.lit "At least one photo is required"] else []) in
    if bool_decide (errors = []) then
      {| Mapper.status := "READY_TO_POST";
         Mapper.mapped_avito :=
           Some (avito_fields ∪
                 <[Mapper.lit "title" :=
                     Mapper.JStr (Mapper._clean_text isspace (Mapper.str_of title) 100)]>
                   (<[Mapper.lit "description" :=
                        Mapper.JStr (Mapper._clean_text isspace (Mapper.str_of description) 3000)]>
                      {[Mapper.lit "photos" :=
                          Mapper.JList (Mapper.JStr <$> Mapper._prepare_photos photo_files)]}));
         Mapper.errors := [] |}
    else
      {| Mapper.status := "NEED_ACTION"; Mapper.mapped_avito := None;
         Mapper.errors := errors |}.
Proof.
  unfold fields_read, Mapper.map_to_avito.
  intros [E|[E ->]]; rewrite E; [|done].
  destruct (Mapper.truthy float_nonzero (Mapper.JDict avito_fields)) eqn:Et; [done|].
  simpl in Et. apply negb_false_iff, bool_decide_eq_true in Et. by subst.
Qed.

(** Without a dict of fields the answer is the one fixed error. *)
Lemma map_to_avito_without_fields ai_result photo_files required_fields :
  (∀ avito_fields, ¬ fields_read float_nonzero ai_result avito_fields) →
  Mapper.map_to_avito float_nonzero isspace ai_result photo_files required_fields
  = {| Mapper.status := "NEED_ACTION"; Mapper.mapped_avito := None;
       Mapper.errors := [Mapper.lit "avito_fields must be an object"] |}.
Proof.
  unfold fields_read, Mapper.map_to_avito. intros Hno.
  destruct (Mapper.truthy float_nonzero (Mapper.get ai_result (Mapper.lit "avito_fields")))
    eqn:Et.
  - destruct (Mapper.get ai_result (Mapper.lit "avito_fields")) as [| | | | | |d] eqn:E;
      try done.
    destruct (Hno d). by left.
  - destruct (Hno ∅). by right.
Qed.

Lemma fields_read_cases ai_result :
  (∃ avito_fields, fields_read float_nonzero ai_result avito_fields) ∨
  (∀ avito_fields, ¬ fields_read float_nonzero ai_result avito_fields).
Proof.
  unfold fields_read.
  destruct (Mapper.truthy float_nonzero (Mapper.get ai_result (Mapper.lit "avito_fields")))
    eqn:Et; [|left; exists ∅; by right].
  destruct (Mapper.get ai_result (Mapper.lit "avito_fields")) as [| | | | | |d] eqn:E;
    try (right; intros d' [?|[? _]]; done).
  left. exists d. by left.
Qed.

End MapToAvito.

(** X20. Shape of a mapping result.  [map_to_avito] answers either
    [READY_TO_POST] with a payload and no error, or [NEED_ACTION] with no
    payload and at least one error. *)
Theorem map_to_avito_result_shape {F} (float_nonzero : F → bool) (isspace : N → bool)
    (ai_result : gmap Mapper.pystr (Mapper.jval F)) photo_files required_fields :
  let result :=
    Mapper.map_to_avito float_nonzero isspace ai_result photo_files required_fields in
  (Mapper.status result = "READY_TO_POST" ∧
   Mapper.errors result = [] ∧
   ∃ mapped, Mapper.mapped_avito result = Some mapped) ∨
  (Mapper.status result = "NEED_ACTION" ∧
   Mapper.mapped_avito result = None ∧
   Mapper.errors result ≠ []).
Proof.
  intros result. subst result.
  destruct (fields_read_cases float_nonzero ai_result) as [[avito_fields Hf]|Hno].
  - rewrite (map_to_avito_with_fields _ _ _ _ _ _ Hf). cbv zeta.
    match goal with
    | |- context [bool_decide (?errs = [])] =>
        match errs with
        | _ ++ _ =>
            destruct (decide (errs = [])) as [He|He];
              [rewrite (bool_decide_eq_true_2 _ He)|rewrite (bool_decide_eq_false_2 _ He)]
        end
    end; simpl; [left|right]; eauto.
  - rewrite map_to_avito_without_fields by eauto. right. done.
Qed.

Lemma fields_read_unique {F} (float_nonzero : F → bool)
    (ai_result d1 d2 : gmap Mapper.pystr (Mapper.jval F)) :
  fields_read float_nonzero ai_result d1 →
  fields_read float_nonzero ai_result d2 → d1 = d2.
Proof.
  unfold fields_read. intros [E1|[E1 ->]] [E2|[E2 ->]]; [congruence| | |done].
  - rewrite E1 in E2. simpl in E2.
    by apply negb_false_iff, bool_decide_eq_true in E2.
  - rewrite E2 in E1. simpl in E1.
    by apply negb_false_iff, bool_decide_eq_true in E1.
Qed.

Lemma prepare_photos_nonempty photo_files :
  Mapper._prepare_photos photo_files ≠ [] ↔ ∃ path, path ∈ photo_files ∧ path ≠ [].
Proof.
  split.
  - intros Hne. remember (Mapper._prepare_photos photo_files) as kept eqn:E.
    destruct kept as [|path rest]; [done|]. exists path.
    assert (path ∈ Mapper._prepare_photos photo_files) as H by (rewrite <-E; by left).
    unfold Mapper._prepare_photos in H. by apply list_elem_of_filter in H as [? ?].
  - intros (path & Hin & Hne) E.
    assert (path ∈ Mapper._prepare_photos photo_files) as H.
    { unfold Mapper._prepare_photos. by apply list_elem_of_filter. }
    rewrite E in H. by apply elem_of_nil in H.
Qed.

(** When the list of errors of [map_to_avito] is empty. *)
Lemma map_to_avito_no_errors {F} (float_nonzero : F → bool)
    (title description : Mapper.jval F) avito_fields required_fields photo_files :
  ((if negb (Mapper.truthy float_nonzero title) || negb (Mapper.is_str title)
    then [Mapper.lit "title is required"] else []) ++
   (if negb (Mapper.truthy float_nonzero description) || negb (Mapper.is_str description)
    then [Mapper.lit "description is required"] else []) ++
   Mapper._validate_required_fields float_nonzero avito_fields required_fields) ++
  (if bool_decide (Mapper._prepare_photos photo_files = [])
   then [Mapper.lit "At least one photo is required"] else []) = [] ↔
  nonempty_str title ∧ nonempty_str description ∧
  (∀ field, field ∈ required_fields →
     Mapper.truthy float_nonzero (Mapper.get avito_fields field) = true) ∧
  (∃ path, path ∈ photo_files ∧ path ≠ []).
Proof.
  rewrite !app_nil.
  rewrite <-(nonempty_str_check float_nonzero title).
  rewrite <-(nonempty_str_check float_nonzero description).
  rewrite <-prepare_photos_nonempty.
  pose proof (validate_required_fields_empty float_nonzero avito_fields required_fields)
    as Hv.
  rewrite Hv.
  destruct (negb (Mapper.truthy float_nonzero title) || negb (Mapper.is_str title));
  destruct (negb (Mapper.truthy float_nonzero description) || negb (Mapper.is_str description));
  case_bool_decide; intuition (done || discriminate).
Qed.

(** X21. When a listing is ready to post.  [map_to_avito] answers
    [READY_TO_POST] exactly when the title and the description are strings
    that are not empty, [avito_fields] is a dict, or falsy and then taken as
    the empty dict, in which every required field has a truthy value, and at
    least one photo path is not empty. *)
Theorem map_to_avito_ready_iff {F} (float_nonzero : F → bool) (isspace : N → bool)
    (ai_result : gmap Mapper.pystr (Mapper.jval F)) photo_files required_fields :
  Mapper.status
    (Mapper.map_to_avito float_nonzero isspace ai_result photo_files required_fields)
  = "READY_TO_POST" ↔
  nonempty_str (Mapper.get ai_result (Mapper.lit "title")) ∧
  nonempty_str (Mapper.get ai_result (Mapper.lit "description")) ∧
  (∃ avito_fields,
     fields_read float_nonzero ai_result avito_fields ∧
     ∀ field, field ∈ required_fields →
       Mapper.truthy float_nonzero (Mapper.get avito_fields field) = true) ∧
  (∃ path, path ∈ photo_files ∧ path ≠ []).
Proof.
  destruct (fields_read_cases float_nonzero ai_result) as [[avito_fields Hf]|Hno].
  - rewrite (map_to_avito_with_fields _ _ _ _ _ _ Hf). cbv zeta.
    pose proof (map_to_avito_no_errors float_nonzero
                  (Mapper.get ai_result (Mapper.lit "title"))
                  (Mapper.get ai_result (Mapper.lit "description"))
                  avito_fields required_fields photo_files) as Hiff.
    match type of Hiff with
    | ?errs = [] ↔ _ =>
        destruct (decide (errs = [])) as [He|He];
          [rewrite (bool_decide_eq_true_2 _ He)|rewrite (bool_decide_eq_false_2 _ He)]
    end; simpl.
    + split; [intros _|done]. apply Hiff in He as (? & ? & ? & ?).
      repeat split; try done. by exists avito_fields.
    + split; [done|]. intros (Ht & Hd & (d & Hd' & Hreq) & Hp). destruct He.
      apply Hiff. repeat split; try done.
      by rewrite (fields_read_unique _ _ _ _ Hf Hd').
  - rewrite map_to_avito_without_fields by done. simpl.
    split; [done|]. intros (_ & _ & (d & Hd & _) & _). by destruct (Hno d).
Qed.

(** X22. The payload of a ready listing.  In a [READY_TO_POST] answer
    every entry of [avito_fields] is in the payload as it is, also under the
    keys ["title"], ["description"] and ["photos"]; where [avito_fields] has
    no such key, the title is the cleaned title, cut to 100 characters, the
    description is the cleaned description, cut to 3000, and the photos are
    the photo paths that are not empty, in their order.  The payload has no
    other keys. *)
Theorem map_to_avito_payload {F} (float_nonzero : F → bool) (isspace : N → bool)
    (ai_result : gmap Mapper.pystr (Mapper.jval F)) photo_files required_fields :
  Mapper.status
    (Mapper.map_to_avito float_nonzero isspace ai_result photo_files required_fields)
  = "READY_TO_POST" →
  ∃ title description avito_fields mapped,
    Mapper.get ai_result (Mapper.lit "title") = Mapper.JStr title ∧
    Mapper.get ai_result (Mapper.lit "description") = Mapper.JStr description ∧
    fields_read float_nonzero ai_result avito_fields ∧
    Mapper.mapped_avito
      (Mapper.map_to_avito float_nonzero isspace ai_result photo_files required_fields)
    = Some mapped ∧
    (∀ key v, avito_fields !! key = Some v → mapped !! key = Some v) ∧
    (avito_fields !! Mapper.lit "title" = None →
       mapped !! Mapper.lit "title"
       = Some (Mapper.JStr (Mapper._clean_text isspace title 100))) ∧
    (avito_fields !! Mapper.lit "description" = None →
       mapped !! Mapper.lit "description"
       = Some (Mapper.JStr (Mapper._clean_text isspace description 3000))) ∧
    (avito_fields !! Mapper.lit "photos" = None →
       mapped !! Mapper.lit "photos"
       = Some (Mapper.JList (Mapper.JStr <$> filter (λ path, path ≠ []) photo_files))) ∧
    dom mapped
    = dom avito_fields ∪
      {[Mapper.lit "title"; Mapper.lit "description"; Mapper.lit "photos"]}.
Proof.
  destruct (fields_read_cases float_nonzero ai_result) as [[avito_fields Hf]|Hno];
    [|by rewrite map_to_avito_without_fields by done].
  rewrite (map_to_avito_with_fields _ _ _ _ _ _ Hf). cbv zeta.
  pose proof (map_to_avito_no_errors float_nonzero
                (Mapper.get ai_result (Mapper.lit "title"))
                (Mapper.get ai_result (Mapper.lit "description"))
                avito_fields required_fields photo_files) as Hiff.
  match type of Hiff with
  | ?errs = [] ↔ _ =>
      destruct (decide (errs = [])) as [He|He];
        [rewrite (bool_decide_eq_true_2 _ He)|by rewrite (bool_decide_eq_false_2 _ He)]
  end.
  simpl. intros _.
  apply Hiff in He as ((title & Ht & _) & (description & Hd & _) & _).
  rewrite Ht, Hd. simpl.
  eexists title, description, avito_fields, _.
  split; [done|]. split; [done|]. split; [done|]. split; [done|].
  split; [|split; [|split; [|split]]].
  - intros key v Hk. by apply lookup_union_Some_l.
  - intros Hk. rewrite lookup_union_r by done. by rewrite lookup_insert_eq.
  - intros Hk. rewrite lookup_union_r by done.
    rewrite lookup_insert_ne; [|discriminate]. apply lookup_insert_eq.
  - intros Hk. rewrite lookup_union_r by done.
    rewrite !lookup_insert_ne; [|discriminate..]. apply lookup_singleton_eq.
  - rewrite dom_union_L, !dom_insert_L, dom_singleton_L.
    f_equal; by rewrite ?(assoc_L (∪)).
Qed.

Lemma map_to_avito_payload_witness :
  ∃ title description avito_fields mapped,
    Mapper.get MapperDemo.listing (Mapper.lit "title") = Mapper.JStr title ∧
    Mapper.get MapperDemo.listing (Mapper.lit "description") = Mapper.JStr description ∧
    fields_read Mapper.int_float_nonzero MapperDemo.listing avito_fields ∧
    Mapper.mapped_avito
      (Mapper.map_to_avito Mapper.int_float_nonzero Mapper.unicode_space
         MapperDemo.listing MapperDemo.photos MapperDemo.required)
    = Some mapped ∧
    (∀ key v, avito_fields !! key = Some v → mapped !! key = Some v) ∧
    (avito_fields !! Mapper.lit "title" = None →
       mapped !! Mapper.lit "title"
       = Some (Mapper.JStr (Mapper._clean_text Mapper.unicode_space title 100))) ∧
    (avito_fields !! Mapper.lit "description" = None →
       mapped !! Mapper.lit "description"
       = Some (Mapper.JStr (Mapper._clean_text Mapper.unicode_space description 3000))) ∧
    (avito_fields !! Mapper.lit "photos" = None →
       mapped !! Mapper.lit "photos"
       = Some (Mapper.JList
                 (Mapper.JStr <$> filter (λ path, path ≠ []) MapperDemo.photos))) ∧
    dom mapped
    = dom avito_fields ∪
      {[Mapper.lit "title"; Mapper.lit "description"; Mapper.lit "photos"]}.
Proof.
  apply (map_to_avito_payload Mapper.int_float_nonzero Mapper.unicode_space
           MapperDemo.listing MapperDemo.photos MapperDemo.required).
  vm_compute. reflexivity.
Defined.

(** The listing of the demo: the title of [avito_fields] wins over the
    cleaned title, the description is cleaned, the empty photo path is
    dropped. *)
Example map_to_avito_demo :
  let result :=
    Mapper.map_to_avito Mapper.int_float_nonzero Mapper.unicode_space
      MapperDemo.listing MapperDemo.photos MapperDemo.required in
  Mapper.status result = "READY_TO_POST" ∧
  (Mapper.mapped_avito result ≫= (.!! Mapper.lit "title"))
  = Some (Mapper.JStr (Mapper.lit "From the fields")) ∧
  (Mapper.mapped_avito result ≫= (.!! Mapper.lit "description"))
  = Some (Mapper.JStr (Mapper.lit "Good" ++ [10; 10]%N ++ Mapper.lit "car")) ∧
  (Mapper.mapped_avito result ≫= (.!! Mapper.lit "photos"))
  = Some (Mapper.JList [Mapper.JStr (Mapper.lit "data/b/01.jpg")]) ∧
  Mapper.errors
    (Mapper.map_to_avito Mapper.int_float_nonzero Mapper.unicode_space
       MapperDemo.listing [] Mapper.DEFAULT_REQUIRED_FIELDS)
  = [Mapper.lit "Missing required avito_fields: body_type, category, city, color, drive_type, model, owners, payment_per_month_rub";
     Mapper.lit "At least one photo is required"].
Proof. vm_compute. done. Qed.

(** ** The photo importer *)

Lemma Sorted_seqZ m n : Sorted Z.le (seqZ m n).
Proof.
  destruct (Z.le_gt_cases n 0) as [Hn|Hn]; [rewrite seqZ_nil by done; constructor|].
  rewrite <-(Z2Nat.id n) by lia. generalize (Z.to_nat n) as k. clear.
  intros k. revert m. induction k as [|k IH]; intros m; [constructor|].
  rewrite seqZ_cons by lia. replace (Z.pred (Z.of_nat (S k))) with (Z.of_nat k) by lia.
  constructor; [apply IH|].
  destruct k as [|k]; [constructor|].
  rewrite seqZ_cons by lia. constructor. lia.
Qed.

(** A sorted list stays sorted under a map that is monotone on its
    elements. *)
Lemma Sorted_fmap_on {A B} (P : A → Prop) (R1 : relation A) (R2 : relation B)
    (f : A → B) l :
  (∀ x y, P x → P y → R1 x y → R2 (f x) (f y)) →
  Forall P l → Sorted R1 l → Sorted R2 (f <$> l).
Proof.
  intros Hmono Hall Hs. induction Hs as [|x l Hs IH Hhd]; [constructor|].
  apply Forall_cons in Hall as [Hx Hl]. simpl. constructor; [by apply IH|].
  destruct Hhd as [|y l' Hxy]; [constructor|].
  apply Forall_cons in Hl as [Hy _]. constructor. by apply Hmono.
Qed.

#[local] Existing Instance Importer.key_le_dec.
#[local] Existing Instance Importer.index_le_dec.

(** *** The order and the equality of JSON keys *)

Lemma compare_frac_antisym f g :
  Importer.compare_frac g f = CompOpp (Importer.compare_frac f g).
Proof.
  destruct f as [[n d]|], g as [[n' d']|]; simpl; try done.
  apply Pos.compare_antisym.
Qed.

Lemma compare_number_antisym x y :
  Importer.compare_number y x = CompOpp (Importer.compare_number x y).
Proof.
  destruct x as [|z f|], y as [|z' f'|]; simpl; try done.
  rewrite (Z.compare_antisym z z').
  destruct (Z.compare z z'); simpl; try done. apply compare_frac_antisym.
Qed.

Lemma ltb_asym s t : String.ltb s t = true → String.ltb t s = false.
Proof.
  unfold String.ltb. rewrite (String.compare_antisym t s).
  by destruct (String.compare s t).
Qed.

(** [<] is asymmetric, so of two keys one may stay before the other. *)
Lemma py_lt_asym a b : Importer.py_lt a b = true → Importer.py_lt b a = false.
Proof.
  unfold Importer.py_lt.
  destruct (Importer.number_of a) as [x|] eqn:Ea,
           (Importer.number_of b) as [y|] eqn:Eb.
  - rewrite (compare_number_antisym x y).
    by destruct (Importer.compare_number x y).
  - destruct a, b; try done; by simplify_eq/=.
  - destruct a, b; try done; by simplify_eq/=.
  - destruct a, b; try done. apply ltb_asym.
Qed.

Lemma key_le_total : Total Importer.key_le.
Proof.
  intros a b. unfold Importer.key_le.
  destruct (Importer.py_lt b a) eqn:E; [right; by apply py_lt_asym|by left].
Qed.

#[local] Existing Instance key_le_total.

Lemma as_int_Some v k :
  Importer.as_int v = Some k ↔ Importer.number_of v = Some (Importer.Finite k None).
Proof.
  unfold Importer.as_int.
  destruct (Importer.number_of v) as [[|z [f|]|]|]; split; intros ?; by simplify_eq.
Qed.

(** Keys that equal integers are ordered as these integers are. *)
Lemma key_le_as_int a b i j :
  Importer.as_int a = Some i → Importer.as_int b = Some j →
  Importer.key_le a b → i ≤ j.
Proof.
  intros Ha%as_int_Some Hb%as_int_Some. unfold Importer.key_le, Importer.py_lt.
  rewrite Ha, Hb. simpl. destruct (Z.compare_spec j i); [lia|done|lia].
Qed.

(** Keys that a set takes for one equal the same integer, if any. *)
Lemma same_key_as_int a b :
  Importer.same_key a b = true → Importer.as_int a = Importer.as_int b.
Proof.
  unfold Importer.same_key, Importer.as_int.
  destruct (Importer.number_of a) as [x|] eqn:Ea,
           (Importer.number_of b) as [y|] eqn:Eb.
  - destruct x as [|z f|], y as [|z' f'|]; simpl; try done.
    destruct (Z.compare_spec z z'); try done. subst.
    by destruct f as [[??]|], f' as [[??]|].
  - destruct a as [| | |[| | |] ?| | |]; try done; by simplify_eq/=.
  - destruct a as [| | |[| | |] ?| | |], b as [| | |[| | |] ?| | |];
      try done; by simplify_eq/=.
  - done.
Qed.

Lemma as_int_number v : is_Some (Importer.as_int v) →
  Importer.is_number v = true ∧ Importer.hashable v = true.
Proof. intros [k Hk]. by destruct v. Qed.

Lemma distinct_NoDup keys :
  NoDup (Importer.as_int <$> keys) → Importer.distinct keys = keys.
Proof.
  induction keys as [|key rest IH]; [done|].
  rewrite fmap_cons, NoDup_cons. intros [Hfresh Hnd]. simpl.
  destruct (existsb (Importer.same_key key) rest) eqn:E.
  - apply existsb_exists in E as (other & Hin & Hsame).
    destruct Hfresh. rewrite (same_key_as_int _ _ Hsame).
    apply list_elem_of_fmap_2. by apply list_elem_of_In.
  - by rewrite IH.
Qed.

Lemma count_distinct_ints keys :
  Forall (λ key, is_Some (Importer.as_int key)) keys →
  NoDup (Importer.as_int <$> keys) →
  Importer.count_distinct keys = Return (length keys).
Proof.
  intros Hall Hnd. unfold Importer.count_distinct.
  assert (List.find (λ key, negb (Importer.hashable key)) keys = None) as ->.
  { induction Hall as [|key rest Hk _ IH]; [done|]. simpl.
    apply as_int_number in Hk as [_ ->]. simpl. apply IH.
    rewrite fmap_cons in Hnd. by apply NoDup_cons in Hnd as [_ ?]. }
  by rewrite distinct_NoDup.
Qed.

Lemma comparable_numbers keys :
  Forall (λ key, is_Some (Importer.as_int key)) keys → Importer.comparable keys = true.
Proof.
  intros Hall.
  assert (forallb Importer.is_number keys = true) as Hnum.
  { induction Hall as [|key rest Hk _ IH]; [done|]. simpl.
    by apply as_int_number in Hk as [-> _]. }
  unfold Importer.comparable. destruct keys as [|? [|? ?]]; try done.
  by rewrite Hnum.
Qed.

(** Keys that are, in some order, the integers 1 to n. *)
Lemma range_keys_ints keys n :
  Importer.as_int <$> keys ≡ₚ Some <$> seqZ 1 n →
  Forall (λ key, is_Some (Importer.as_int key)) keys ∧
  NoDup (Importer.as_int <$> keys).
Proof.
  intros Hp. split.
  - apply Forall_forall. intros key Hkey.
    assert (Importer.as_int key ∈ Importer.as_int <$> keys) as Hin
      by by apply list_elem_of_fmap_2.
    rewrite Hp in Hin. apply list_elem_of_fmap in Hin as (k & -> & _). by eexists.
  - rewrite Hp. apply (NoDup_fmap_2 _), NoDup_seqZ.
Qed.

Section SortByKey.

Context {A : Type} (key : A → Importer.Json).
Context (dec : ∀ a b, Decision (Importer.key_le (key a) (key b))).

(** Sorting by keys that are, in some order, the integers 1 to n brings
    them in that order. *)
Lemma sort_by_int_keys l :
  Importer.as_int <$> (key <$> l) ≡ₚ Some <$> seqZ 1 (Z.of_nat (length l)) →
  Importer.as_int <$>
    (key <$> merge_sort (λ a b, Importer.key_le (key a) (key b)) l)
  = Some <$> seqZ 1 (Z.of_nat (length l)).
Proof.
  intros Hp.
  pose proof (merge_sort_Permutation (λ a b, Importer.key_le (key a) (key b)) l)
    as Hperm.
  assert (Total (λ a b, Importer.key_le (key a) (key b))) as Htotal.
  { intros a b. apply key_le_total. }
  pose proof (Sorted_merge_sort (λ a b, Importer.key_le (key a) (key b)) l) as Hsorted.
  set (sorted := merge_sort _ l) in *.
  destruct (range_keys_ints _ _ Hp) as [Hall _].
  rewrite Forall_fmap in Hall.
  assert (Forall (λ a, is_Some (Importer.as_int (key a))) sorted) as Hall'.
  { rewrite Hperm. eapply Forall_impl; [exact Hall|]. done. }
  assert ((λ a, default 0 (Importer.as_int (key a))) <$> sorted
          = seqZ 1 (Z.of_nat (length l))) as Hval.
  { apply (Sorted_unique Z.le).
    - eapply (Sorted_fmap_on _ _ _ _ _ _ Hall' Hsorted).
    - apply Sorted_seqZ.
    - rewrite Hperm.
      transitivity (default 0 <$> (Importer.as_int <$> (key <$> l))).
      { by rewrite <-!list_fmap_compose. }
      rewrite Hp, <-list_fmap_compose. simpl. by rewrite list_fmap_id. }
  rewrite <-Hval, <-!list_fmap_compose.
  apply Forall_fmap_ext_1. eapply Forall_impl; [exact Hall'|].
  intros a [k Hk]. simpl. by rewrite Hk.
  Unshelve.
  intros x y [i Hi] [j Hj] Hle. simpl. rewrite Hi, Hj. simpl.
  by eapply key_le_as_int.
Qed.

End SortByKey.

(** *** [_sorted_photos] *)

Lemma existsb_incomplete photos :
  existsb Importer.incomplete photos = false ↔
  Forall (λ p, is_Some (Importer.index p) ∧ is_Some (Importer.url p)) photos.
Proof.
  induction photos as [|p photos IH]; simpl; [split; [constructor|done]|].
  rewrite orb_false_iff, IH, Forall_cons. unfold Importer.incomplete.
  destruct (Importer.index p), (Importer.url p); split; intros [H1 H2];
    try done; try (split; [by split; eexists|done]);
    try (by destruct H1 as [[? ?] [? ?]]).
Qed.

Lemma dicts_fmap photos : Importer.dicts (Importer.ADict <$> photos) = photos.
Proof.
  induction photos as [|photo rest IH]; [done|].
  unfold Importer.dicts in *. rewrite fmap_cons. simpl. by f_equal.
Qed.

(** The check of the keys and the reading of the indices on a list of
    dicts. *)
Lemma check_photos_dicts photos :
  Importer.check_photos (Importer.ADict <$> photos)
  = if existsb Importer.incomplete photos
    then Raise "Each photo must include index and url" else Return tt.
Proof.
  induction photos as [|photo rest IH]; [done|].
  simpl. by destruct (Importer.incomplete photo).
Qed.

Lemma read_indices_dicts photos :
  Importer.read_indices (Importer.ADict <$> photos)
  = Return (Importer.index_of <$> photos).
Proof.
  induction photos as [|photo rest IH]; [done|].
  rewrite !fmap_cons. cbn [Importer.read_indices Importer.subscript_index].
  by rewrite IH.
Qed.

(** The indices can be read of dicts only. *)
Lemma read_indices_inv photos indices :
  Importer.read_indices photos = Return indices →
  photos = Importer.ADict <$> Importer.dicts photos.
Proof.
  revert indices. induction photos as [|photo rest IH]; intros indices; [done|].
  simpl. destruct photo as [photo|v other].
  - simpl. destruct (Importer.read_indices rest) as [found|exc]; [|done].
    intros _. unfold Importer.dicts. simpl. f_equal. by eapply IH.
  - by destruct v.
Qed.

Section SortedPhotos.

Variable sort_error : list Importer.Json → string.

(** What [_sorted_photos] has checked when it returns, and what it
    returns. *)
Lemma sorted_photos_inv batch sorted :
  Importer._sorted_photos sort_error batch = Return sorted →
  items_of batch = Importer.ADict <$> photos_of batch ∧
  Forall (λ p, is_Some (Importer.index p) ∧ is_Some (Importer.url p)) (photos_of batch) ∧
  Importer.as_int <$> (Importer.index_of <$> photos_of batch)
    ≡ₚ Some <$> seqZ 1 (Z.of_nat (length (photos_of batch))) ∧
  sorted = merge_sort Importer.index_le (photos_of batch).
Proof.
  unfold Importer._sorted_photos, photos_of, items_of.
  destruct (Importer.get_photos batch) as [| |items]; [|done|].
  - simpl. unfold Importer.sort_by_index. simpl. intros [= <-].
    split; [done|]. split; [constructor|]. by split.
  - destruct (Importer.check_photos items) as [[]|exc] eqn:Ec; [|done].
    destruct (Importer.read_indices items) as [indices|exc] eqn:Er; [|done].
    pose proof (read_indices_inv _ _ Er) as Hdicts.
    set (photos := Importer.dicts items) in *.
    rewrite Hdicts, check_photos_dicts in Ec.
    rewrite Hdicts, read_indices_dicts in Er. injection Er as <-.
    pose proof (existsb_incomplete photos) as Hinc.
    destruct (existsb Importer.incomplete photos); [done|].
    destruct (Importer.count_distinct _) as [count|exc]; [|done].
    destruct (negb _); [done|].
    unfold Importer.sorted_keys, Importer.sort_by_index.
    destruct (Importer.comparable _); [|done].
    case_bool_decide as Hrange; [done|]. intros [= <-].
    split; [done|]. split; [by apply Hinc|]. split; [|done].
    rewrite length_fmap in Hrange.
    rewrite <-Hrange. by rewrite merge_sort_Permutation.
Qed.

(** [_sorted_photos] returns whenever these checks pass. *)
Lemma sorted_photos_accepts batch :
  Importer.get_photos batch ≠ Importer.NotAList →
  items_of batch = Importer.ADict <$> photos_of batch →
  Forall (λ p, is_Some (Importer.index p) ∧ is_Some (Importer.url p)) (photos_of batch) →
  Importer.as_int <$> (Importer.index_of <$> photos_of batch)
    ≡ₚ Some <$> seqZ 1 (Z.of_nat (length (photos_of batch))) →
  Importer._sorted_photos sort_error batch
  = Return (merge_sort Importer.index_le (photos_of batch)).
Proof.
  intros Hlist Hdicts Hcomplete Hp.
  assert (Importer._sorted_photos sort_error batch
          = Importer._sorted_photos sort_error
              {| Importer.get_status := None;
                 Importer.get_photos := Importer.PhotoList (items_of batch) |}) as ->.
  { unfold Importer._sorted_photos, items_of.
    by destruct (Importer.get_photos batch). }
  unfold Importer._sorted_photos. simpl. rewrite Hdicts.
  generalize dependent (photos_of batch). intros photos _ Hcomplete Hp.
  rewrite check_photos_dicts, read_indices_dicts, dicts_fmap.
  apply existsb_incomplete in Hcomplete as ->.
  destruct (range_keys_ints _ _ Hp) as [Hall Hnd].
  rewrite (count_distinct_ints _ Hall Hnd), Nat.eqb_refl. simpl.
  unfold Importer.sorted_keys, Importer.sort_by_index.
  rewrite (comparable_numbers _ Hall).
  rewrite <-(length_fmap Importer.index_of photos) in Hp.
  pose proof (sort_by_int_keys id _ (Importer.index_of <$> photos)) as Hsorted.
  rewrite !list_fmap_id in Hsorted. specialize (Hsorted Hp).
  rewrite bool_decide_eq_false_2; [done|]. intros Hne. by apply Hne.
Qed.

(** The photos [_sorted_photos] returns are the photos of the batch, with
    the index [k] at position [k] and each with a url. *)
Lemma sorted_photos_ordered batch sorted :
  Importer._sorted_photos sort_error batch = Return sorted →
  sorted ≡ₚ photos_of batch ∧
  Importer.as_int <$> (Importer.index_of <$> sorted)
    = Some <$> seqZ 1 (Z.of_nat (length sorted)) ∧
  Forall (λ p, is_Some (Importer.url p)) sorted.
Proof.
  intros (_ & Hcomplete & Hp & ->)%sorted_photos_inv.
  pose proof (merge_sort_Permutation Importer.index_le (photos_of batch)) as Hperm.
  split; [done|]. split.
  - rewrite (Permutation_length Hperm). by apply (sort_by_int_keys Importer.index_of).
  - rewrite Hperm. eapply Forall_impl; [exact Hcomplete|]. by intros ? [_ ?].
Qed.

End SortedPhotos.

(** X23. Which batches [_sorted_photos] accepts.  For a batch whose
    ["photos"] is a list, [_sorted_photos] returns exactly when every
    element of the list is a dict that has the keys ["index"] and ["url"]
    and the indices equal, in some order, the numbers 1 to n, n being the
    number of photos ([True] and [1.0] equal 1); otherwise it raises. *)
Theorem sorted_photos_accepts_iff sort_error batch items :
  Importer.get_photos batch = Importer.PhotoList items →
  (∃ sorted, Importer._sorted_photos sort_error batch = Return sorted) ↔
  ∃ photos,
    items = Importer.ADict <$> photos ∧
    Forall (λ p, is_Some (Importer.index p) ∧ is_Some (Importer.url p)) photos ∧
    Importer.as_int <$> (Importer.index_of <$> photos)
      ≡ₚ Some <$> seqZ 1 (Z.of_nat (length photos)).
Proof.
  intros E.
  assert (items_of batch = items) as Hitems by (unfold items_of; by rewrite E).
  split.
  - intros [sorted (Hdicts & Hcomplete & Hp & _)%sorted_photos_inv].
    exists (photos_of batch). by rewrite <-Hitems.
  - intros (photos & -> & Hcomplete & Hp).
    assert (photos_of batch = photos) as Hphotos
      by (unfold photos_of; by rewrite Hitems, dicts_fmap).
    eexists. apply sorted_photos_accepts.
    + by rewrite E.
    + by rewrite Hphotos.
    + by rewrite Hphotos.
    + by rewrite Hphotos.
Qed.

Lemma sorted_photos_accepts_iff_witness :
  (∃ sorted,
     Importer._sorted_photos Importer.demo_sort_error Importer.demo_batch
     = Return sorted) ↔
  ∃ photos,
    items_of Importer.demo_batch = Importer.ADict <$> photos ∧
    Forall (λ p, is_Some (Importer.index p) ∧ is_Some (Importer.url p)) photos ∧
    Importer.as_int <$> (Importer.index_of <$> photos)
      ≡ₚ Some <$> seqZ 1 (Z.of_nat (length photos)).
Proof.
  exact (sorted_photos_accepts_iff Importer.demo_sort_error Importer.demo_batch
           (items_of Importer.demo_batch) eq_refl).
Defined.

(** X24. What [_sorted_photos] returns.  When it returns, every element of
    the list under ["photos"] is a dict, and the list it returns is a
    rearrangement of these photos in which the photo at position k (from 1)
    has an index that equals k, and every photo has a url. *)
Theorem sorted_photos_result sort_error batch sorted
  (H : Importer._sorted_photos sort_error batch = Return sorted) :
  items_of batch = Importer.ADict <$> photos_of batch ∧
  sorted ≡ₚ photos_of batch ∧
  Importer.as_int <$> (Importer.index_of <$> sorted)
    = Some <$> seqZ 1 (Z.of_nat (length sorted)) ∧
  Forall (λ p, is_Some (Importer.url p)) sorted.
Proof.
  split; [by eapply sorted_photos_inv|]. by eapply sorted_photos_ordered.
Qed.

Lemma sorted_photos_result_witness :
  items_of Importer.demo_batch = Importer.ADict <$> photos_of Importer.demo_batch ∧
  merge_sort Importer.index_le (photos_of Importer.demo_batch)
    ≡ₚ photos_of Importer.demo_batch ∧
  Importer.as_int <$>
    (Importer.index_of <$> merge_sort Importer.index_le (photos_of Importer.demo_batch))
  = Some <$> seqZ 1 (Z.of_nat (length (merge_sort Importer.index_le
                                         (photos_of Importer.demo_batch)))) ∧
  Forall (λ p, is_Some (Importer.url p))
    (merge_sort Importer.index_le (photos_of Importer.demo_batch)).
Proof.
  exact (sorted_photos_result Importer.demo_sort_error Importer.demo_batch
           (merge_sort Importer.index_le (photos_of Importer.demo_batch)) eq_refl).
Defined.

(** What [_sorted_photos] does with the kinds of indices JSON has: a float
    or [True] that equals the missing number is taken; [2.5], a repeated
    [NaN], a list, a string beside a number and a lone [null] are not, each
    with its own exception. *)
Example sorted_photos_on_json_indices :
  let batch indices :=
    {| Importer.get_status := None;
       Importer.get_photos :=
         Importer.PhotoList
           ((λ v, Importer.ADict
                    {| Importer.index := Some v; Importer.url := Some Importer.JNull;
                       Importer.type := None |}) <$> indices) |} in
  let run indices :=
    match Importer._sorted_photos Importer.demo_sort_error (batch indices) with
    | Return sorted => Return (Importer.index_of <$> sorted)
    | Raise exc => Raise exc
    end in
  run [Importer.JInt 2; Importer.JFloat (Importer.Whole 3) "3.0"; Importer.JBool true]
    = Return [Importer.JBool true; Importer.JInt 2;
              Importer.JFloat (Importer.Whole 3) "3.0"] ∧
  run [Importer.JInt 1; Importer.JFloat (Importer.Part 2 1 2) "2.5"]
    = Raise "Photo indices must be consecutive starting from 1" ∧
  run [Importer.JInt 1; Importer.JFloat (Importer.Whole 1) "1.0"]
    = Raise "Photo indices must be unique" ∧
  run [Importer.JFloat Importer.NaN "nan"; Importer.JFloat Importer.NaN "nan"]
    = Raise "Photo indices must be unique" ∧
  run [Importer.JInt 1; Importer.JArray [Importer.JInt 2] "[2]"]
    = Raise "unhashable type: 'list'" ∧
  run [Importer.JInt 1; Importer.JStr "2"]
    = Raise "'<' not supported between instances of 'str' and 'int'" ∧
  run [Importer.JNull]
    = Raise "Photo indices must be consecutive starting from 1" ∧
  run [] = Return [].
Proof. vm_compute. done. Qed.

(** What [_sorted_photos] does with elements that are not dicts: a number
    or [null] fails the test for the keys with a [TypeError]; a string or a
    list passes it when it holds the words ["index"] and ["url"], and then
    fails the subscript; otherwise it is a photo without its keys. *)
Example sorted_photos_on_other_elements :
  let run items :=
    Importer._sorted_photos Importer.demo_sort_error
      {| Importer.get_status := None; Importer.get_photos := Importer.PhotoList items |} in
  let front :=
    Importer.ADict {| Importer.index := Some (Importer.JInt 1);
                      Importer.url := Some (Importer.JStr "https://cdn/front");
                      Importer.type := None |} in
  run [front; Importer.NotADict (Importer.JInt 2) eq_refl]
    = Raise "argument of type 'int' is not iterable" ∧
  run [Importer.NotADict Importer.JNull eq_refl; front]
    = Raise "argument of type 'NoneType' is not iterable" ∧
  run [front; Importer.NotADict (Importer.JStr "index, url") eq_refl]
    = Raise "string indices must be integers, not 'str'" ∧
  run [Importer.NotADict
         (Importer.JArray [Importer.JStr "index"; Importer.JStr "url"] "['index', 'url']")
         eq_refl]
    = Raise "list indices must be integers or slices, not str" ∧
  run [front; Importer.NotADict (Importer.JStr "https://cdn/side.png") eq_refl]
    = Raise "Each photo must include index and url" ∧
  run [Importer.NotADict (Importer.JArray [] "[]") eq_refl; Importer.NotADict Importer.JNull eq_refl]
    = Raise "Each photo must include index and url".
Proof. vm_compute. done. Qed.

(** *** [import_photos] *)

Section ImportPhotos.

Context {W : Type}.
Variable sort_error : list Importer.Json → string.
Variable _api_get_json : string → string → W → Res (Importer.Loaded Importer.Batch) * W.
Variable _download_file : string → string → W → Res unit * W.
Variable _validate_photo : string → W → Res unit * W.
Variable splitext_ext : string → string.
Variable path_join : string → string → string → string.

(** The target of a photo whose url is a [str] and whose index is an int
    or a bool, and no target otherwise. *)
Lemma photo_target_returns bid output_dir photo url path :
  Importer.photo_target splitext_ext path_join bid output_dir photo = Return (url, path) →
  Importer.url_of photo = Importer.JStr url ∧
  ∃ digits,
    Importer.format_02d (Importer.index_of photo) = Return digits ∧
    path = path_join output_dir bid
             (digits +:+ "_" +:+ Importer.py_str (Importer.type_of photo) +:+
              (if String.eqb (splitext_ext url) "" then ".jpg" else splitext_ext url)).
Proof.
  unfold Importer.photo_target, Importer.extension_of.
  destruct (Importer.url_of photo) as [| | | |s| |]; try done.
  destruct (Importer.format_02d _) as [digits|exc]; [|done].
  intros [= <- <-]. split; [done|]. by exists digits.
Qed.

Lemma photo_target_raises bid output_dir photo exc k :
  Importer.photo_target splitext_ext path_join bid output_dir photo = Raise exc →
  Importer.as_int (Importer.index_of photo) = Some k →
  (Importer.is_str (Importer.url_of photo) = false ∧
   exc = "expected str, bytes or os.PathLike object, not "
         +:+ Importer.type_name (Importer.url_of photo)) ∨
  (∃ text, Importer.index_of photo = Importer.JFloat (Importer.Whole k) text ∧
           exc = "Unknown format code 'd' for object of type 'float'").
Proof.
  unfold Importer.photo_target, Importer.extension_of. intros Hraise Hk.
  destruct (Importer.url_of photo) as [| | | |s| |];
    try (left; split; [done|]; by simplify_eq).
  right.
  destruct (Importer.index_of photo) as [| | |[z|? ? ?|[]|] text| | |];
    try done; unfold Importer.as_int in Hk; simplify_eq/=.
  by exists text.
Qed.

(** A loop that returns has appended, for every photo in turn, the path
    and the url of its target. *)
Lemma import_loop_returns bid output_dir photos files urls w files' urls' w' :
  Importer.import_loop _download_file _validate_photo splitext_ext path_join
    bid output_dir photos files urls w = (Return (files', urls'), w') →
  ∃ targets,
    Forall2 (λ photo target,
               Importer.photo_target splitext_ext path_join bid output_dir photo
               = Return target) photos targets ∧
    files' = files ++ targets.*2 ∧
    urls' = urls ++ targets.*1.
Proof.
  revert files urls w. induction photos as [|photo rest IH]; intros files urls w; simpl.
  { intros [= <- <- <-]. exists []. by rewrite !app_nil_r. }
  destruct (Importer.photo_target _ _ _ _ photo) as [[url path]|exc] eqn:Et; [|done].
  destruct (_download_file _ _ w) as [[[]|exc] w1]; [|done].
  destruct (_validate_photo _ w1) as [[[]|exc] w2]; [|done].
  intros (targets & Hall & -> & ->)%IH. exists ((url, path) :: targets).
  split; [by constructor|]. by rewrite !fmap_cons, <-!(assoc_L (++)).
Qed.

(** A loop that raises passes on the exception of the target, the
    download or the validation of one of the photos. *)
Lemma import_loop_raises bid output_dir photos files urls w exc w' :
  Importer.import_loop _download_file _validate_photo splitext_ext path_join
    bid output_dir photos files urls w = (Raise exc, w') →
  ∃ photo, photo ∈ photos ∧
    (Importer.photo_target splitext_ext path_join bid output_dir photo = Raise exc ∨
     ∃ url path v,
       Importer.photo_target splitext_ext path_join bid output_dir photo
         = Return (url, path) ∧
       (_download_file url path v = (Raise exc, w') ∨
        _validate_photo path v = (Raise exc, w'))).
Proof.
  revert files urls w. induction photos as [|photo rest IH]; intros files urls w; simpl;
    [done|].
  destruct (Importer.photo_target _ _ _ _ photo) as [[url path]|exc0] eqn:Et.
  - destruct (_download_file _ _ w) as [[[]|exc1] w1] eqn:Ed.
    + destruct (_validate_photo _ w1) as [[[]|exc2] w2] eqn:Ev.
      * intros (p & Hin & Hp)%IH. exists p. split; [by right|done].
      * intros [= <- <-]. exists photo. split; [by left|]. right.
        exists url, path, w1. split; [done|by right].
    + intros [= <- <-]. exists photo. split; [by left|]. right.
      exists url, path, w. split; [done|by left].
  - intros [= <- <-]. exists photo. split; [by left|by left].
Qed.

(** X25. What [import_photos] returns.  When [import_photos] returns, the
    batch it fetched was a dict with the status ["ready"] and photos that
    [_sorted_photos] accepts; the result carries the batch id it was called
    with and the status ["PHOTOS_READY"], and it lists one url and one file
    per photo, in the order of [_sorted_photos]: at position k (from 1) is
    the photo whose index is the int k (or [True] for 1) and whose url is a
    [str]; the file is
    [output_dir/batch_id/<k, two digits>_<type><extension>], where the type
    is [str] of what the key ["type"] holds, or ["photo"] when the photo has
    no such key, and the extension is that of the url, or [".jpg"] when it
    has none. *)
Theorem import_photos_result bid api_base_url token output_dir w result w'
  (H : Importer.import_photos sort_error _api_get_json _download_file _validate_photo
         splitext_ext path_join bid api_base_url token output_dir w
       = (Return result, w')) :
  ∃ batch w1 photos,
    Importer.fetch_batch _api_get_json bid api_base_url token w
      = (Return (Importer.ADict batch), w1) ∧
    Importer.get_status batch = Some (Importer.JStr "ready") ∧
    Importer._sorted_photos sort_error batch = Return photos ∧
    Importer.batch_id result = bid ∧
    Importer.status result = "PHOTOS_READY" ∧
    length (Importer.photo_urls result) = length photos ∧
    length (Importer.photo_files result) = length photos ∧
    ∀ (i : nat) photo,
      photos !! i = Some photo →
      ∃ url,
        Importer.url_of photo = Importer.JStr url ∧
        int_index (Importer.index_of photo) (Z.of_nat i + 1) ∧
        Importer.photo_urls result !! i = Some url ∧
        Importer.photo_files result !! i
        = Some (path_join output_dir bid
                  (Importer.two_digits (Z.of_nat i + 1) +:+ "_" +:+
                   Importer.py_str (Importer.type_of photo) +:+
                   (if String.eqb (splitext_ext url) "" then ".jpg"
                    else splitext_ext url))).
Proof.
  revert H. unfold Importer.import_photos.
  destruct (Importer.fetch_batch _ _ _ _ w) as [[[batch|v other]|exc] w1] eqn:Ef;
    [|done|done].
  destruct (Importer.is_ready batch) eqn:Es; simpl; [|done].
  destruct (Importer._sorted_photos sort_error batch) as [photos|exc] eqn:Ep; [|done].
  destruct (Importer.import_loop _ _ _ _ _ _ photos [] [] w1)
    as [[[files urls]|exc] w2] eqn:El; [|done].
  intros [= <- <-]. apply import_loop_returns in El as (targets & Hall & -> & ->).
  pose proof (sorted_photos_ordered _ _ _ Ep) as (_ & Hidx & _).
  exists batch, w1, photos. simpl.
  split; [done|]. split.
  { unfold Importer.is_ready in Es.
    destruct (Importer.get_status batch) as [[| | | |s| |]|]; try done.
    by apply String.eqb_eq in Es as ->. }
  split; [done|]. split; [done|]. split; [done|].
  pose proof (Forall2_length _ _ _ Hall) as Hlen.
  split; [by rewrite length_fmap|]. split; [by rewrite length_fmap|].
  intros i photo Hi.
  destruct (Forall2_lookup_l _ _ _ _ _ Hall Hi) as ([url path] & Ht & Htarget).
  apply photo_target_returns in Htarget as (Hurl & digits & Hdigits & ->).
  assert (Importer.as_int (Importer.index_of photo) = Some (Z.of_nat i + 1)) as Hk.
  { assert ((Importer.as_int <$> (Importer.index_of <$> photos)) !! i
            = Some (Importer.as_int (Importer.index_of photo))) as Hl.
    { by rewrite !list_lookup_fmap, Hi. }
    rewrite Hidx, list_lookup_fmap in Hl.
    destruct (seqZ 1 (Z.of_nat (length photos)) !! i) as [k|] eqn:Ek; [|done].
    apply lookup_seqZ in Ek as [-> _]. simpl in Hl. injection Hl as <-.
    f_equal. lia. }
  exists url. split; [done|].
  rewrite !list_lookup_fmap, Ht. simpl.
  destruct (Importer.index_of photo) as [|b|z| | | |]; try done;
    unfold Importer.as_int in Hk; simpl in Hk, Hdigits;
    injection Hk as Hk; injection Hdigits as <-.
  - destruct b; [|lia]. assert (i = 0%nat) as -> by lia.
    split; [by right|done].
  - subst z. split; [by left|done].
Qed.


End ImportPhotos.

Lemma import_photos_result_witness :
  ∃ result w', Importer.demo_import "b7" = (Return result, w') ∧
  ∃ batch w1 photos,
    Importer.fetch_batch Importer.demo_api "b7" "https://api/" "token" 0%nat
      = (Return (Importer.ADict batch), w1) ∧
    Importer.get_status batch = Some (Importer.JStr "ready") ∧
    Importer._sorted_photos Importer.demo_sort_error batch = Return photos ∧
    Importer.batch_id result = "b7" ∧
    Importer.status result = "PHOTOS_READY" ∧
    length (Importer.photo_urls result) = length photos ∧
    length (Importer.photo_files result) = length photos ∧
    ∀ (i : nat) photo,
      photos !! i = Some photo →
      ∃ url,
        Importer.url_of photo = Importer.JStr url ∧
        int_index (Importer.index_of photo) (Z.of_nat i + 1) ∧
        Importer.photo_urls result !! i = Some url ∧
        Importer.photo_files result !! i
        = Some (Importer.demo_join "/data" "b7"
                  (Importer.two_digits (Z.of_nat i + 1) +:+ "_" +:+
                   Importer.py_str (Importer.type_of photo) +:+
                   (if String.eqb (Importer.demo_ext url) "" then ".jpg"
                    else Importer.demo_ext url))).
Proof.
  eexists _, _. split; [vm_compute; reflexivity|].
  eapply (import_photos_result Importer.demo_sort_error Importer.demo_api
            Importer.demo_download Importer.demo_validate Importer.demo_ext
            Importer.demo_join "b7" "https://api/" "token" "/data" 0%nat).
  vm_compute. reflexivity.
Defined.

(** The import behind the witness of X25: the photo with the index [True]
    comes first, and a ["type"] that holds [null] gives the name part
    ["None"]. *)
Example import_of_demo_batch :
  Importer.demo_import "b7"
  = (Return {| Importer.batch_id := "b7"; Importer.status := "PHOTOS_READY";
               Importer.photo_files :=
                 ["/data/b7/01_photo.jpg"; "/data/b7/02_side.png";
                  "/data/b7/03_None.png"];
               Importer.photo_urls :=
                 ["https://cdn/front"; "https://cdn/side.png";
                  "https://cdn/rear.png"] |}, 3%nat).
Proof. vm_compute. reflexivity. Qed.


(** The ways of the demo to fail: a download that fails after the first
    file was written, an index [2.0] that [_sorted_photos] takes and the
    format code refuses, an answer that is a list, and a batch the server
    does not know. *)
Example imports_that_raise :
  Importer.demo_import "b9"
    = (Raise "Failed to download photo: 503 Service Unavailable", 1%nat) ∧
  Importer.demo_import "b8"
    = (Raise "Unknown format code 'd' for object of type 'float'", 1%nat) ∧
  Importer.demo_import "b6" = (Raise "'list' object has no attribute 'get'", 0%nat) ∧
  Importer.demo_import "b0" = (Raise "API request failed: 404 Not Found", 0%nat).
Proof. vm_compute. done. Qed.
